(** * regen / unicode_regex: code point sets, regex generation, pattern optimisation

    A shallow embedding of the Python sources

    - [unicode_regex/code_point_set.py]  (class [CodePointSet]),
    - [unicode_regex/optimizer.py]       (class [Optimizer]),
    - [unicode_regex/regex_generator.py] (class [RegexGenerator]),
    - [regen/regex_generator.py]         (class [RegexGenerator], here [Regen]),

    followed by the properties established about them.

    Conventions.  A Python [int] is a [Z].  A Python [str] is the list of its
    code points ([list Z]), so that [chr]/[ord] are the identity on valid
    code points and a supplementary-plane character is one element.  A Python
    [set] of ints is a [gset Z].  [CodePointSet] instances are objects: they
    live in a store indexed by address, a variable holds an address, and
    methods run in a state-and-exception monad over that store. *)

From Stdlib Require Import ZArith Lia List Ascii String.
From stdpp Require Import base option list sorting gmap sets.

Open Scope Z_scope.

(* ===================================================================== *)
(** * Python preliminaries *)
(* ===================================================================== *)

Abbreviation str := (list Z) (only parsing).

(** [ord] of an ASCII character, and a [str] literal. *)
Definition ord (a : ascii) : Z := Z.of_N (N_of_ascii a).

Definition pystr (s : string) : str := map ord (list_ascii_of_string s).

(** Exceptions.  A [ValueError] carries the fixed part of its message and the
    integers formatted into it. *)
Inductive exn : Type :=
| ValueError (msg : string) (args : list Z)
| IndexError
| ReError (msg : str)
| ZeroDivisionError
| OverflowError
| NoSuchObject.

Inductive result (A : Type) : Type :=
| Ok (a : A)
| Raise (e : exn).
Arguments Ok {A} a.
Arguments Raise {A} e.

Definition rbind {A B} (r : result A) (k : A -> result B) : result B :=
  match r with
  | Ok a => k a
  | Raise e => Raise e
  end.

(** The object store: the [_points] attribute of every [CodePointSet]
    instance, by address.  Addresses are never reused. *)
Abbreviation loc := nat (only parsing).
Abbreviation heap := (list (gset Z)) (only parsing).

Definition M (A : Type) : Type := heap -> result A * heap.

Definition ret {A} (a : A) : M A := fun h => (Ok a, h).

Definition raise {A} (e : exn) : M A := fun h => (Raise e, h).

Definition bind {A B} (m : M A) (k : A -> M B) : M B :=
  fun h =>
    match m h with
    | (Ok a, h') => k a h'
    | (Raise e, h') => (Raise e, h')
    end.

Definition lift {A} (r : result A) : M A := fun h => (r, h).

Declare Scope M_scope.
Delimit Scope M_scope with M.
Notation "x <- m ;; k" := (bind m (fun x => k))
  (at level 100, m at next level, right associativity) : M_scope.
Notation "m ;; k" := (bind m (fun _ => k))
  (at level 100, right associativity) : M_scope.

Declare Scope R_scope.
Delimit Scope R_scope with R.
Notation "x <- r ;; k" := (rbind r (fun x => k))
  (at level 100, r at next level, right associativity) : R_scope.

(** [for x in xs: body(x)] *)
Fixpoint for_ {A} (xs : list A) (body : A -> M unit) : M unit :=
  match xs with
  | [] => ret tt
  | x :: xs' => (body x ;; for_ xs' body)%M
  end.

(** A [for] loop that updates local variables of type [S]. *)
Fixpoint for_acc {A S} (xs : list A) (s : S) (body : S -> A -> M S) : M S :=
  match xs with
  | [] => ret s
  | x :: xs' => (s' <- body s x ;; for_acc xs' s' body)%M
  end.

(** [range(start, stop)] *)
Definition py_range (start stop : Z) : list Z := seqZ start (stop - start).

(** [sorted(s)] for a set of ints. *)
Definition sorted (s : gset Z) : list Z := merge_sort Z.le (elements s).

(** [chr(i)]: the one-character string.  CPython converts the argument
    to a C [int] first: an integer that does not fit in 32 bits raises
    [OverflowError], any other integer outside [range(0x110000)] raises
    [ValueError]. *)
Definition chr (i : Z) : result str :=
  if (0 <=? i) && (i <? 0x110000) then Ok [i]
  else if (- 2 ^ 31 <=? i) && (i <? 2 ^ 31)
  then Raise (ValueError "chr() arg not in range(0x110000)" [])
  else Raise OverflowError.

(** ** [str] methods *)

Fixpoint startswith (s prefix : str) : bool :=
  match prefix, s with
  | [], _ => true
  | p :: prefix', c :: s' => (c =? p) && startswith s' prefix'
  | _ :: _, [] => false
  end.

Definition endswith (s suffix : str) : bool :=
  startswith (rev s) (rev suffix).

(** [sub in s] *)
Fixpoint contains (s sub : str) : bool :=
  startswith s sub ||
  match s with
  | [] => false
  | _ :: s' => contains s' sub
  end.

(** Slicing [s[lo:hi]] with Python's treatment of negative and
    out-of-range bounds; [None] is an omitted bound. *)
Definition slice_index (n i : Z) : Z :=
  let i := if i <? 0 then i + n else i in
  Z.max 0 (Z.min n i).

Definition slice {A} (s : list A) (lo hi : option Z) : list A :=
  let n := Z.of_nat (length s) in
  let a := match lo with Some i => slice_index n i | None => 0 end in
  let b := match hi with Some i => slice_index n i | None => n end in
  take (Z.to_nat (b - a)) (drop (Z.to_nat a) s).

(** [s.split(sep)] for a non-empty separator: left to right, matches do
    not overlap.  [skip] counts the characters of a matched separator
    still to be passed over; [cur] is the piece being collected. *)
Fixpoint split_go (sep s : str) (skip : nat) (cur : str) : list str :=
  match s with
  | [] => [cur]
  | c :: s' =>
      match skip with
      | S k => split_go sep s' k cur
      | O =>
          if startswith s sep
          then cur :: split_go sep s' (length sep - 1)%nat []
          else split_go sep s' O (cur ++ [c])
      end
  end.

Definition split (s sep : str) : list str := split_go sep s O [].

(** [s.strip(chars)] *)
Fixpoint lstrip (s chars : str) : str :=
  match s with
  | [] => []
  | c :: s' => if bool_decide (c ∈ chars) then lstrip s' chars else s
  end.

Definition rstrip (s chars : str) : str := rev (lstrip (rev s) chars).

Definition strip (s chars : str) : str := rstrip (lstrip s chars) chars.

(** [sep.join(parts)] *)
Fixpoint join (sep : str) (parts : list str) : str :=
  match parts with
  | [] => []
  | [p] => p
  | p :: parts' => p ++ sep ++ join sep parts'
  end.

(** [re.escape] (Python 3.7 and later, as required by [setup.py]): a
    backslash before each of the characters of [_special_chars_map]. *)
Definition re_special_chars : str :=
  pystr "()[]{}?*+-|^$\.&~# " ++ [9; 10; 13; 11; 12].

Definition re_escape (s : str) : str :=
  flat_map (fun c => if bool_decide (c ∈ re_special_chars) then [ord "\"; c] else [c]) s.

(* ===================================================================== *)
(** * unicode_regex/code_point_set.py: class CodePointRange *)
(* ===================================================================== *)

Module CodePointRange.

(** A frozen dataclass: two fields, compared field by field. *)
Record t : Type := mk { start : Z; end_ : Z }.

Definition __post_init__ (self : t) : result unit :=
  if negb ((0 <=? start self) && (start self <=? end_ self)
           && (end_ self <=? 0x10FFFF))
  then Raise (ValueError
                "Invalid code point range. Code points must be between 0x0 and 0x10FFFF"
                [start self; end_ self])
  else Ok tt.

(** [CodePointRange(start, end)]: the generated [__init__] stores the
    fields and runs [__post_init__]. *)
Definition create (start end_ : Z) : result t :=
  let self := mk start end_ in
  (_ <- __post_init__ self ;; Ok self)%R.

Definition __contains__ (self : t) (code_point : Z) : bool :=
  (start self <=? code_point) && (code_point <=? end_ self).

Definition overlaps (self other : t) : bool :=
  negb ((end_ self <? start other) || (end_ other <? start self)).

Definition adjacent_to (self other : t) : bool :=
  (end_ self + 1 =? start other) || (end_ other + 1 =? start self).

Definition merge (self other : t) : result t :=
  if negb (overlaps self other || adjacent_to self other)
  then Raise (ValueError "Cannot merge non-overlapping, non-adjacent ranges" [])
  else create (Z.min (start self) (start other)) (Z.max (end_ self) (end_ other)).

End CodePointRange.

(* ===================================================================== *)
(** * unicode_regex/code_point_set.py: class CodePointSet *)
(* ===================================================================== *)

Module CodePointSet.

(** Allocation of a new instance whose [_points] is [pts]. *)
Definition alloc (pts : gset Z) : M loc :=
  fun h => (Ok (length h), h ++ [pts]).

(** [self._points] *)
Definition get_points (self : loc) : M (gset Z) :=
  fun h =>
    match h !! self with
    | Some pts => (Ok pts, h)
    | None => (Raise NoSuchObject, h)
    end.

(** [self._points = pts], and the in-place mutations of [self._points]. *)
Definition set_points (self : loc) (pts : gset Z) : M unit :=
  fun h =>
    match h !! self with
    | Some _ => (Ok tt, <[self := pts]> h)
    | None => (Raise NoSuchObject, h)
    end.

Definition add (self : loc) (code_point : Z) : M unit :=
  if negb ((0 <=? code_point) && (code_point <=? 0x10FFFF))
  then raise (ValueError "Invalid code point" [code_point])
  else (_points <- get_points self ;;
        set_points self (_points ∪ {[code_point]}))%M.

Definition __init__ (code_points : option (list Z)) : M loc :=
  (self <- alloc ∅ ;;
   match code_points with
   | Some cps => for_ cps (fun point => add self point)
   | None => ret tt
   end ;;
   ret self)%M.

Definition add_range (self : loc) (start end_ : Z) : M unit :=
  if negb ((0 <=? start) && (start <=? end_) && (end_ <=? 0x10FFFF))
  then raise (ValueError "Invalid code point range" [start; end_])
  else for_ (py_range start (end_ + 1))
         (fun point =>
            (_points <- get_points self ;;
             set_points self (_points ∪ {[point]}))%M).

Definition __invert__ (self : loc) : M loc :=
  (result <- __init__ None ;;
   _points <- get_points self ;;
   current <- for_acc (sorted _points) 0
     (fun current point =>
        ((if point >? current
          then add_range result current (point - 1)
          else ret tt) ;;
         ret (point + 1))) ;;
   (if current <=? 0x10FFFF
    then add_range result current 0x10FFFF
    else ret tt) ;;
   ret result)%M.

(** The [code_points] property: a copy of the internal set. *)
Definition code_points (self : loc) : M (gset Z) := get_points self.

Definition from_range (start end_ : Z) : M loc :=
  (result <- __init__ None ;;
   add_range result start end_ ;;
   ret result)%M.

Definition from_single (code_point : Z) : M loc :=
  from_range code_point code_point.

Definition from_string (text : str) : M loc :=
  (result <- __init__ None ;;
   for_ text (fun char => add result char) ;;
   ret result)%M.

Definition remove (self : loc) (code_point : Z) : M unit :=
  (_points <- get_points self ;;
   set_points self (_points ∖ {[code_point]}))%M.

Definition remove_range (self : loc) (start end_ : Z) : M unit :=
  for_ (py_range start (end_ + 1))
    (fun point =>
       (_points <- get_points self ;;
        set_points self (_points ∖ {[point]}))%M).

Definition __contains__ (self : loc) (code_point : Z) : M bool :=
  (_points <- get_points self ;;
   ret (bool_decide (code_point ∈ _points)))%M.

Definition __iter__ (self : loc) : M (list Z) :=
  (_points <- get_points self ;;
   ret (sorted _points))%M.

Definition __len__ (self : loc) : M Z :=
  (_points <- get_points self ;;
   ret (Z.of_nat (size _points)))%M.

Definition __or__ (self other : loc) : M loc :=
  (result <- __init__ None ;;
   a <- get_points self ;;
   b <- get_points other ;;
   set_points result (a ∪ b) ;;
   ret result)%M.

Definition __and__ (self other : loc) : M loc :=
  (result <- __init__ None ;;
   a <- get_points self ;;
   b <- get_points other ;;
   set_points result (a ∩ b) ;;
   ret result)%M.

Definition __sub__ (self other : loc) : M loc :=
  (result <- __init__ None ;;
   a <- get_points self ;;
   b <- get_points other ;;
   set_points result (a ∖ b) ;;
   ret result)%M.

Definition __bool__ (self : loc) : M bool :=
  (_points <- get_points self ;;
   ret (negb (bool_decide (_points = ∅))))%M.

Definition copy (self : loc) : M loc :=
  (result <- __init__ None ;;
   _points <- get_points self ;;
   set_points result _points ;;
   ret result)%M.

(** The class defines neither [__eq__] nor [__hash__]: [a == b] is the
    comparison inherited from [object], which is identity. *)
Definition __eq__ (self other : loc) : bool := bool_decide (self = other).

(** The loop of [get_ranges] over [points[1:]], with the local variables
    [start] and [end]; every [yield] is an element of the result. *)
Fixpoint get_ranges_loop (start end_ : Z) (points : list Z) : list (Z * Z) :=
  match points with
  | [] => [(start, end_)]
  | point :: points' =>
      if point =? end_ + 1
      then get_ranges_loop start point points'
      else (start, end_) :: get_ranges_loop point point points'
  end.

(** [get_ranges] is a generator; the list is what iterating it to
    exhaustion yields.  [points[0]] raises [IndexError] on an empty list. *)
Definition get_ranges (self : loc) : M (list (Z * Z)) :=
  (_points <- get_points self ;;
   if bool_decide (_points = ∅) then ret []
   else match sorted _points with
        | [] => raise IndexError
        | p0 :: points' => ret (get_ranges_loop p0 p0 points')
        end)%M.

End CodePointSet.

(* ===================================================================== *)
(** * unicode_regex/optimizer.py: class Optimizer *)
(* ===================================================================== *)

(** Values stored in the dictionary returned by [benchmark_pattern]. *)
Inductive pyvalue (float : Type) : Type :=
| VInt (n : Z)
| VFloat (x : float)
| VStr (s : str).
Arguments VInt {float} n.
Arguments VFloat {float} x.
Arguments VStr {float} s.

Module Optimizer.

(** The loop of [compress_ranges] over [points[1:]], with the local
    variables [start], [prev] and [ranges]. *)
Fixpoint compress_ranges_loop (start prev : Z) (points : list Z)
    (ranges : list (Z * Z)) : list (Z * Z) :=
  match points with
  | [] => ranges ++ [(start, prev)]
  | point :: points' =>
      if negb (point =? prev + 1)
      then compress_ranges_loop point point points' (ranges ++ [(start, prev)])
      else compress_ranges_loop start point points' ranges
  end.

(** [compress_ranges] takes a set or a list; the argument is the list of
    the elements given (without repetition for a set). *)
Definition compress_ranges (code_points : list Z) : result (list (Z * Z)) :=
  if bool_decide (code_points = []) then Ok []
  else
    match merge_sort Z.le code_points with
    | [] => Raise IndexError
    | start :: points' => Ok (compress_ranges_loop start start points' [])
    end.

(** Remove unnecessary character classes. *)
Definition unwrap_class (pattern : str) : option str :=
  if startswith pattern (pystr "[") && endswith pattern (pystr "]") then
    let content := slice pattern (Some 1) (Some (-1)) in
    if (length content =? 1)%nat && negb (startswith content (pystr "\"))
    then Some content
    else None
  else None.

(** Remove unnecessary non-capturing groups. *)
Definition unwrap_group (pattern : str) : option str :=
  if startswith pattern (pystr "(?:") && endswith pattern (pystr ")") then
    let content := slice pattern (Some 3) (Some (-1)) in
    if negb (contains content (pystr "|"))
    then Some content
    else None
  else None.

(** Combine adjacent character classes. *)
Definition combine_classes (pattern : str) : option str :=
  if contains pattern (pystr "][") then
    let parts := split pattern (pystr "][") in
    if forallb (fun p => startswith p (pystr "[")) (slice parts (Some 1) None)
       && forallb (fun p => endswith p (pystr "]")) (slice parts None (Some (-1)))
    then
      let combined := join [] (map (fun p => strip p (pystr "[]")) parts) in
      Some (pystr "[" ++ combined ++ pystr "]")
    else None
  else None.

(** The three rewrites are tried in order; each one returns at once. *)
Definition minimize_pattern (pattern : str) : str :=
  if bool_decide (pattern = []) then pattern
  else
    match unwrap_class pattern with
    | Some content => content
    | None =>
        match unwrap_group pattern with
        | Some content => content
        | None =>
            match combine_classes pattern with
            | Some combined => combined
            | None => pattern
            end
        end
    end.

(** The loop of [optimize_readability]: [i] is the index of the next
    character, [rest] the characters from [i] on. *)
Fixpoint readability_loop (pattern : str) (i : Z) (rest : str)
    (in_class : bool) (result : str) : str :=
  match rest with
  | [] => result
  | c :: rest' =>
      if c =? ord "[" then
        readability_loop pattern (i + 1) rest' true (result ++ [c])
      else if c =? ord "]" then
        readability_loop pattern (i + 1) rest' false (result ++ [c])
      else if (c =? ord "|") && negb in_class then
        let result :=
          if (i >? 0) && negb (bool_decide (pattern !! Z.to_nat (i - 1) = Some (ord " ")))
          then result ++ [ord " "] else result in
        let result := result ++ [c] in
        let result :=
          if (i <? Z.of_nat (length pattern) - 1)
             && negb (bool_decide (pattern !! Z.to_nat (i + 1) = Some (ord " ")))
          then result ++ [ord " "] else result in
        readability_loop pattern (i + 1) rest' in_class result
      else
        readability_loop pattern (i + 1) rest' in_class (result ++ [c])
  end.

Definition optimize_readability (pattern : str) : str :=
  if bool_decide (pattern = []) then pattern
  else readability_loop pattern 0 pattern false [].

Definition optimize_pattern (pattern prioritize : str) : result str :=
  if negb (bool_decide (prioritize ∈ [pystr "size"; pystr "readability"]))
  then Raise (ValueError "Priority must be 'size' or 'readability'" [])
  else
    let result := minimize_pattern pattern in
    let result :=
      if bool_decide (prioritize = pystr "readability")
      then optimize_readability result
      else result in
    Ok result.

Definition optimize (pattern : str) : str :=
  if bool_decide (pattern = []) then pattern
  else
    let pattern := minimize_pattern pattern in
    let pattern := optimize_readability pattern in
    pattern.

(** [benchmark_pattern] depends on the host: the [re] engine and the
    clock.  [re_compile] is [re.compile]; it raises [ReError] (Python's
    [re.error]) on a pattern it rejects.  [start_time] and [end_time] are
    the two readings of [time.time()], and [mean] computes
    [(end_time - start_time) / iterations] on floats for a non-zero
    divisor.  The matching loop between the two readings has no other
    effect. *)
Section Benchmark.

Context {regex float : Type}.
Variable re_compile : str -> result regex.
Variable mean : float -> float -> Z -> float.

Definition benchmark_pattern (start_time end_time : float)
    (pattern test_string : str) (iterations : Z)
    : result (list (string * pyvalue float)) :=
  match re_compile pattern with
  | Ok regex =>
      let compile_size := Z.of_nat (length pattern) in
      if iterations =? 0 then Raise ZeroDivisionError
      else
        let match_time := mean end_time start_time iterations in
        Ok [("pattern_size"%string, VInt compile_size);
            ("avg_match_time"%string, VFloat match_time);
            ("iterations"%string, VInt iterations)]
  | Raise (ReError e) =>
      Ok [("error"%string, VStr e);
          ("pattern_size"%string, VInt (Z.of_nat (length pattern)));
          ("iterations"%string, VInt 0)]
  | Raise e => Raise e
  end.

End Benchmark.

End Optimizer.

(* ===================================================================== *)
(** * unicode_regex/regex_generator.py: class RegexGenerator *)
(* ===================================================================== *)

(** Format specs [{n:04x}] and [{n:08x}]: lower-case hexadecimal,
    zero-padded to [width] characters, the sign counted in the width. *)
Definition hex_digit (d : Z) : Z :=
  if d <? 10 then ord "0" + d else ord "a" + (d - 10).

Fixpoint hex_digits (fuel : nat) (n : Z) (acc : str) : str :=
  match fuel with
  | O => acc
  | S fuel' =>
      let acc := hex_digit (n mod 16) :: acc in
      if n / 16 =? 0 then acc else hex_digits fuel' (n / 16) acc
  end.

Definition zero_pad (width : nat) (digits : str) : str :=
  replicate (width - length digits) (ord "0") ++ digits.

Definition format_hex (width : nat) (n : Z) : str :=
  if n <? 0
  then ord "-" :: zero_pad (width - 1) (hex_digits (S (Z.to_nat (Z.log2 (- n)))) (- n) [])
  else zero_pad width (hex_digits (S (Z.to_nat (Z.log2 n))) n []).

Module RegexGenerator.

(** The argument of [generate_pattern]: a built-in [set] of ints or a
    [CodePointSet] instance. *)
Inductive code_points_arg : Type :=
| Builtin (s : gset Z)
| Instance (self : loc).

(** [bool(code_points)], [frozenset(code_points)], [sorted(code_points)]:
    for an instance through [__bool__] and [__iter__]. *)
Definition truth (code_points : code_points_arg) : M bool :=
  match code_points with
  | Builtin s => ret (negb (bool_decide (s = ∅)))
  | Instance self => CodePointSet.__bool__ self
  end.

Definition frozenset (code_points : code_points_arg) : M (gset Z) :=
  match code_points with
  | Builtin s => ret s
  | Instance self => (points <- CodePointSet.__iter__ self ;; ret (list_to_set points))%M
  end.

Definition sorted_arg (code_points : code_points_arg) : M (list Z) :=
  match code_points with
  | Builtin s => ret (sorted s)
  | Instance self => CodePointSet.__iter__ self
  end.

(** [code_points == common_set], where [common_set] is a [CodePointSet]
    instance.  Between instances it is [CodePointSet.__eq__]; a built-in
    set does not know the class, both sides answer [NotImplemented], and
    the comparison of two distinct objects is [False]. *)
Definition eq_common (code_points : code_points_arg) (common_set : loc) : bool :=
  match code_points with
  | Builtin _ => false
  | Instance self => CodePointSet.__eq__ self common_set
  end.

(** [frozenset('.^$*+?{}[]\\|()-')]: a set of one-character strings. *)
Definition SPECIAL_CHARS : list str :=
  map (fun c => [c]) (pystr ".^$*+?{}[]\|()-").

(** The class attribute [COMMON_RANGES], built when the class body is
    executed: the three sets are allocated in this order. *)
Definition COMMON_RANGES_init : M (list (str * loc)) :=
  (d <- CodePointSet.__init__ (Some (py_range 0x0030 0x003A)) ;;
   w <- CodePointSet.__init__
          (Some (py_range 0x0030 0x003A ++ py_range 0x0041 0x005B
                 ++ py_range 0x0061 0x007B ++ [0x005F])) ;;
   s <- CodePointSet.__init__ (Some [0x0020; 0x0009; 0x000A; 0x000B; 0x000C; 0x000D]) ;;
   ret [(pystr "\d", d); (pystr "\w", w); (pystr "\s", s)])%M.

(** An instance: the class attribute it sees and its pattern cache (the
    [optimizer] attribute is not read by the methods below). *)
Record t : Type := mk {
  COMMON_RANGES : list (str * loc);
  _pattern_cache : gmap (gset Z * str) str
}.

Definition __init__ (common_ranges : list (str * loc)) : t :=
  {| COMMON_RANGES := common_ranges; _pattern_cache := ∅ |}.

Definition cache_store (self : t) (key : gset Z * str) (pattern : str) : t :=
  {| COMMON_RANGES := COMMON_RANGES self;
     _pattern_cache := <[key := pattern]> (_pattern_cache self) |}.

Definition _escape_char (char : str) : str :=
  if bool_decide (char ∈ SPECIAL_CHARS) then pystr "\" ++ char else char.

Definition _format_code_point (cp : Z) (use_hex : bool) : result str :=
  if (cp <? 128) && negb use_hex then
    (char <- chr cp ;; Ok (_escape_char char))%R
  else if cp <=? 0xFFFF then
    Ok (pystr "\u" ++ format_hex 4 cp)
  else
    Ok (pystr "\U" ++ format_hex 8 cp).

Definition _needs_escape (char : str) : bool :=
  contains (pystr ".^$*+?{}[]\|()") char.

(** [re.escape(char) if self._needs_escape(char) else char] *)
Definition escaped (char : str) : str :=
  if _needs_escape char then re_escape char else char.

Fixpoint _get_ranges_loop (start prev : Z) (points : list Z)
    (ranges : list (Z * Z)) : list (Z * Z) :=
  match points with
  | [] => ranges ++ [(start, prev)]
  | point :: points' =>
      if negb (point =? prev + 1)
      then _get_ranges_loop point point points' (ranges ++ [(start, prev)])
      else _get_ranges_loop start point points' ranges
  end.

Definition _get_ranges (code_points : code_points_arg) : M (list (Z * Z)) :=
  (nonempty <- truth code_points ;;
   if negb nonempty then ret []
   else
     points <- sorted_arg code_points ;;
     match points with
     | [] => raise IndexError
     | start :: points' => ret (_get_ranges_loop start start points' [])
     end)%M.

(** The loop of [_ranges_to_pattern] building [patterns]. *)
Fixpoint range_patterns (ranges : list (Z * Z)) (prioritize : str)
    (patterns : list str) : result (list str) :=
  match ranges with
  | [] => Ok patterns
  | (start, end_) :: ranges' =>
      if start =? end_ then
        (char <- chr start ;;
         range_patterns ranges' prioritize (patterns ++ [escaped char]))%R
      else
        (start_char <- chr start ;;
         end_char <- chr end_ ;;
         let start_char := escaped start_char in
         let end_char := escaped end_char in
         if bool_decide (prioritize = pystr "readability")
         then range_patterns ranges' prioritize
                (patterns ++ [start_char ++ pystr " - " ++ end_char])
         else range_patterns ranges' prioritize
                (patterns ++ [start_char ++ pystr "-" ++ end_char]))%R
  end.

Definition _ranges_to_pattern (ranges : list (Z * Z)) (prioritize : str)
    : result str :=
  match ranges with
  | [] => Ok (pystr "[]")
  | r0 :: _ =>
      if (length ranges =? 1)%nat && (fst r0 =? snd r0) then
        let point := fst r0 in
        (char <- chr point ;; Ok (escaped char))%R
      else
        (patterns <- range_patterns ranges prioritize [] ;;
         match patterns with
         | [p] => Ok (pystr "[" ++ p ++ pystr "]")
         | _ =>
             if bool_decide (prioritize = pystr "readability")
             then Ok (pystr "[" ++ join (pystr " | ") patterns ++ pystr "]")
             else Ok (pystr "[" ++ join [] patterns ++ pystr "]")
         end)%R
  end.

(** The loop over [COMMON_RANGES.items()]: the first entry equal to
    [code_points], if any. *)
Fixpoint find_common (items : list (str * loc)) (code_points : code_points_arg)
    : option str :=
  match items with
  | [] => None
  | (pattern, common_set) :: items' =>
      if eq_common code_points common_set then Some pattern
      else find_common items' code_points
  end.

(** [generate_pattern] returns the pattern and the instance with its
    updated cache. *)
Definition generate_pattern (self : t) (code_points : code_points_arg)
    (prioritize : str) : M (str * t) :=
  (nonempty <- truth code_points ;;
   if negb nonempty then ret (pystr "[]", self)
   else
     key_points <- frozenset code_points ;;
     let cache_key := (key_points, prioritize) in
     match _pattern_cache self !! cache_key with
     | Some cached => ret (cached, self)
     | None =>
         match find_common (COMMON_RANGES self) code_points with
         | Some pattern => ret (pattern, cache_store self cache_key pattern)
         | None =>
             ranges <- _get_ranges code_points ;;
             pattern <- lift (_ranges_to_pattern ranges prioritize) ;;
             ret (pattern, cache_store self cache_key pattern)
         end
     end)%M.

Definition generate_range_pattern (start end_ : Z) : result str :=
  if start >? end_ then Raise (ValueError "Invalid range" [start; end_])
  else _ranges_to_pattern [(start, end_)] (pystr "size").

Definition generate_alternation_pattern (patterns : list str) (prioritize : str)
    : str :=
  match patterns with
  | [] => pystr "[]"
  | [p] => p
  | _ =>
      if bool_decide (prioritize = pystr "readability")
      then pystr "(?:" ++ join (pystr " | ") patterns ++ pystr ")"
      else join (pystr "|") patterns
  end.

Definition generate_category_pattern (category : str) : str :=
  pystr "\p{" ++ category ++ pystr "}".

Definition generate_property_pattern (property_name property_value : str) : str :=
  pystr "\p{" ++ property_name ++ pystr "=" ++ property_value ++ pystr "}".

End RegexGenerator.

(* ===================================================================== *)
(** * regen/regex_generator.py: class RegexGenerator *)
(* ===================================================================== *)

Module Regen.

Definition create_alternation (patterns : list str) : str :=
  match patterns with
  | [] => []
  | [p] => re_escape p
  | _ => pystr "(?:" ++ join (pystr "|") (map re_escape patterns) ++ pystr ")"
  end.

(** [while not s.startswith(prefix): prefix = prefix[:-1]; if not prefix: break].
    Every iteration removes one character, so [length prefix] iterations
    are enough. *)
Fixpoint shrink_prefix (fuel : nat) (s prefix : str) : str :=
  match fuel with
  | O => prefix
  | S fuel' =>
      if negb (startswith s prefix) then
        let prefix := slice prefix None (Some (-1)) in
        if bool_decide (prefix = []) then prefix
        else shrink_prefix fuel' s prefix
      else prefix
  end.

Definition common_prefix (first : str) (rest : list str) : str :=
  fold_left (fun prefix s => shrink_prefix (length prefix) s prefix) rest first.

Section Digits.

(** [str.isdigit] on one character: the ASCII digits, and above ASCII
    whatever the interpreter's Unicode database says. *)
Variable unicode_isdigit : Z -> bool.

Definition isdigit (c : Z) : bool :=
  if c <? 128 then (ord "0" <=? c) && (c <=? ord "9") else unicode_isdigit c.

(** The loop collecting [numeric_positions] for [i] in [range(n)]. *)
Fixpoint numeric_positions_loop (suffixes : list str) (indices : list nat)
    (numeric_positions : list (nat * list Z)) : result (list (nat * list Z)) :=
  match indices with
  | [] => Ok numeric_positions
  | i :: indices' =>
      match mapM (fun s : str => s !! i) suffixes with
      | None => Raise IndexError
      | Some column =>
          let chars : gset Z := list_to_set column in
          if forallb isdigit (elements chars)
          then numeric_positions_loop suffixes indices'
                 (numeric_positions ++ [(i, sorted chars)])
          else numeric_positions_loop suffixes indices' numeric_positions
      end
  end.

(** The loop assembling [result] from [numeric_positions], with the
    local variables [result] and [pos]. *)
Fixpoint assemble (suffix0 : str) (numeric_positions : list (nat * list Z))
    (result : str) (pos : nat) : str * nat :=
  match numeric_positions with
  | [] => (result, pos)
  | (i, chars) :: rest =>
      let result :=
        if (pos <? i)%nat
        then result ++ re_escape (slice suffix0 (Some (Z.of_nat pos)) (Some (Z.of_nat i)))
        else result in
      let result := result ++ pystr "[" ++ join [] (map (fun c => [c]) chars) ++ pystr "]" in
      assemble suffix0 rest result (i + 1)%nat
  end.

Definition create_optimized_pattern (strings : list str) : result str :=
  match strings with
  | [] => Ok []
  | [s] => Ok (re_escape s)
  | first :: rest =>
      let prefix := common_prefix first rest in
      let fallback := Ok (create_alternation strings) in
      if negb (bool_decide (prefix = [])) then
        let suffixes :=
          map (fun s => slice s (Some (Z.of_nat (length prefix))) None) strings in
        match suffixes with
        | [] => Raise IndexError
        | suffix0 :: _ =>
            if forallb (fun s => (length s =? length suffix0)%nat) suffixes then
              (numeric_positions <-
                 numeric_positions_loop suffixes (seq 0 (length suffix0)) [] ;;
               match numeric_positions with
               | [] => fallback
               | _ =>
                   let '(result, pos) :=
                     assemble suffix0 numeric_positions (re_escape prefix) 0%nat in
                   let result :=
                     if (pos <? length suffix0)%nat
                     then result ++ re_escape (slice suffix0 (Some (Z.of_nat pos)) None)
                     else result in
                   Ok result
               end)%R
            else fallback
        end
      else fallback
  end.

End Digits.

End Regen.

(* ===================================================================== *)
(** * Vocabulary of the properties *)
(* ===================================================================== *)

(** A set of valid code points, and a store all of whose objects are. *)
Definition valid_points (pts : gset Z) : Prop :=
  forall p, p ∈ pts -> 0 <= p <= 0x10FFFF.

Definition heap_valid (h : heap) : Prop :=
  forall self pts, h !! self = Some pts -> valid_points pts.

(** [keeps_valid m Q]: from a valid store, [m] ends in a valid store,
    whether it returns or raises, and a returned value satisfies [Q]. *)
Definition keeps_valid {A} (m : M A) (Q : A -> Prop) : Prop :=
  forall h, heap_valid h ->
    heap_valid (snd (m h)) /\ forall a, fst (m h) = Ok a -> Q a.

(** A call of a public operation of [CodePointSet]. *)
Inductive call : Type :=
| Call_init (code_points : option (list Z))
| Call_from_range (start end_ : Z)
| Call_from_single (code_point : Z)
| Call_from_string (text : str)
| Call_add (self : loc) (code_point : Z)
| Call_add_range (self : loc) (start end_ : Z)
| Call_remove (self : loc) (code_point : Z)
| Call_remove_range (self : loc) (start end_ : Z)
| Call_or (self other : loc)
| Call_and (self other : loc)
| Call_sub (self other : loc)
| Call_invert (self : loc)
| Call_copy (self : loc).

(** The store after a call, whether it returned or raised. *)
Definition exec (h : heap) (c : call) : heap :=
  match c with
  | Call_init code_points => snd (CodePointSet.__init__ code_points h)
  | Call_from_range start end_ => snd (CodePointSet.from_range start end_ h)
  | Call_from_single code_point => snd (CodePointSet.from_single code_point h)
  | Call_from_string text => snd (CodePointSet.from_string text h)
  | Call_add self code_point => snd (CodePointSet.add self code_point h)
  | Call_add_range self start end_ => snd (CodePointSet.add_range self start end_ h)
  | Call_remove self code_point => snd (CodePointSet.remove self code_point h)
  | Call_remove_range self start end_ => snd (CodePointSet.remove_range self start end_ h)
  | Call_or self other => snd (CodePointSet.__or__ self other h)
  | Call_and self other => snd (CodePointSet.__and__ self other h)
  | Call_sub self other => snd (CodePointSet.__sub__ self other h)
  | Call_invert self => snd (CodePointSet.__invert__ self h)
  | Call_copy self => snd (CodePointSet.copy self h)
  end.

(** The store reached from the empty one by a sequence of calls. *)
Definition run_calls (calls : list call) : heap := fold_left exec calls [].

(** Points covered by a list of inclusive ranges. *)
Definition flatten (ranges : list (Z * Z)) : gset Z :=
  list_to_set (flat_map (fun r => py_range (fst r) (snd r + 1)) ranges).

(** Consecutive ranges leave a gap of at least one point. *)
Definition separated (r1 r2 : Z * Z) : Prop := snd r1 + 1 < fst r2.

(** Sum of the lengths of a list of strings. *)
Definition total_length (parts : list str) : nat :=
  fold_right (fun p n => (length p + n)%nat) O parts.

(** The digit set of [test_common_ranges], given to a fresh generator
    right after the class attribute has been built. *)
Definition digits_scenario : M str :=
  (common <- RegexGenerator.COMMON_RANGES_init ;;
   digits <- CodePointSet.__init__ None ;;
   CodePointSet.add_range digits 0x0030 0x0039 ;;
   r <- RegexGenerator.generate_pattern (RegexGenerator.__init__ common)
          (RegexGenerator.Instance digits) (pystr "size") ;;
   ret (fst r))%M.

(** The same call with the object stored in [COMMON_RANGES] itself. *)
Definition shared_digits_scenario : M str :=
  (common <- RegexGenerator.COMMON_RANGES_init ;;
   match common with
   | (_, d) :: _ =>
       r <- RegexGenerator.generate_pattern (RegexGenerator.__init__ common)
              (RegexGenerator.Instance d) (pystr "size") ;;
       ret (fst r)
   | [] => raise IndexError
   end)%M.

(** Two instances built from the same points: the result of [a == b] and
    whether their memberships coincide. *)
Definition twin_scenario (points : list Z) : M (bool * bool) :=
  (a <- CodePointSet.__init__ (Some points) ;;
   b <- CodePointSet.__init__ (Some points) ;;
   pa <- CodePointSet.code_points a ;;
   pb <- CodePointSet.code_points b ;;
   ret (CodePointSet.__eq__ a b, bool_decide (pa = pb)))%M.

(** [generate_pattern] of a fresh generator on a built-in set. *)
Definition generate_fresh (points : gset Z) (prioritize : str) : result str :=
  fst ((common <- RegexGenerator.COMMON_RANGES_init ;;
        r <- RegexGenerator.generate_pattern (RegexGenerator.__init__ common)
               (RegexGenerator.Builtin points) prioritize ;;
        ret (fst r))%M []).

(** A toy [re.compile] that rejects exactly the pattern ['[']. *)
Definition toy_compile (pattern : str) : result unit :=
  if bool_decide (pattern = pystr "[")
  then Raise (ReError (pystr "unterminated character set at position 0"))
  else Ok tt.

(** A host engine known on two patterns: [re.compile] rejects ['['] with
    [re.error], and a repetition count of [2**32] with [OverflowError]
    ("the repetition number is too large"), which is no [re.error]. *)
Definition sample_compile (pattern : str) : result unit :=
  if bool_decide (pattern = pystr "[")
  then Raise (ReError (pystr "unterminated character set at position 0"))
  else if bool_decide (pattern = pystr "a{4294967296}")
  then Raise OverflowError
  else Ok tt.

(** The store and the class attribute [COMMON_RANGES] once the class body
    of [RegexGenerator] has run on an empty store. *)
Definition class_store : heap := snd (RegexGenerator.COMMON_RANGES_init []).

Definition class_common_ranges : list (str * loc) :=
  match fst (RegexGenerator.COMMON_RANGES_init []) with
  | Ok common => common
  | Raise _ => []
  end.

(** A lower-case hexadecimal digit. *)
Definition is_hex_digit (c : Z) : bool :=
  (ord "0" <=? c) && (c <=? ord "9") || (ord "a" <=? c) && (c <=? ord "f").

(** The value of a string of lower-case hexadecimal digits. *)
Definition hex_digit_value (c : Z) : Z :=
  if (ord "0" <=? c) && (c <=? ord "9") then c - ord "0" else c - ord "a" + 10.

Definition hex_value (digits : str) : Z :=
  fold_left (fun acc c => acc * 16 + hex_digit_value c) digits 0.

(** [prefix] is an initial segment of [s]. *)
Definition is_prefix (prefix s : str) : Prop := startswith s prefix = true.

(** The points strictly between consecutive elements of an ascending
    list, starting at [current]; and the value of [current] after the
    loop of [__invert__]. *)
Fixpoint gaps (current : Z) (points : list Z) : gset Z :=
  match points with
  | [] => ∅
  | point :: points' =>
      list_to_set (py_range current point) ∪ gaps (point + 1) points'
  end.

Fixpoint last_current (current : Z) (points : list Z) : Z :=
  match points with
  | [] => current
  | point :: points' => last_current (point + 1) points'
  end.

(** A pattern with its space characters taken out. *)
Definition without_spaces (s : str) : str :=
  List.filter (fun c => negb (c =? ord " ")) s.

(** [spaces_added s t]: [t] is [s] with space characters inserted, and
    nothing else changed. *)
Inductive spaces_added : str -> str -> Prop :=
| spaces_added_nil : spaces_added [] []
| spaces_added_keep (c : Z) (s t : str) :
    spaces_added s t -> spaces_added (c :: s) (c :: t)
| spaces_added_space (s t : str) :
    spaces_added s t -> spaces_added s (ord " " :: t).

(** What the loop of [optimize_readability] appends from a position on,
    told from the character before it ([None] at index 0) and the
    characters from it on: the two lookups [pattern[i-1]] and
    [pattern[i+1]] see nothing else. *)
Definition quiet (prev : option Z) : bool :=
  match prev with
  | Some p => p =? ord " "
  | None => true
  end.

Fixpoint spaced (prev : option Z) (rest : str) (in_class : bool) : str :=
  match rest with
  | [] => []
  | c :: rest' =>
      if c =? ord "[" then c :: spaced (Some c) rest' true
      else if c =? ord "]" then c :: spaced (Some c) rest' false
      else if (c =? ord "|") && negb in_class then
        (if quiet prev then [] else [ord " "])
        ++ [c]
        ++ (if quiet (head rest') then [] else [ord " "])
        ++ spaced (Some c) rest' in_class
      else c :: spaced (Some c) rest' in_class
  end.

(* ===================================================================== *)
(** * Properties of the [str] operations *)
(* ===================================================================== *)

Lemma slice_length_le {A} (s : list A) lo hi :
  (length (slice s lo hi) <= length s)%nat.
Proof.
  unfold slice. rewrite length_take, length_drop. lia.
Qed.

Lemma slice_from_length_lt {A} (s : list A) (k : Z) hi :
  0 < k -> s <> [] -> (length (slice s (Some k) hi) < length s)%nat.
Proof.
  intros Hk Hs. unfold slice, slice_index.
  rewrite length_take, length_drop.
  assert (0 < length s)%nat by (destruct s; [congruence | simpl; lia]).
  destruct (k <? 0) eqn:E; [apply Z.ltb_lt in E; lia |].
  lia.
Qed.

Lemma total_length_app (l1 l2 : list str) :
  total_length (l1 ++ l2) = (total_length l1 + total_length l2)%nat.
Proof.
  induction l1 as [| p l1 IH]; simpl; [reflexivity | rewrite IH; lia].
Qed.

Lemma join_nil_length (parts : list str) :
  length (join [] parts) = total_length parts.
Proof.
  induction parts as [| p [| q parts] IH]; simpl in *.
  - reflexivity.
  - lia.
  - rewrite length_app. rewrite IH. reflexivity.
Qed.

Lemma startswith_length (s prefix : str) :
  startswith s prefix = true -> (length prefix <= length s)%nat.
Proof.
  revert s. induction prefix as [| p prefix IH]; intros s H; simpl; [lia |].
  destruct s as [| c s]; simpl in H; [discriminate |].
  apply andb_true_iff in H as [_ H]. apply IH in H. simpl. lia.
Qed.

Lemma startswith_nil (s : str) : startswith s [] = true.
Proof. destruct s; reflexivity. Qed.

(** ** [split] and [strip] *)

Lemma split_go_total (sep s : str) (skip : nat) (cur : str) :
  (skip <= length s)%nat ->
  (total_length (split_go sep s skip cur)
   + length sep * (length (split_go sep s skip cur) - 1) + skip
   <= length cur + length s)%nat.
Proof.
  revert skip cur. induction s as [| c s IH]; intros skip cur Hskip.
  - simpl in *. lia.
  - cbn [split_go]. destruct skip as [| k].
    + destruct (startswith (c :: s) sep) eqn:E.
      * apply startswith_length in E. cbn [length] in E.
        specialize (IH (length sep - 1)%nat [] ltac:(lia)).
        cbn [total_length fold_right length] in *.
        fold (total_length (split_go sep s (length sep - 1) [])).
        fold (total_length (split_go sep s (length sep - 1) [])) in IH.
        destruct (split_go sep s (length sep - 1) []) as [| q qs] eqn:Q.
        { simpl in *. lia. }
        cbn [length] in *. nia.
      * specialize (IH O (cur ++ [c]) ltac:(lia)).
        rewrite length_app in IH. cbn [length] in *. lia.
    + cbn [length] in Hskip. specialize (IH k cur ltac:(lia)).
      cbn [length]. lia.
Qed.

Lemma split_go_nonempty (sep s : str) skip cur : split_go sep s skip cur <> [].
Proof.
  revert skip cur. induction s as [| c s IH]; intros skip cur; cbn [split_go]; [done |].
  destruct skip; [| apply IH].
  destruct (startswith (c :: s) sep); [done | apply IH].
Qed.

Lemma split_go_two (sep s cur : str) :
  sep <> [] -> contains s sep = true -> (2 <= length (split_go sep s O cur))%nat.
Proof.
  intros Hsep. revert cur. induction s as [| c s IH]; intros cur H.
  - destruct sep; [done | discriminate].
  - cbn [contains] in H. cbn [split_go].
    destruct (startswith (c :: s) sep) eqn:E.
    + pose proof (split_go_nonempty sep s (length sep - 1) []) as Hne.
      destruct (split_go sep s (length sep - 1) []); [done | simpl; lia].
    + simpl in H. apply IH. exact H.
Qed.

Lemma lstrip_length_le (s chars : str) : (length (lstrip s chars) <= length s)%nat.
Proof.
  induction s as [| c s IH]; simpl; [lia |].
  case_bool_decide; simpl; lia.
Qed.

Lemma rstrip_length_le (s chars : str) : (length (rstrip s chars) <= length s)%nat.
Proof.
  unfold rstrip. rewrite length_rev.
  pose proof (lstrip_length_le (rev s) chars) as H. rewrite length_rev in H. exact H.
Qed.

Lemma strip_length_le (s chars : str) : (length (strip s chars) <= length s)%nat.
Proof.
  unfold strip. pose proof (rstrip_length_le (lstrip s chars) chars).
  pose proof (lstrip_length_le s chars). lia.
Qed.

Lemma lstrip_suffix (s chars : str) : exists front, s = front ++ lstrip s chars.
Proof.
  induction s as [| c s [front IH]]; simpl.
  - exists []. reflexivity.
  - case_bool_decide.
    + exists (c :: front). simpl. congruence.
    + exists []. reflexivity.
Qed.

Lemma strip_starts_lt (s chars : str) (c : Z) :
  c ∈ chars -> startswith s [c] = true -> (length (strip s chars) < length s)%nat.
Proof.
  intros Hc H. destruct s as [| d s]; [discriminate |].
  simpl in H. rewrite startswith_nil, andb_true_r in H. apply Z.eqb_eq in H. subst d.
  unfold strip. pose proof (rstrip_length_le (lstrip (c :: s) chars) chars) as L.
  simpl in *. rewrite bool_decide_eq_true_2 in * by exact Hc.
  pose proof (lstrip_length_le s chars). lia.
Qed.

Lemma rev_cons_inv (s t : str) (c : Z) : rev s = c :: t -> s = rev t ++ [c].
Proof.
  intros H. rewrite <- (rev_involutive s), H. reflexivity.
Qed.

Lemma strip_ends_lt (s chars : str) (c : Z) :
  c ∈ chars -> endswith s [c] = true -> (length (strip s chars) < length s)%nat.
Proof.
  intros Hc H. unfold endswith in H. simpl in H.
  destruct (rev s) as [| d t] eqn:R; [discriminate |].
  simpl in H. rewrite startswith_nil, andb_true_r in H. apply Z.eqb_eq in H. subst d.
  apply rev_cons_inv in R.
  destruct (lstrip_suffix s chars) as [front Hfront].
  unfold strip, rstrip. rewrite length_rev.
  destruct (rev (lstrip s chars)) as [| x xs] eqn:X.
  - simpl. subst s. rewrite length_app. simpl. lia.
  - apply rev_cons_inv in X. rewrite X in Hfront.
    assert (x = c) as ->.
    { rewrite R in Hfront. rewrite (app_assoc front) in Hfront.
      apply app_inj_tail in Hfront. symmetry. apply Hfront. }
    simpl. rewrite bool_decide_eq_true_2 by exact Hc.
    pose proof (lstrip_length_le xs chars) as L.
    rewrite Hfront. rewrite !length_app, length_rev. simpl. lia.
Qed.

Lemma slice_tail {A} (x : A) (t : list A) : slice (x :: t) (Some 1) None = t.
Proof.
  unfold slice, slice_index. cbv zeta. cbn [length].
  change (1 <? 0) with false. cbv iota.
  replace (Z.to_nat (Z.max 0 (Z.min (Z.of_nat (S (length t))) 1))) with 1%nat by lia.
  simpl drop. apply take_ge. lia.
Qed.

Lemma slice_init_head {A} (x : A) (t : list A) :
  t <> [] -> exists t', slice (x :: t) None (Some (-1)) = x :: t'.
Proof.
  intros Ht. unfold slice, slice_index. cbv zeta. cbn [length].
  change (-1 <? 0) with true. cbv iota.
  assert (0 < length t)%nat by (destruct t; [done | simpl; lia]).
  replace (Z.to_nat _) with (S (length t - 1)) by lia.
  simpl. eauto.
Qed.

(** ** [Optimizer.minimize_pattern]: every rewrite shortens the pattern *)

Lemma unwrap_class_shorter (x y : str) :
  x <> [] -> Optimizer.unwrap_class x = Some y -> (length y < length x)%nat.
Proof.
  unfold Optimizer.unwrap_class. intros Hx H.
  destruct (_ && _); [| discriminate].
  destruct (_ && _); [| discriminate].
  injection H as <-. apply slice_from_length_lt; [lia | exact Hx].
Qed.

Lemma unwrap_group_shorter (x y : str) :
  x <> [] -> Optimizer.unwrap_group x = Some y -> (length y < length x)%nat.
Proof.
  unfold Optimizer.unwrap_group. intros Hx H.
  destruct (_ && _); [| discriminate].
  destruct (negb _); [| discriminate].
  injection H as <-. apply slice_from_length_lt; [lia | exact Hx].
Qed.

Lemma strip_all_starts (parts : list str) (cs : str) (c : Z) :
  c ∈ cs ->
  forallb (fun p => startswith p [c]) parts = true ->
  (total_length (map (fun p => strip p cs) parts) + length parts
   <= total_length parts)%nat.
Proof.
  intros Hc. induction parts as [| p parts IH]; intros H; simpl in *; [lia |].
  apply andb_true_iff in H as [Hp H].
  pose proof (strip_starts_lt p cs c Hc Hp). specialize (IH H).
  unfold total_length in *. lia.
Qed.

Lemma strip_all_le (parts : list str) (cs : str) :
  (total_length (map (fun p => strip p cs) parts) <= total_length parts)%nat.
Proof.
  induction parts as [| p parts IH]; simpl; [lia |].
  pose proof (strip_length_le p cs). unfold total_length in *. lia.
Qed.

Lemma combine_classes_shorter (x y : str) :
  Optimizer.combine_classes x = Some y -> (length y < length x)%nat.
Proof.
  unfold Optimizer.combine_classes. intros H.
  destruct (contains x (pystr "][")) eqn:Hin; [| discriminate].
  destruct (forallb _ _ && forallb _ _) eqn:Hall; [| discriminate].
  injection H as <-. apply andb_true_iff in Hall as [Hstarts Hends].
  unfold split in *.
  pose proof (split_go_two (pystr "][") x [] ltac:(done) Hin) as Htwo.
  pose proof (split_go_total (pystr "][") x O [] ltac:(lia)) as Htot.
  destruct (split_go (pystr "][") x 0 []) as [| p1 rest]; [simpl in Htwo; lia |].
  destruct rest as [| p2 rest]; [simpl in Htwo; lia |].
  rewrite slice_tail in Hstarts.
  destruct (slice_init_head p1 (p2 :: rest) ltac:(done)) as [t' Ht'].
  rewrite Ht' in Hends. cbn [forallb] in Hends.
  apply andb_true_iff in Hends as [Hend1 _].
  pose proof (strip_ends_lt p1 (pystr "[]") (ord "]") ltac:(set_solver) Hend1) as L1.
  pose proof (strip_all_starts (p2 :: rest) (pystr "[]") (ord "[")
                ltac:(set_solver) Hstarts) as L2.
  cbn [length]. rewrite length_app, join_nil_length.
  change (map (fun p => strip p (pystr "[]")) (p1 :: p2 :: rest))
    with (strip p1 (pystr "[]") :: map (fun p => strip p (pystr "[]")) (p2 :: rest)).
  change (total_length (p1 :: p2 :: rest))
    with (length p1 + total_length (p2 :: rest))%nat in Htot.
  change (total_length (strip p1 (pystr "[]") :: ?l))
    with (length (strip p1 (pystr "[]")) + total_length l)%nat.
  cbn [length] in *.
  change (length (pystr "][")) with 2%nat in Htot.
  change (length (pystr "[")) with 1%nat.
  change (length (pystr "]")) with 1%nat.
  lia.
Qed.

Lemma minimize_pattern_shrinks (x : str) :
  Optimizer.minimize_pattern x = x
  \/ (length (Optimizer.minimize_pattern x) < length x)%nat.
Proof.
  unfold Optimizer.minimize_pattern.
  case_bool_decide as Hx; [left; reflexivity |].
  destruct (Optimizer.unwrap_class x) eqn:E1.
  { right. eapply unwrap_class_shorter; eauto. }
  destruct (Optimizer.unwrap_group x) eqn:E2.
  { right. eapply unwrap_group_shorter; eauto. }
  destruct (Optimizer.combine_classes x) eqn:E3.
  { right. eapply combine_classes_shorter; eauto. }
  left. reflexivity.
Qed.

(** A function on strings that either fixes or shortens its argument
    reaches a fixed point within [length x] applications. *)
Lemma shrinking_iter_fixpoint (f : str -> str) :
  (forall x, f x = x \/ (length (f x) < length x)%nat) ->
  forall n x, (length x <= n)%nat -> f (Nat.iter n f x) = Nat.iter n f x.
Proof.
  intros Hf. induction n as [| n IH]; intros x Hlen.
  - simpl. destruct (Hf x) as [| ?]; [assumption | lia].
  - destruct (Hf x) as [Hfix | Hlt].
    + assert (forall k, Nat.iter k f x = x) as Hk.
      { induction k as [| k IHk]; simpl; [reflexivity | rewrite IHk; exact Hfix]. }
      rewrite Hk. exact Hfix.
    + rewrite Nat.iter_succ_r. apply IH. lia.
Qed.

(** C4 (the code departs from it): [minimize_pattern] returns after the
    first rewrite that applies.  One call removes the group around
    ['[a]'] and leaves the one-character class that its docstring says is
    collapsed; only a second call collapses it, so the function is not
    idempotent. *)
Lemma minimize_pattern_not_idempotent :
  Optimizer.minimize_pattern (pystr "(?:[a])") = pystr "[a]"
  /\ Optimizer.minimize_pattern (pystr "[a]") = pystr "a"
  /\ Optimizer.minimize_pattern (Optimizer.minimize_pattern (pystr "(?:[a])"))
     <> Optimizer.minimize_pattern (pystr "(?:[a])").
Proof.
  repeat split; try reflexivity.
  vm_compute. discriminate.
Qed.

(** Every call returns its argument unchanged or a strictly shorter
    pattern, so [len(x)] successive calls reach a pattern that one more
    call leaves unchanged. *)
Theorem minimize_pattern_reaches_fixpoint (x : str) :
  (Optimizer.minimize_pattern x = x
   \/ (length (Optimizer.minimize_pattern x) < length x)%nat)
  /\ Optimizer.minimize_pattern (Nat.iter (length x) Optimizer.minimize_pattern x)
     = Nat.iter (length x) Optimizer.minimize_pattern x.
Proof.
  split.
  - apply minimize_pattern_shrinks.
  - apply shrinking_iter_fixpoint; [apply minimize_pattern_shrinks | lia].
Qed.

(** ** [Optimizer.optimize_readability] only inserts characters *)

Lemma readability_loop_length (pattern rest : str) (i : Z) (in_class : bool)
    (result : str) :
  (length result + length rest
   <= length (Optimizer.readability_loop pattern i rest in_class result))%nat.
Proof.
  revert i in_class result.
  induction rest as [| c rest IH]; intros i in_class result; cbn [Optimizer.readability_loop].
  - simpl. lia.
  - repeat match goal with
           | |- context [if ?b then _ else _] => destruct b
           end;
      (etransitivity; [| apply IH]); rewrite ?length_app; simpl; lia.
Qed.

Lemma optimize_readability_length (pattern : str) :
  (length pattern <= length (Optimizer.optimize_readability pattern))%nat.
Proof.
  unfold Optimizer.optimize_readability. case_bool_decide; [lia |].
  pose proof (readability_loop_length pattern pattern 0 false []) as Hlen.
  simpl in Hlen. exact Hlen.
Qed.

(** C8: for every pattern, both priorities are accepted and the result
    under ['size'] is no longer than the result under ['readability']. *)
Theorem optimize_pattern_size_le_readability (p : str) :
  exists small readable,
    Optimizer.optimize_pattern p (pystr "size") = Ok small
    /\ Optimizer.optimize_pattern p (pystr "readability") = Ok readable
    /\ (length small <= length readable)%nat.
Proof.
  exists (Optimizer.minimize_pattern p),
    (Optimizer.optimize_readability (Optimizer.minimize_pattern p)).
  repeat split.
  apply optimize_readability_length.
Qed.

(** ** [Optimizer.benchmark_pattern] *)

(** The case the handler covers: when the host engine rejects the
    pattern with [re.error], [benchmark_pattern] does not raise: it
    returns a dictionary holding the error message, the length of the
    pattern and an iteration count of zero. *)
Theorem benchmark_pattern_compile_error {regex float : Type}
    (re_compile : str -> result regex) (mean : float -> float -> Z -> float)
    (start_time end_time : float) (pattern test_string : str)
    (iterations : Z) (msg : str) :
  re_compile pattern = Raise (ReError msg) ->
  Optimizer.benchmark_pattern re_compile mean start_time end_time
    pattern test_string iterations
  = Ok [("error"%string, VStr msg);
        ("pattern_size"%string, VInt (Z.of_nat (length pattern)));
        ("iterations"%string, VInt 0)].
Proof.
  intros Hcompile. unfold Optimizer.benchmark_pattern.
  rewrite Hcompile. reflexivity.
Qed.

Lemma benchmark_pattern_compile_error_witness :
  toy_compile (pystr "[")
  = Raise (ReError (pystr "unterminated character set at position 0"))
  /\ Optimizer.benchmark_pattern toy_compile (fun _ _ _ => 0) 0 0
       (pystr "[") (pystr "abc") 1000
     = Ok [("error"%string, VStr (pystr "unterminated character set at position 0"));
           ("pattern_size"%string, VInt 1);
           ("iterations"%string, VInt 0)].
Proof.
  split.
  - reflexivity.
  - apply (benchmark_pattern_compile_error toy_compile (fun _ _ _ => 0) 0 0
             (pystr "[") (pystr "abc") 1000
             (pystr "unterminated character set at position 0")).
    reflexivity.
Defined.

(** C9 (the code departs from it): the handler catches [re.error] only.
    When compiling the pattern fails with any other exception,
    [benchmark_pattern] raises that exception, where the claim and the
    docstring have it return the error dictionary. *)
Theorem benchmark_pattern_compile_failure_escapes {regex float : Type}
    (re_compile : str -> result regex) (mean : float -> float -> Z -> float)
    (start_time end_time : float) (pattern test_string : str)
    (iterations : Z) (e : exn) :
  re_compile pattern = Raise e ->
  (forall msg, e <> ReError msg) ->
  Optimizer.benchmark_pattern re_compile mean start_time end_time
    pattern test_string iterations
  = Raise e.
Proof.
  intros Hcompile Hother. unfold Optimizer.benchmark_pattern.
  rewrite Hcompile. destruct e; try reflexivity.
  exfalso. apply (Hother msg). reflexivity.
Qed.

Lemma benchmark_pattern_compile_failure_escapes_witness :
  sample_compile (pystr "a{4294967296}") = Raise OverflowError
  /\ (forall msg, OverflowError <> ReError msg)
  /\ Optimizer.benchmark_pattern sample_compile (fun _ _ _ => 0) 0 0
       (pystr "a{4294967296}") (pystr "abc") 1000
     = Raise OverflowError.
Proof.
  split; [reflexivity |]. split; [discriminate |].
  apply (benchmark_pattern_compile_failure_escapes sample_compile (fun _ _ _ => 0) 0 0
           (pystr "a{4294967296}") (pystr "abc") 1000 OverflowError).
  - reflexivity.
  - discriminate.
Defined.

(** ** [Regen.create_optimized_pattern] *)

Lemma shrink_prefix_startswith (s prefix : str) :
  startswith s (Regen.shrink_prefix (length prefix) s prefix) = true.
Proof.
  remember (length prefix) as n eqn:Hn.
  revert prefix Hn. induction n as [| n IH]; intros prefix Hn; simpl.
  - destruct prefix; [apply startswith_nil | discriminate].
  - destruct (startswith s prefix) eqn:E; simpl; [exact E |].
    case_bool_decide as Hnil; [rewrite Hnil; apply startswith_nil |].
    apply IH. unfold slice, slice_index. cbv zeta.
    change (-1 <? 0) with true. cbv iota.
    rewrite length_take, length_drop. lia.
Qed.

(** C5 (the code departs from it): on the input of [test_mixed_patterns]
    the suffixes ['1a'], ['2b'], ['3c'] vary at position 1 among letters,
    yet the digit position 0 alone makes [numeric_positions] non-empty
    and the result is built from the first string: it is not the
    alternation, and its tail ['a'] is that of the first input only. *)
Theorem create_optimized_pattern_mixed (unicode_isdigit : Z -> bool) :
  Regen.create_optimized_pattern unicode_isdigit
    [pystr "test1a"; pystr "test2b"; pystr "test3c"]
  = Ok (pystr "test[123]a")
  /\ Regen.create_alternation [pystr "test1a"; pystr "test2b"; pystr "test3c"]
     = pystr "(?:test1a|test2b|test3c)".
Proof.
  split; vm_compute; reflexivity.
Qed.

(** ** [RegexGenerator.generate_pattern] *)

(** The lookup in [COMMON_RANGES] succeeds only for an instance whose
    address is stored in the table: membership plays no part in it. *)
Lemma find_common_by_address (items : list (str * loc))
    (code_points : RegexGenerator.code_points_arg) (pattern : str) :
  RegexGenerator.find_common items code_points = Some pattern ->
  exists self,
    code_points = RegexGenerator.Instance self /\ (pattern, self) ∈ items.
Proof.
  induction items as [| [pat common_set] items IH]; simpl; [discriminate |].
  destruct (RegexGenerator.eq_common code_points common_set) eqn:Heq.
  - intros [= <-]. destruct code_points as [s | self]; [discriminate |].
    simpl in Heq. unfold CodePointSet.__eq__ in Heq.
    apply bool_decide_eq_true in Heq as ->.
    exists common_set. split; [reflexivity | left].
  - intros H. destruct (IH H) as (self & -> & Hin).
    exists self. split; [reflexivity | right; exact Hin].
Qed.

(** C1 (the code departs from it): a digit set built by the caller is a
    different object from the one stored in [COMMON_RANGES], the
    comparison is by identity, and the pattern is a bracket class.  Only
    the stored object itself yields the shorthand. *)
Theorem generate_pattern_digits_no_shorthand :
  fst (digits_scenario []) = Ok (pystr "[0-9]")
  /\ fst (shared_digits_scenario []) = Ok (pystr "\d").
Proof.
  split; vm_compute; reflexivity.
Qed.

(** C2 (the code departs from it): two instances with the same members
    are not equal. *)
Theorem eq_is_identity_not_membership :
  fst (twin_scenario [65; 66; 67] []) = Ok (false, true).
Proof.
  vm_compute. reflexivity.
Qed.

(** C3 (the code departs from it): a code point above U+FFFF, and one in
    U+0080..U+FFFF, come out as the character itself, where
    [_format_code_point] and the unit tests have the escape. *)
Theorem generate_pattern_emits_raw_characters :
  generate_fresh {[ 0x10400 ]} (pystr "size") = Ok [0x10400]
  /\ RegexGenerator._format_code_point 0x10400 false = Ok (pystr "\U00010400")
  /\ generate_fresh {[ 0x0391 ]} (pystr "size") = Ok [0x0391]
  /\ RegexGenerator._format_code_point 0x0391 false = Ok (pystr "\u0391")
  /\ RegexGenerator.generate_range_pattern 0x0391 0x03A9
     = Ok (pystr "[" ++ [0x0391] ++ pystr "-" ++ [0x03A9] ++ pystr "]").
Proof.
  repeat split; vm_compute; reflexivity.
Qed.

(* ===================================================================== *)
(** * [CodePointSet]: validation and the range invariant *)
(* ===================================================================== *)

Lemma py_range_bounds (start stop p : Z) :
  p ∈ py_range start stop <-> start <= p < stop.
Proof.
  unfold py_range. rewrite elem_of_seqZ. lia.
Qed.

(** ** A Hoare rule set for the invariant [heap_valid] *)

Lemma keeps_ret {A} (a : A) (Q : A -> Prop) : Q a -> keeps_valid (ret a) Q.
Proof.
  intros Ha h Hh. split; [exact Hh |].
  intros a' [= <-]. exact Ha.
Qed.

Lemma keeps_raise {A} (e : exn) (Q : A -> Prop) : keeps_valid (raise e) Q.
Proof.
  intros h Hh. split; [exact Hh | discriminate].
Qed.

Lemma keeps_bind {A B} (m : M A) (k : A -> M B) (Q : A -> Prop) (R : B -> Prop) :
  keeps_valid m Q ->
  (forall a, Q a -> keeps_valid (k a) R) ->
  keeps_valid (bind m k) R.
Proof.
  intros Hm Hk h Hh. unfold bind.
  destruct (Hm h Hh) as [Hvalid Hres].
  destruct (m h) as [[a | e] h']; simpl in *.
  - apply Hk; [apply Hres; reflexivity | exact Hvalid].
  - split; [exact Hvalid | discriminate].
Qed.

Lemma keeps_seq {A B} (m : M A) (k : A -> M B) (R : B -> Prop) :
  keeps_valid m (fun _ => True) ->
  (forall a, keeps_valid (k a) R) ->
  keeps_valid (bind m k) R.
Proof.
  intros Hm Hk. eapply keeps_bind; [exact Hm | intros a _; apply Hk].
Qed.

Lemma keeps_for {A} (xs : list A) (body : A -> M unit) :
  (forall x, x ∈ xs -> keeps_valid (body x) (fun _ => True)) ->
  keeps_valid (for_ xs body) (fun _ => True).
Proof.
  induction xs as [| x xs IH]; intros Hbody; cbn [for_].
  - apply keeps_ret. exact I.
  - eapply keeps_bind.
    + apply Hbody. left.
    + intros _ _. apply IH. intros y Hy. apply Hbody. right. exact Hy.
Qed.

Lemma keeps_for_acc {A S} (xs : list A) (s : S) (body : S -> A -> M S) :
  (forall s x, keeps_valid (body s x) (fun _ => True)) ->
  keeps_valid (for_acc xs s body) (fun _ => True).
Proof.
  intros Hbody. revert s. induction xs as [| x xs IH]; intros s; cbn [for_acc].
  - apply keeps_ret. exact I.
  - eapply keeps_bind; [apply Hbody |]. intros s' _. apply IH.
Qed.

Lemma keeps_if {A} (b : bool) (m1 m2 : M A) (Q : A -> Prop) :
  keeps_valid m1 Q -> keeps_valid m2 Q -> keeps_valid (if b then m1 else m2) Q.
Proof. destruct b; auto. Qed.

(** ** The primitives on the store *)

Lemma valid_points_empty : valid_points ∅.
Proof. intros p Hp. set_solver. Qed.

Lemma keeps_alloc (pts : gset Z) :
  valid_points pts -> keeps_valid (CodePointSet.alloc pts) (fun _ => True).
Proof.
  intros Hpts h Hh. split; [| done].
  simpl. intros self pts' Hlook.
  apply lookup_app_Some in Hlook as [Hlook | [_ Hlook]].
  - eapply Hh, Hlook.
  - apply list_lookup_singleton_Some in Hlook as [_ <-]. exact Hpts.
Qed.

Lemma keeps_get_points (self : loc) :
  keeps_valid (CodePointSet.get_points self) valid_points.
Proof.
  intros h Hh. unfold CodePointSet.get_points.
  destruct (h !! self) as [pts |] eqn:E; simpl.
  - split; [exact Hh |]. intros a [= <-]. eapply Hh, E.
  - split; [exact Hh | discriminate].
Qed.

Lemma keeps_set_points (self : loc) (pts : gset Z) :
  valid_points pts -> keeps_valid (CodePointSet.set_points self pts) (fun _ => True).
Proof.
  intros Hpts h Hh. unfold CodePointSet.set_points.
  destruct (h !! self) as [old |] eqn:E; simpl; (split; [| done]); [| exact Hh].
  intros l pts' Hlook.
  apply list_lookup_insert_Some in Hlook as [(_ & <- & _) | (_ & Hlook)].
  - exact Hpts.
  - eapply Hh, Hlook.
Qed.

(** ** The public operations *)

Lemma keeps_add (self : loc) (code_point : Z) :
  keeps_valid (CodePointSet.add self code_point) (fun _ => True).
Proof.
  unfold CodePointSet.add.
  destruct (negb _) eqn:Hcheck; [apply keeps_raise |].
  apply negb_false_iff, andb_true_iff in Hcheck as [H0 Hmax].
  eapply keeps_bind; [apply keeps_get_points |].
  intros pts Hpts. apply keeps_set_points.
  intros p Hp. apply elem_of_union in Hp as [Hp | Hp]; [apply Hpts, Hp |].
  apply elem_of_singleton in Hp as ->. lia.
Qed.

Lemma keeps_add_range (self : loc) (start end_ : Z) :
  keeps_valid (CodePointSet.add_range self start end_) (fun _ => True).
Proof.
  unfold CodePointSet.add_range.
  destruct (negb _) eqn:Hcheck; [apply keeps_raise |].
  apply negb_false_iff in Hcheck.
  apply andb_true_iff in Hcheck as [Hcheck Hmax].
  apply andb_true_iff in Hcheck as [H0 Hle].
  apply keeps_for. intros point Hpoint. apply py_range_bounds in Hpoint.
  eapply keeps_bind; [apply keeps_get_points |].
  intros pts Hpts. apply keeps_set_points.
  intros p Hp. apply elem_of_union in Hp as [Hp | Hp]; [apply Hpts, Hp |].
  apply elem_of_singleton in Hp as ->. lia.
Qed.

Lemma keeps_init (code_points : option (list Z)) :
  keeps_valid (CodePointSet.__init__ code_points) (fun _ => True).
Proof.
  unfold CodePointSet.__init__.
  eapply keeps_bind; [apply keeps_alloc, valid_points_empty |].
  intros self _. apply keeps_seq; [| intros; apply keeps_ret; done].
  destruct code_points as [cps |]; [| apply keeps_ret; done].
  apply keeps_for. intros point _. apply keeps_add.
Qed.

Lemma keeps_remove (self : loc) (code_point : Z) :
  keeps_valid (CodePointSet.remove self code_point) (fun _ => True).
Proof.
  unfold CodePointSet.remove.
  eapply keeps_bind; [apply keeps_get_points |].
  intros pts Hpts. apply keeps_set_points.
  intros p Hp. apply elem_of_difference in Hp as [Hp _]. apply Hpts, Hp.
Qed.

Lemma keeps_remove_range (self : loc) (start end_ : Z) :
  keeps_valid (CodePointSet.remove_range self start end_) (fun _ => True).
Proof.
  unfold CodePointSet.remove_range.
  apply keeps_for. intros point _.
  eapply keeps_bind; [apply keeps_get_points |].
  intros pts Hpts. apply keeps_set_points.
  intros p Hp. apply elem_of_difference in Hp as [Hp _]. apply Hpts, Hp.
Qed.

Lemma keeps_from_range (start end_ : Z) :
  keeps_valid (CodePointSet.from_range start end_) (fun _ => True).
Proof.
  unfold CodePointSet.from_range.
  eapply keeps_bind; [apply keeps_init |]. intros result _.
  eapply keeps_bind; [apply keeps_add_range |]. intros _ _.
  apply keeps_ret. done.
Qed.

Lemma keeps_from_string (text : str) :
  keeps_valid (CodePointSet.from_string text) (fun _ => True).
Proof.
  unfold CodePointSet.from_string.
  eapply keeps_bind; [apply keeps_init |]. intros result _.
  apply keeps_seq; [| intros; apply keeps_ret; done].
  apply keeps_for. intros char _. apply keeps_add.
Qed.

(** [result._points = f(self._points, other._points)] for an [f] that
    yields valid points from valid points. *)
Lemma keeps_binary (f : gset Z -> gset Z -> gset Z) (self other : loc) :
  (forall a b, valid_points a -> valid_points b -> valid_points (f a b)) ->
  keeps_valid
    (result <- CodePointSet.__init__ None ;;
     a <- CodePointSet.get_points self ;;
     b <- CodePointSet.get_points other ;;
     CodePointSet.set_points result (f a b) ;;
     ret result)%M
    (fun _ => True).
Proof.
  intros Hf.
  eapply keeps_bind; [apply keeps_init |]. intros result _.
  eapply keeps_bind; [apply keeps_get_points |]. intros a Ha.
  eapply keeps_bind; [apply keeps_get_points |]. intros b Hb.
  eapply keeps_bind; [apply keeps_set_points, Hf; assumption |]. intros _ _.
  apply keeps_ret. done.
Qed.

Lemma keeps_copy (self : loc) :
  keeps_valid (CodePointSet.copy self) (fun _ => True).
Proof.
  unfold CodePointSet.copy.
  eapply keeps_bind; [apply keeps_init |]. intros result _.
  eapply keeps_bind; [apply keeps_get_points |]. intros a Ha.
  eapply keeps_bind; [apply keeps_set_points, Ha |]. intros _ _.
  apply keeps_ret. done.
Qed.

Lemma keeps_invert (self : loc) :
  keeps_valid (CodePointSet.__invert__ self) (fun _ => True).
Proof.
  unfold CodePointSet.__invert__.
  eapply keeps_bind; [apply keeps_init |]. intros result _.
  eapply keeps_bind; [apply keeps_get_points |]. intros pts _.
  eapply keeps_bind.
  { apply keeps_for_acc. intros current point.
    apply keeps_seq; [| intros; apply keeps_ret; done].
    apply keeps_if; [apply keeps_add_range | apply keeps_ret; done]. }
  intros current _.
  apply keeps_seq; [| intros; apply keeps_ret; done].
  apply keeps_if; [apply keeps_add_range | apply keeps_ret; done].
Qed.

Lemma exec_valid (h : heap) (c : call) : heap_valid h -> heap_valid (exec h c).
Proof.
  intros Hh. destruct c; cbn [exec].
  - apply (keeps_init code_points h Hh).
  - apply (keeps_from_range start end_ h Hh).
  - apply (keeps_from_range code_point code_point h Hh).
  - apply (keeps_from_string text h Hh).
  - apply (keeps_add self code_point h Hh).
  - apply (keeps_add_range self start end_ h Hh).
  - apply (keeps_remove self code_point h Hh).
  - apply (keeps_remove_range self start end_ h Hh).
  - apply (keeps_binary union self other); [| exact Hh].
    intros a b Ha Hb p Hp. apply elem_of_union in Hp as [Hp | Hp]; auto.
  - apply (keeps_binary intersection self other); [| exact Hh].
    intros a b Ha Hb p Hp. apply elem_of_intersection in Hp as [Hp _]; auto.
  - apply (keeps_binary difference self other); [| exact Hh].
    intros a b Ha Hb p Hp. apply elem_of_difference in Hp as [Hp _]; auto.
  - apply (keeps_invert self h Hh).
  - apply (keeps_copy self h Hh).
Qed.

(** C10: whatever sequence of public operations is run from the empty
    store, and whether each call returns or raises, every [CodePointSet]
    in the store contains only integers of [0, 0x10FFFF]. *)
Theorem reachable_sets_hold_valid_code_points (calls : list call) :
  heap_valid (run_calls calls).
Proof.
  unfold run_calls.
  assert (heap_valid []) as Hinit by (intros self pts Hlook; discriminate).
  revert Hinit. generalize (@nil (gset Z)).
  induction calls as [| c calls IH]; intros h Hh; simpl.
  - exact Hh.
  - apply IH. apply exec_valid. exact Hh.
Qed.

(** ** Validation at the point of input acceptance *)

Lemma add_rejects (h : heap) (self : loc) (p : Z) :
  ~ (0 <= p <= 0x10FFFF) ->
  CodePointSet.add self p h = (Raise (ValueError "Invalid code point" [p]), h).
Proof.
  intros Hp. unfold CodePointSet.add.
  destruct (negb _) eqn:Hcheck; [reflexivity |].
  apply negb_false_iff, andb_true_iff in Hcheck as [H0 Hmax]. lia.
Qed.

Lemma add_range_rejects (h : heap) (self : loc) (start end_ : Z) :
  ~ (0 <= start <= 0x10FFFF) \/ ~ (0 <= end_ <= 0x10FFFF) ->
  CodePointSet.add_range self start end_ h
  = (Raise (ValueError "Invalid code point range" [start; end_]), h).
Proof.
  intros Hp. unfold CodePointSet.add_range.
  destruct (negb _) eqn:Hcheck; [reflexivity |].
  apply negb_false_iff in Hcheck.
  apply andb_true_iff in Hcheck as [Hcheck Hmax].
  apply andb_true_iff in Hcheck as [H0 Hle]. lia.
Qed.

Lemma bind_ok {A B} (m : M A) (k : A -> M B) (h h' : heap) (a : A) :
  m h = (Ok a, h') -> bind m k h = k a h'.
Proof.
  intros Hm. unfold bind. rewrite Hm. reflexivity.
Qed.

Lemma get_points_ok (h : heap) (self : loc) (pts : gset Z) :
  h !! self = Some pts -> CodePointSet.get_points self h = (Ok pts, h).
Proof.
  intros Hself. unfold CodePointSet.get_points. rewrite Hself. reflexivity.
Qed.

Lemma set_points_ok (h : heap) (self : loc) (old pts : gset Z) :
  h !! self = Some old ->
  CodePointSet.set_points self pts h = (Ok tt, <[self := pts]> h).
Proof.
  intros Hself. unfold CodePointSet.set_points. rewrite Hself. reflexivity.
Qed.

Lemma remove_returns (h : heap) (self : loc) (pts : gset Z) (p : Z) :
  h !! self = Some pts ->
  CodePointSet.remove self p h = (Ok tt, <[self := pts ∖ {[p]}]> h).
Proof.
  intros Hself. unfold CodePointSet.remove.
  rewrite (bind_ok _ _ h h pts) by (apply get_points_ok, Hself).
  eapply set_points_ok, Hself.
Qed.

(** The loop of [remove_range] discards every point of the list. *)
Lemma discard_loop (self : loc) (xs : list Z) (h : heap) (pts : gset Z) :
  h !! self = Some pts ->
  for_ xs
    (fun point =>
       (_points <- CodePointSet.get_points self ;;
        CodePointSet.set_points self (_points ∖ {[point]}))%M) h
  = (Ok tt, <[self := pts ∖ list_to_set xs]> h).
Proof.
  revert h pts. induction xs as [| x xs IH]; intros h pts Hself.
  - simpl. unfold ret. rewrite difference_empty_L, list_insert_id by exact Hself.
    reflexivity.
  - cbn [for_].
    assert (self < length h)%nat as Hlt by (eapply lookup_lt_Some, Hself).
    rewrite (bind_ok _ _ h (<[self := pts ∖ {[x]}]> h) tt).
    2:{ rewrite (bind_ok _ _ h h pts) by (apply get_points_ok, Hself).
        eapply set_points_ok, Hself. }
    rewrite (IH _ (pts ∖ {[x]})) by (apply list_lookup_insert_eq, Hlt).
    rewrite list_insert_insert_eq. do 2 f_equal.
    rewrite list_to_set_cons. apply set_eq. intros y.
    rewrite !elem_of_difference, elem_of_union. tauto.
Qed.

Lemma remove_range_returns (h : heap) (self : loc) (pts : gset Z) (start end_ : Z) :
  h !! self = Some pts ->
  CodePointSet.remove_range self start end_ h
  = (Ok tt, <[self := pts ∖ list_to_set (py_range start (end_ + 1))]> h).
Proof.
  intros Hself. unfold CodePointSet.remove_range. apply discard_loop, Hself.
Qed.

(** C6 (as stated, refuted): [remove] and [remove_range] take integers
    outside [0, 0x10FFFF] and return normally. *)
Lemma remove_accepts_invalid_code_point :
  CodePointSet.remove 0 (-1) [∅] = (Ok tt, [∅])
  /\ CodePointSet.remove_range 0 0x110000 0x110005 [∅] = (Ok tt, [∅])
  /\ ~ (exists e, fst (CodePointSet.remove 0 (-1) [∅]) = Raise e).
Proof.
  split; [vm_compute; reflexivity |].
  split; [vm_compute; reflexivity |].
  intros [e He]. vm_compute in He. discriminate.
Qed.

(** C6 (amended): for an integer [p] outside [0, 0x10FFFF], [add] and
    [add_range] (with [p] as either bound) raise [ValueError] before
    touching the set; [remove] and [remove_range] do not validate their
    arguments and return normally: [remove(p)] discards [p], and
    [remove_range] with [p] as either bound discards every member lying
    between the two bounds, valid members included. *)
Theorem invalid_code_point_rejected_by_add_only
    (h : heap) (self : loc) (pts : gset Z) (p q : Z) :
  h !! self = Some pts ->
  ~ (0 <= p <= 0x10FFFF) ->
  CodePointSet.add self p h = (Raise (ValueError "Invalid code point" [p]), h)
  /\ CodePointSet.add_range self p q h
     = (Raise (ValueError "Invalid code point range" [p; q]), h)
  /\ CodePointSet.add_range self q p h
     = (Raise (ValueError "Invalid code point range" [q; p]), h)
  /\ CodePointSet.remove self p h = (Ok tt, <[self := pts ∖ {[p]}]> h)
  /\ CodePointSet.remove_range self p q h
     = (Ok tt, <[self := pts ∖ list_to_set (py_range p (q + 1))]> h)
  /\ CodePointSet.remove_range self q p h
     = (Ok tt, <[self := pts ∖ list_to_set (py_range q (p + 1))]> h).
Proof.
  intros Hself Hp. repeat split.
  - apply add_rejects, Hp.
  - apply add_range_rejects. left. exact Hp.
  - apply add_range_rejects. right. exact Hp.
  - apply remove_returns, Hself.
  - apply remove_range_returns, Hself.
  - apply remove_range_returns, Hself.
Qed.

Lemma invalid_code_point_rejected_by_add_only_witness :
  ([ {[ 65 ]} ] : heap) !! 0%nat = Some ({[ 65 ]} : gset Z)
  /\ ~ (0 <= -1 <= 0x10FFFF)
  /\ CodePointSet.add 0 (-1) [ {[ 65 ]} ]
     = (Raise (ValueError "Invalid code point" [-1]), [ {[ 65 ]} ])
  /\ CodePointSet.remove 0 (-1) [ {[ 65 ]} ]
     = (Ok tt, <[0%nat := ({[ 65 ]} : gset Z) ∖ {[ -1 ]}]> [ {[ 65 ]} ])
  /\ CodePointSet.remove_range 0 (-1) 70 [ {[ 65 ]} ]
     = (Ok tt, <[0%nat := ({[ 65 ]} : gset Z) ∖ list_to_set (py_range (-1) (70 + 1))]>
                 [ {[ 65 ]} ]).
Proof.
  pose proof (invalid_code_point_rejected_by_add_only
                [ {[ 65 ]} ] 0%nat {[ 65 ]} (-1) 70 eq_refl ltac:(lia)) as H.
  split; [reflexivity |]. split; [lia |].
  split; [apply H |]. split; apply H.
Defined.

(* ===================================================================== *)
(** * [CodePointSet.get_ranges]: the maximal range decomposition *)
(* ===================================================================== *)

Lemma sorted_elem_of (pts : gset Z) (p : Z) : p ∈ sorted pts <-> p ∈ pts.
Proof.
  unfold sorted. rewrite merge_sort_Permutation. apply elem_of_elements.
Qed.

Lemma le_sorted_nodup_lt (l : list Z) :
  StronglySorted Z.le l -> NoDup l -> StronglySorted Z.lt l.
Proof.
  induction 1 as [| x l Hsorted IH Hall]; intros Hnodup; constructor.
  - apply IH. apply NoDup_cons in Hnodup. tauto.
  - apply NoDup_cons in Hnodup as [Hx _].
    rewrite Forall_forall in *. intros y Hy.
    specialize (Hall y Hy). assert (x <> y) by (intros ->; apply Hx, Hy). lia.
Qed.

Lemma sorted_strictly_ascending (pts : gset Z) : StronglySorted Z.lt (sorted pts).
Proof.
  apply le_sorted_nodup_lt.
  - apply StronglySorted_merge_sort; apply _.
  - unfold sorted. rewrite merge_sort_Permutation. apply NoDup_elements.
Qed.

Lemma sorted_nil_empty (pts : gset Z) : sorted pts = [] -> pts = ∅.
Proof.
  intros Hnil. apply set_eq. intros p.
  rewrite <- sorted_elem_of, Hnil. set_solver.
Qed.

(** The loop invariant: with the current range [start..end_] and the
    remaining ascending points, the yielded ranges start no earlier than
    [start], are non-empty, leave a gap between neighbours, and cover
    the current range and the remaining points, nothing else. *)
Lemma get_ranges_loop_spec (points : list Z) :
  forall start end_,
    start <= end_ ->
    StronglySorted Z.lt (end_ :: points) ->
    let ranges := CodePointSet.get_ranges_loop start end_ points in
    Forall (fun r => start <= fst r /\ fst r <= snd r) ranges
    /\ StronglySorted separated ranges
    /\ forall p, (exists r, r ∈ ranges /\ fst r <= p <= snd r)
                 <-> (start <= p <= end_ \/ p ∈ points).
Proof.
  induction points as [| point points IH]; intros start end_ Hle Hsorted;
    cbn [CodePointSet.get_ranges_loop]; cbv zeta.
  - split; [| split].
    + repeat constructor; simpl; lia.
    + repeat constructor.
    + intros p. split.
      * intros (r & Hr & Hp). apply list_elem_of_singleton in Hr as ->. left. exact Hp.
      * intros [Hp | Hp]; [| inversion Hp].
        exists (start, end_). split; [left | exact Hp].
  - apply StronglySorted_inv in Hsorted as [Htail Hall].
    pose proof (Forall_inv Hall) as Hlt. simpl in Hlt.
    destruct (point =? end_ + 1) eqn:Hadj.
    + apply Z.eqb_eq in Hadj.
      destruct (IH start point ltac:(lia) Htail) as (Hstart & Hsep & Hcover).
      split; [exact Hstart |]. split; [exact Hsep |].
      intros p. rewrite Hcover, elem_of_cons. intuition lia.
    + apply Z.eqb_neq in Hadj.
      destruct (IH point point ltac:(lia) Htail) as (Hstart & Hsep & Hcover).
      split; [| split].
      * constructor; [simpl; lia |].
        eapply Forall_impl; [exact Hstart |]. simpl. intros r Hr. lia.
      * constructor; [exact Hsep |].
        eapply Forall_impl; [exact Hstart |]. unfold separated. simpl.
        intros r Hr. lia.
      * intros p. rewrite elem_of_cons. split.
        -- intros (r & Hr & Hp). apply elem_of_cons in Hr as [-> | Hr].
           ++ left. exact Hp.
           ++ right. assert (point <= p <= point \/ p ∈ points) as [? | ?]
                by (apply Hcover; eauto); [left; lia | right; assumption].
        -- intros [Hp | [-> | Hp]].
           ++ exists (start, end_). split; [left | exact Hp].
           ++ destruct (proj2 (Hcover point)) as (r & Hr & Hp); [left; lia |].
              exists r. split; [right; exact Hr | exact Hp].
           ++ destruct (proj2 (Hcover p)) as (r & Hr & Hp'); [right; exact Hp |].
              exists r. split; [right; exact Hr | exact Hp'].
Qed.

Lemma strongly_sorted_trichotomy {A} (R : A -> A -> Prop) (l : list A) (x y : A) :
  StronglySorted R l -> x ∈ l -> y ∈ l -> x = y \/ R x y \/ R y x.
Proof.
  induction 1 as [| a l Hsorted IH Hall]; intros Hx Hy; [inversion Hx |].
  rewrite Forall_forall in Hall.
  apply elem_of_cons in Hx as [-> | Hx]; apply elem_of_cons in Hy as [-> | Hy]; auto.
Qed.

Lemma elem_of_flatten (ranges : list (Z * Z)) (p : Z) :
  p ∈ flatten ranges <-> exists r, r ∈ ranges /\ fst r <= p <= snd r.
Proof.
  unfold flatten. rewrite elem_of_list_to_set, list_elem_of_In, in_flat_map.
  split; intros (r & Hr & Hp); exists r.
  - apply list_elem_of_In in Hr. apply list_elem_of_In, py_range_bounds in Hp.
    split; [exact Hr | lia].
  - split; [apply list_elem_of_In, Hr |].
    apply list_elem_of_In, py_range_bounds. lia.
Qed.

(** C7: for every [CodePointSet], [get_ranges] returns, leaves the store
    as it is, and yields non-empty ranges in ascending order with a gap
    of at least one point between any earlier and any later range (so
    they are pairwise disjoint and never adjacent); a point is a member
    exactly when some range contains it; no range can be extended at
    either end; and the points covered by the ranges are the set. *)
Theorem get_ranges_maximal_decomposition (h : heap) (self : loc) (pts : gset Z) :
  h !! self = Some pts ->
  exists ranges,
    CodePointSet.get_ranges self h = (Ok ranges, h)
    /\ Forall (fun r => fst r <= snd r) ranges
    /\ StronglySorted separated ranges
    /\ (forall p, p ∈ pts <-> exists r, r ∈ ranges /\ fst r <= p <= snd r)
    /\ (forall r, r ∈ ranges -> (fst r - 1 ∉ pts) /\ (snd r + 1 ∉ pts))
    /\ flatten ranges = pts.
Proof.
  intros Hself.
  assert (exists ranges,
             CodePointSet.get_ranges self h = (Ok ranges, h)
             /\ Forall (fun r => fst r <= snd r) ranges
             /\ StronglySorted separated ranges
             /\ (forall p, p ∈ pts <-> exists r, r ∈ ranges /\ fst r <= p <= snd r))
    as (ranges & Hrun & Hne & Hsep & Hcover).
  { unfold CodePointSet.get_ranges.
    rewrite (bind_ok _ _ h h pts) by (apply get_points_ok, Hself).
    case_bool_decide as Hempty.
    - exists []. subst pts. repeat split; try constructor.
      + set_solver.
      + intros (r & Hr & _). inversion Hr.
    - pose proof (sorted_strictly_ascending pts) as Hsorted.
      pose proof (sorted_elem_of pts) as Helem.
      destruct (sorted pts) as [| p0 points] eqn:Hpts.
      { exfalso. apply Hempty, sorted_nil_empty, Hpts. }
      destruct (get_ranges_loop_spec points p0 p0 ltac:(lia) Hsorted)
        as (Hstart & Hsep & Hcover).
      eexists. split; [reflexivity |]. split; [| split; [exact Hsep |]].
      + eapply Forall_impl; [exact Hstart |]. simpl. tauto.
      + intros p. rewrite Hcover, <- Helem, elem_of_cons. intuition lia. }
  exists ranges.
  split; [exact Hrun |]. split; [exact Hne |]. split; [exact Hsep |].
  split; [exact Hcover |]. split.
  - intros r Hr. rewrite Forall_forall in Hne. pose proof (Hne r Hr) as Hr_ne.
    assert (forall q, q ∈ pts -> ~ (q = fst r - 1 \/ q = snd r + 1)) as Hout.
    { intros q Hq Hcase. apply Hcover in Hq as (r' & Hr' & Hq).
      pose proof (Hne r' Hr') as Hr'_ne.
      destruct (strongly_sorted_trichotomy separated ranges r r' Hsep Hr Hr')
        as [-> | [Hlt | Hlt]]; unfold separated in *; lia. }
    split; intros Hin; eapply Hout; eauto.
  - apply set_eq. intros p. rewrite elem_of_flatten. symmetry. apply Hcover.
Qed.

Lemma get_ranges_maximal_decomposition_witness :
  ([list_to_set [70; 65; 66; 72; 67; 71]] : heap) !! 0%nat
  = Some (list_to_set [70; 65; 66; 72; 67; 71] : gset Z)
  /\ exists ranges,
       CodePointSet.get_ranges 0 [list_to_set [70; 65; 66; 72; 67; 71]]
       = (Ok ranges, [list_to_set [70; 65; 66; 72; 67; 71]])
       /\ flatten ranges = list_to_set [70; 65; 66; 72; 67; 71].
Proof.
  split; [reflexivity |].
  destruct (get_ranges_maximal_decomposition
              [list_to_set [70; 65; 66; 72; 67; 71]] 0%nat
              (list_to_set [70; 65; 66; 72; 67; 71]) eq_refl)
    as (ranges & Hrun & _ & _ & _ & _ & Hflat).
  exists ranges. split; [exact Hrun | exact Hflat].
Defined.

Example get_ranges_example :
  CodePointSet.get_ranges 0 [list_to_set [70; 65; 66; 72; 67; 71]]
  = (Ok [(65, 67); (70, 72)], [list_to_set [70; 65; 66; 72; 67; 71]]).
Proof. vm_compute. reflexivity. Qed.

(* ===================================================================== *)
(** * The embedding on the examples of the docstrings and tests *)
(* ===================================================================== *)

Example minimize_pattern_class :
  Optimizer.minimize_pattern (pystr "[a]") = pystr "a"
  /\ Optimizer.minimize_pattern (pystr "[a-z]") = pystr "[a-z]".
Proof. split; reflexivity. Qed.

(** The input of [test_combined_minimization]: the outer markers go, and
    the three groups the test expects to be removed stay. *)
Example minimize_pattern_combined :
  Optimizer.minimize_pattern (pystr "(?:[a-z])(?:\d)(?:[A-Z])")
  = pystr "[a-z])(?:\d)(?:[A-Z]".
Proof. vm_compute. reflexivity. Qed.

Example minimize_pattern_group :
  Optimizer.minimize_pattern (pystr "(?:abc)") = pystr "abc"
  /\ Optimizer.minimize_pattern (pystr "(?:abc|def)") = pystr "(?:abc|def)".
Proof. split; reflexivity. Qed.

Example optimize_readability_alternation :
  Optimizer.optimize_readability (pystr "foo|bar|baz") = pystr "foo | bar | baz"
  /\ Optimizer.optimize_readability (pystr "[a|b]") = pystr "[a|b]".
Proof. split; reflexivity. Qed.

Example optimize_pattern_invalid_priority :
  Optimizer.optimize_pattern (pystr "abc") (pystr "invalid")
  = Raise (ValueError "Priority must be 'size' or 'readability'" []).
Proof. reflexivity. Qed.

Example create_optimized_pattern_launch (unicode_isdigit : Z -> bool) :
  Regen.create_optimized_pattern unicode_isdigit
    [pystr "2024_Launch"; pystr "2025_Launch"]
  = Ok (pystr "202[45]_Launch").
Proof. vm_compute. reflexivity. Qed.

Example create_optimized_pattern_version (unicode_isdigit : Z -> bool) :
  Regen.create_optimized_pattern unicode_isdigit [pystr "v1.2.3"; pystr "v1.2.4"]
  = Ok (pystr "v1\.2\.[34]").
Proof. vm_compute. reflexivity. Qed.

Example create_optimized_pattern_non_numeric (unicode_isdigit : Z -> bool) :
  Regen.create_optimized_pattern unicode_isdigit
    [pystr "test_a"; pystr "test_b"; pystr "test_c"]
  = Ok (pystr "(?:test_a|test_b|test_c)").
Proof. vm_compute. reflexivity. Qed.

Example create_alternation_files :
  Regen.create_alternation [pystr "file.txt"; pystr "file.pdf"]
  = pystr "(?:file\.txt|file\.pdf)".
Proof. reflexivity. Qed.

Example generate_pattern_single_and_range :
  generate_fresh {[ 65 ]} (pystr "size") = Ok (pystr "A")
  /\ generate_fresh {[ 46 ]} (pystr "size") = Ok (pystr "\.")
  /\ generate_fresh ∅ (pystr "size") = Ok (pystr "[]")
  /\ RegexGenerator.generate_range_pattern 0x0041 0x005A = Ok (pystr "[A-Z]").
Proof. repeat split; vm_compute; reflexivity. Qed.

Example code_point_set_validation :
  fst (CodePointSet.__init__ (Some [-1]) [])
  = Raise (ValueError "Invalid code point" [-1])
  /\ fst (CodePointSet.__init__ (Some [0x110000]) [])
     = Raise (ValueError "Invalid code point" [0x110000]).
Proof. split; reflexivity. Qed.

(* ===================================================================== *)
(** * [CodePointRange] *)
(* ===================================================================== *)

(** Case analysis on every integer comparison in sight. *)
Ltac split_comparisons :=
  repeat match goal with
         | H : context [?a <=? ?b] |- _ => destruct (Z.leb_spec a b)
         | H : context [?a <? ?b] |- _ => destruct (Z.ltb_spec a b)
         | H : context [?a =? ?b] |- _ => destruct (Z.eqb_spec a b)
         | |- context [?a <=? ?b] => destruct (Z.leb_spec a b)
         | |- context [?a <? ?b] => destruct (Z.ltb_spec a b)
         | |- context [?a =? ?b] => destruct (Z.eqb_spec a b)
         end.

Lemma range_valid_iff (r : CodePointRange.t) :
  CodePointRange.__post_init__ r = Ok tt
  <-> 0 <= CodePointRange.start r <= CodePointRange.end_ r
      /\ CodePointRange.end_ r <= 0x10FFFF.
Proof.
  unfold CodePointRange.__post_init__.
  split_comparisons; simpl; split; intros Hgoal; try discriminate; try lia; reflexivity.
Qed.

Lemma range_contains_iff (r : CodePointRange.t) (p : Z) :
  CodePointRange.__contains__ r p = true
  <-> CodePointRange.start r <= p <= CodePointRange.end_ r.
Proof.
  unfold CodePointRange.__contains__.
  split_comparisons; simpl; split; intros Hgoal; try discriminate; try lia; reflexivity.
Qed.

(** X1: [overlaps] is symmetric, and two valid ranges overlap exactly
    when they share a code point. *)
Theorem range_overlaps_iff_shared_point (a b : CodePointRange.t) :
  CodePointRange.__post_init__ a = Ok tt ->
  CodePointRange.__post_init__ b = Ok tt ->
  CodePointRange.overlaps a b = CodePointRange.overlaps b a
  /\ (CodePointRange.overlaps a b = true
      <-> exists p, CodePointRange.__contains__ a p = true
                    /\ CodePointRange.__contains__ b p = true).
Proof.
  intros Ha Hb. apply range_valid_iff in Ha, Hb. split.
  - unfold CodePointRange.overlaps. rewrite orb_comm. reflexivity.
  - split.
    + intros Hover.
      exists (Z.max (CodePointRange.start a) (CodePointRange.start b)).
      rewrite !range_contains_iff.
      unfold CodePointRange.overlaps in Hover.
      split_comparisons; simpl in Hover; try discriminate; lia.
    + intros (p & Hpa & Hpb). apply range_contains_iff in Hpa, Hpb.
      unfold CodePointRange.overlaps.
      split_comparisons; simpl; try reflexivity; lia.
Qed.

Lemma range_overlaps_iff_shared_point_witness :
  CodePointRange.__post_init__ (CodePointRange.mk 65 70) = Ok tt
  /\ CodePointRange.__post_init__ (CodePointRange.mk 68 90) = Ok tt
  /\ (CodePointRange.overlaps (CodePointRange.mk 65 70) (CodePointRange.mk 68 90) = true
      <-> exists p,
            CodePointRange.__contains__ (CodePointRange.mk 65 70) p = true
            /\ CodePointRange.__contains__ (CodePointRange.mk 68 90) p = true).
Proof.
  split; [reflexivity |]. split; [reflexivity |].
  apply (range_overlaps_iff_shared_point
           (CodePointRange.mk 65 70) (CodePointRange.mk 68 90));
    reflexivity.
Defined.

(** X2: [merge] of two valid ranges returns exactly when they overlap or
    are adjacent; the result is then a valid range whose points are those
    of the two operands.  Otherwise it raises [ValueError]. *)
Theorem range_merge_is_union (a b : CodePointRange.t) :
  CodePointRange.__post_init__ a = Ok tt ->
  CodePointRange.__post_init__ b = Ok tt ->
  match CodePointRange.merge a b with
  | Ok m =>
      CodePointRange.overlaps a b || CodePointRange.adjacent_to a b = true
      /\ CodePointRange.__post_init__ m = Ok tt
      /\ forall p, CodePointRange.__contains__ m p = true
                   <-> CodePointRange.__contains__ a p = true
                       \/ CodePointRange.__contains__ b p = true
  | Raise e =>
      CodePointRange.overlaps a b || CodePointRange.adjacent_to a b = false
      /\ e = ValueError "Cannot merge non-overlapping, non-adjacent ranges" []
  end.
Proof.
  intros Ha Hb. apply range_valid_iff in Ha, Hb.
  unfold CodePointRange.merge.
  destruct (CodePointRange.overlaps a b || CodePointRange.adjacent_to a b) eqn:Hmerge;
    simpl; [| split; reflexivity].
  set (m := CodePointRange.mk
              (CodePointRange.start a `min` CodePointRange.start b)
              (CodePointRange.end_ a `max` CodePointRange.end_ b)).
  assert (CodePointRange.__post_init__ m = Ok tt) as Hm.
  { apply range_valid_iff. subst m. simpl. lia. }
  unfold CodePointRange.create. fold m. rewrite Hm. simpl.
  split; [reflexivity |]. split; [exact Hm |].
  intros p. rewrite !range_contains_iff. subst m. simpl.
  unfold CodePointRange.overlaps, CodePointRange.adjacent_to in Hmerge.
  split_comparisons; simpl in Hmerge; try discriminate; lia.
Qed.

Lemma range_merge_is_union_witness :
  CodePointRange.__post_init__ (CodePointRange.mk 65 70) = Ok tt
  /\ CodePointRange.__post_init__ (CodePointRange.mk 71 90) = Ok tt
  /\ CodePointRange.merge (CodePointRange.mk 65 70) (CodePointRange.mk 71 90)
     = Ok (CodePointRange.mk 65 90)
  /\ match CodePointRange.merge (CodePointRange.mk 65 70) (CodePointRange.mk 71 90) with
     | Ok m => CodePointRange.__post_init__ m = Ok tt
     | Raise _ => False
     end.
Proof.
  split; [reflexivity |]. split; [reflexivity |]. split; [reflexivity |].
  pose proof (range_merge_is_union
                (CodePointRange.mk 65 70) (CodePointRange.mk 71 90)
                eq_refl eq_refl) as H.
  destruct (CodePointRange.merge (CodePointRange.mk 65 70) (CodePointRange.mk 71 90)).
  - apply H.
  - destruct H as [H _]. discriminate H.
Defined.

(* ===================================================================== *)
(** * [CodePointSet]: what each operation does to the store *)
(* ===================================================================== *)

Lemma bind_raise {A B} (m : M A) (k : A -> M B) (h h' : heap) (e : exn) :
  m h = (Raise e, h') -> bind m k h = (Raise e, h').
Proof.
  intros Hm. unfold bind. rewrite Hm. reflexivity.
Qed.

Lemma lookup_new (h : heap) (pts : gset Z) : (h ++ [pts]) !! length h = Some pts.
Proof. apply list_lookup_middle. reflexivity. Qed.

Lemma insert_new (h : heap) (old pts : gset Z) :
  <[length h := pts]> (h ++ [old]) = h ++ [pts].
Proof.
  rewrite insert_app_r_alt by lia. rewrite Nat.sub_diag. reflexivity.
Qed.

Lemma lookup_old (h : heap) (self : loc) (pts new : gset Z) :
  h !! self = Some pts -> (h ++ [new]) !! self = Some pts.
Proof. apply lookup_app_l_Some. Qed.

Lemma init_empty (h : heap) :
  CodePointSet.__init__ None h = (Ok (length h), h ++ [∅]).
Proof. reflexivity. Qed.

Lemma add_returns (h : heap) (self : loc) (pts : gset Z) (p : Z) :
  h !! self = Some pts ->
  0 <= p <= 0x10FFFF ->
  CodePointSet.add self p h = (Ok tt, <[self := pts ∪ {[p]}]> h).
Proof.
  intros Hself Hp. unfold CodePointSet.add.
  destruct (negb _) eqn:Hcheck.
  { apply negb_true_iff, andb_false_iff in Hcheck as [H | H];
      [apply Z.leb_gt in H | apply Z.leb_gt in H]; lia. }
  rewrite (bind_ok _ _ h h pts) by (apply get_points_ok, Hself).
  eapply set_points_ok, Hself.
Qed.

(** A loop of in-place updates [self._points = f(self._points, x)]. *)
Lemma update_loop (self : loc) (f : gset Z -> Z -> gset Z) (xs : list Z)
    (h : heap) (pts : gset Z) :
  h !! self = Some pts ->
  for_ xs
    (fun point =>
       (_points <- CodePointSet.get_points self ;;
        CodePointSet.set_points self (f _points point))%M) h
  = (Ok tt, <[self := fold_left f xs pts]> h).
Proof.
  revert h pts. induction xs as [| x xs IH]; intros h pts Hself.
  - simpl. unfold ret. rewrite list_insert_id by exact Hself. reflexivity.
  - cbn [for_ fold_left].
    assert (self < length h)%nat as Hlt by (eapply lookup_lt_Some, Hself).
    rewrite (bind_ok _ _ h (<[self := f pts x]> h) tt).
    2:{ rewrite (bind_ok _ _ h h pts) by (apply get_points_ok, Hself).
        eapply set_points_ok, Hself. }
    rewrite (IH _ (f pts x)) by (apply list_lookup_insert_eq, Hlt).
    rewrite list_insert_insert_eq. reflexivity.
Qed.

Lemma fold_left_add (xs : list Z) (pts : gset Z) :
  fold_left (fun s x => s ∪ {[x]}) xs pts = pts ∪ list_to_set xs.
Proof.
  revert pts. induction xs as [| x xs IH]; intros pts; simpl.
  - rewrite union_empty_r_L. reflexivity.
  - rewrite IH. apply set_eq. intros y.
    rewrite !elem_of_union. tauto.
Qed.

Lemma add_range_returns (h : heap) (self : loc) (pts : gset Z) (start end_ : Z) :
  h !! self = Some pts ->
  0 <= start <= end_ -> end_ <= 0x10FFFF ->
  CodePointSet.add_range self start end_ h
  = (Ok tt, <[self := pts ∪ list_to_set (py_range start (end_ + 1))]> h).
Proof.
  intros Hself Hse Hmax. unfold CodePointSet.add_range.
  destruct (negb _) eqn:Hcheck.
  { apply negb_true_iff in Hcheck. split_comparisons; simpl in Hcheck;
      try discriminate; lia. }
  rewrite (update_loop self (fun s x => s ∪ {[x]}) _ h pts Hself).
  rewrite fold_left_add. reflexivity.
Qed.

(** The loop of [__init__] and [from_string] over valid elements. *)
Lemma add_loop_returns (self : loc) (cps : list Z) (h : heap) (pts : gset Z) :
  h !! self = Some pts ->
  Forall (fun p => 0 <= p <= 0x10FFFF) cps ->
  for_ cps (fun point => CodePointSet.add self point) h
  = (Ok tt, <[self := pts ∪ list_to_set cps]> h).
Proof.
  revert h pts. induction cps as [| x cps IH]; intros h pts Hself Hvalid.
  - simpl. unfold ret.
    rewrite union_empty_r_L, list_insert_id by exact Hself. reflexivity.
  - apply Forall_cons in Hvalid as [Hx Hvalid]. cbn [for_].
    assert (self < length h)%nat as Hlt by (eapply lookup_lt_Some, Hself).
    rewrite (bind_ok _ _ h (<[self := pts ∪ {[x]}]> h) tt)
      by (apply add_returns; assumption).
    rewrite (IH _ (pts ∪ {[x]})) by (try apply list_lookup_insert_eq; assumption).
    rewrite list_insert_insert_eq. do 2 f_equal.
    rewrite list_to_set_cons. apply set_eq. intros y.
    rewrite !elem_of_union. tauto.
Qed.

(** The same loop when an invalid element follows valid ones. *)
Lemma add_loop_raises (self : loc) (good rest : list Z) (bad : Z)
    (h : heap) (pts : gset Z) :
  h !! self = Some pts ->
  Forall (fun p => 0 <= p <= 0x10FFFF) good ->
  ~ (0 <= bad <= 0x10FFFF) ->
  for_ (good ++ bad :: rest) (fun point => CodePointSet.add self point) h
  = (Raise (ValueError "Invalid code point" [bad]),
     <[self := pts ∪ list_to_set good]> h).
Proof.
  revert h pts. induction good as [| x good IH]; intros h pts Hself Hvalid Hbad.
  - cbn [app for_].
    rewrite (bind_raise _ _ h h (ValueError "Invalid code point" [bad]))
      by (apply add_rejects, Hbad).
    simpl. rewrite union_empty_r_L, list_insert_id by exact Hself. reflexivity.
  - apply Forall_cons in Hvalid as [Hx Hvalid]. cbn [app for_].
    assert (self < length h)%nat as Hlt by (eapply lookup_lt_Some, Hself).
    rewrite (bind_ok _ _ h (<[self := pts ∪ {[x]}]> h) tt)
      by (apply add_returns; assumption).
    rewrite (IH _ (pts ∪ {[x]})) by (try apply list_lookup_insert_eq; assumption).
    rewrite list_insert_insert_eq. do 2 f_equal.
    rewrite list_to_set_cons. apply set_eq. intros y.
    rewrite !elem_of_union. tauto.
Qed.

(** X3: built from valid code points, [CodePointSet(code_points)] and
    [from_string(text)] return a new object (at an address not in use)
    whose members are exactly the given points; the objects already in
    the store are untouched. *)
Theorem constructors_collect_valid_points (h : heap) (cps : list Z) :
  Forall (fun p => 0 <= p <= 0x10FFFF) cps ->
  CodePointSet.__init__ (Some cps) h = (Ok (length h), h ++ [list_to_set cps])
  /\ CodePointSet.from_string cps h = (Ok (length h), h ++ [list_to_set cps]).
Proof.
  intros Hvalid.
  assert (for_ cps (fun point => CodePointSet.add (length h) point) (h ++ [∅])
          = (Ok tt, h ++ [list_to_set cps])) as Hloop.
  { rewrite (add_loop_returns _ cps _ ∅ (lookup_new h ∅) Hvalid).
    rewrite union_empty_l_L, insert_new. reflexivity. }
  split.
  - unfold CodePointSet.__init__.
    rewrite (bind_ok _ _ h (h ++ [∅]) (length h)) by reflexivity.
    rewrite (bind_ok _ _ _ _ tt Hloop). reflexivity.
  - unfold CodePointSet.from_string.
    rewrite (bind_ok _ _ h (h ++ [∅]) (length h)) by apply init_empty.
    rewrite (bind_ok _ _ _ _ tt Hloop). reflexivity.
Qed.

Lemma constructors_collect_valid_points_witness :
  Forall (fun p => 0 <= p <= 0x10FFFF) [72; 105; 33]
  /\ CodePointSet.from_string [72; 105; 33] []
     = (Ok 0%nat, [list_to_set [72; 105; 33]]).
Proof.
  assert (Forall (fun p => 0 <= p <= 0x10FFFF) [72; 105; 33]) as Hvalid
    by (repeat constructor; lia).
  split; [exact Hvalid |].
  apply (constructors_collect_valid_points [] [72; 105; 33] Hvalid).
Defined.

(** X4: when the collection given to the constructor holds an invalid
    integer, the call raises [ValueError] for the first such element and
    returns no set; the objects already in the store are untouched (the
    half-built object stays behind at a new address, unreferenced). *)
Theorem constructor_rejects_invalid_element (h : heap) (good rest : list Z) (bad : Z) :
  Forall (fun p => 0 <= p <= 0x10FFFF) good ->
  ~ (0 <= bad <= 0x10FFFF) ->
  CodePointSet.__init__ (Some (good ++ bad :: rest)) h
  = (Raise (ValueError "Invalid code point" [bad]), h ++ [list_to_set good]).
Proof.
  intros Hvalid Hbad. unfold CodePointSet.__init__.
  rewrite (bind_ok _ _ h (h ++ [∅]) (length h)) by reflexivity.
  erewrite bind_raise; [reflexivity |].
  rewrite (add_loop_raises _ good rest bad _ ∅ (lookup_new h ∅) Hvalid Hbad).
  rewrite union_empty_l_L, insert_new. reflexivity.
Qed.

Lemma constructor_rejects_invalid_element_witness :
  Forall (fun p => 0 <= p <= 0x10FFFF) [65]
  /\ ~ (0 <= -1 <= 0x10FFFF)
  /\ CodePointSet.__init__ (Some [65; -1; 66]) []
     = (Raise (ValueError "Invalid code point" [-1]), [list_to_set [65]]).
Proof.
  assert (Forall (fun p => 0 <= p <= 0x10FFFF) [65]) as Hvalid
    by (repeat constructor; lia).
  split; [exact Hvalid |]. split; [lia |].
  apply (constructor_rejects_invalid_element [] [65] [66] (-1) Hvalid). lia.
Defined.

(** X5: adding a valid code point makes it a member and leaves every
    other object alone; adding it a second time changes nothing. *)
Theorem add_inserts_and_is_idempotent (h : heap) (self : loc) (pts : gset Z) (p : Z) :
  h !! self = Some pts ->
  0 <= p <= 0x10FFFF ->
  let h' := <[self := pts ∪ {[p]}]> h in
  CodePointSet.add self p h = (Ok tt, h')
  /\ CodePointSet.__contains__ self p h' = (Ok true, h')
  /\ CodePointSet.add self p h' = (Ok tt, h')
  /\ forall other, other <> self -> h' !! other = h !! other.
Proof.
  intros Hself Hp h'.
  assert (self < length h)%nat as Hlt by (eapply lookup_lt_Some, Hself).
  assert (h' !! self = Some (pts ∪ {[p]})) as Hself'
    by (apply list_lookup_insert_eq, Hlt).
  split; [apply add_returns; assumption |]. split; [| split].
  - unfold CodePointSet.__contains__.
    rewrite (bind_ok _ _ h' h' (pts ∪ {[p]})) by (apply get_points_ok, Hself').
    unfold ret. rewrite bool_decide_eq_true_2; [reflexivity |].
    apply elem_of_union_r, elem_of_singleton. reflexivity.
  - rewrite (add_returns h' self (pts ∪ {[p]}) p Hself' Hp).
    subst h'. rewrite list_insert_insert_eq. do 2 f_equal.
    apply set_eq. intros y. rewrite !elem_of_union. tauto.
  - intros other Hother. subst h'. apply list_lookup_insert_ne. congruence.
Qed.

Lemma add_inserts_and_is_idempotent_witness :
  ([ {[ 65 ]} ] : heap) !! 0%nat = Some ({[ 65 ]} : gset Z)
  /\ 0 <= 66 <= 0x10FFFF
  /\ CodePointSet.add 0 66 [ {[ 65 ]} ]
     = (Ok tt, <[0%nat := ({[ 65 ]} : gset Z) ∪ {[ 66 ]}]> [ {[ 65 ]} ]).
Proof.
  split; [reflexivity |]. split; [lia |].
  apply (add_inserts_and_is_idempotent [ {[ 65 ]} ] 0%nat {[ 65 ]} 66 eq_refl).
  lia.
Defined.

(** X6: [add_range] with valid bounds adds exactly the points from
    [start] to [end], both included. *)
Theorem add_range_adds_interval (h : heap) (self : loc) (pts : gset Z)
    (start end_ : Z) :
  h !! self = Some pts ->
  0 <= start <= end_ -> end_ <= 0x10FFFF ->
  exists pts',
    CodePointSet.add_range self start end_ h = (Ok tt, <[self := pts']> h)
    /\ forall p, p ∈ pts' <-> p ∈ pts \/ start <= p <= end_.
Proof.
  intros Hself Hse Hmax.
  exists (pts ∪ list_to_set (py_range start (end_ + 1))).
  split; [apply add_range_returns; assumption |].
  intros p. rewrite elem_of_union, elem_of_list_to_set, py_range_bounds.
  intuition lia.
Qed.

Lemma add_range_adds_interval_witness :
  ([ {[ 65 ]} ] : heap) !! 0%nat = Some ({[ 65 ]} : gset Z)
  /\ 0 <= 48 <= 57 /\ 57 <= 0x10FFFF
  /\ exists pts',
       CodePointSet.add_range 0 48 57 [ {[ 65 ]} ] = (Ok tt, <[0%nat := pts']> [ {[ 65 ]} ])
       /\ forall p, p ∈ pts' <-> p ∈ ({[ 65 ]} : gset Z) \/ 48 <= p <= 57.
Proof.
  split; [reflexivity |]. split; [lia |]. split; [lia |].
  apply (add_range_adds_interval [ {[ 65 ]} ] 0%nat {[ 65 ]} 48 57 eq_refl); lia.
Defined.

(** X7: [remove] and [remove_range] return for any integers and take out
    exactly the given point, respectively the points from [start] to
    [end]; nothing is removed when [end < start]. *)
Theorem remove_range_removes_interval (h : heap) (self : loc) (pts : gset Z)
    (start end_ : Z) :
  h !! self = Some pts ->
  exists pts',
    CodePointSet.remove_range self start end_ h = (Ok tt, <[self := pts']> h)
    /\ (forall p, p ∈ pts' <-> p ∈ pts /\ ~ (start <= p <= end_))
    /\ (end_ < start -> pts' = pts)
    /\ CodePointSet.remove self start h = (Ok tt, <[self := pts ∖ {[start]}]> h).
Proof.
  intros Hself.
  exists (pts ∖ list_to_set (py_range start (end_ + 1))).
  split; [apply remove_range_returns, Hself |].
  assert (forall p, p ∈ pts ∖ list_to_set (py_range start (end_ + 1))
                    <-> p ∈ pts /\ ~ (start <= p <= end_)) as Hmem.
  { intros p. rewrite elem_of_difference, elem_of_list_to_set, py_range_bounds.
    intuition lia. }
  split; [exact Hmem |]. split.
  - intros Hempty. apply set_eq. intros p. rewrite Hmem. intuition lia.
  - apply remove_returns, Hself.
Qed.

Lemma remove_range_removes_interval_witness :
  ([list_to_set [65; 66; 67]] : heap) !! 0%nat = Some (list_to_set [65; 66; 67] : gset Z)
  /\ exists pts',
       CodePointSet.remove_range 0 66 90 [list_to_set [65; 66; 67]]
       = (Ok tt, <[0%nat := pts']> [list_to_set [65; 66; 67]])
       /\ forall p, p ∈ pts' <-> p ∈ (list_to_set [65; 66; 67] : gset Z)
                                  /\ ~ (66 <= p <= 90).
Proof.
  split; [reflexivity |].
  destruct (remove_range_removes_interval
              [list_to_set [65; 66; 67]] 0%nat (list_to_set [65; 66; 67]) 66 90 eq_refl)
    as (pts' & Hrun & Hmem & _).
  exists pts'. split; [exact Hrun | exact Hmem].
Defined.

(** Running one of [__or__], [__and__], [__sub__]. *)
Lemma binary_returns (f : gset Z -> gset Z -> gset Z) (h : heap)
    (self other : loc) (a b : gset Z) :
  h !! self = Some a ->
  h !! other = Some b ->
  (result <- CodePointSet.__init__ None ;;
   a <- CodePointSet.get_points self ;;
   b <- CodePointSet.get_points other ;;
   CodePointSet.set_points result (f a b) ;;
   ret result)%M h
  = (Ok (length h), h ++ [f a b]).
Proof.
  intros Hself Hother.
  rewrite (bind_ok _ _ h (h ++ [∅]) (length h)) by apply init_empty.
  rewrite (bind_ok _ _ _ (h ++ [∅]) a) by (apply get_points_ok, lookup_old, Hself).
  rewrite (bind_ok _ _ _ (h ++ [∅]) b) by (apply get_points_ok, lookup_old, Hother).
  rewrite (bind_ok _ _ _ (h ++ [f a b]) tt).
  2:{ rewrite (set_points_ok _ _ ∅) by apply lookup_new.
      rewrite insert_new. reflexivity. }
  reflexivity.
Qed.

(** X8: union, intersection and difference return a new object holding
    the union, intersection, difference of the operands' members; the
    operands and every other object are unchanged. *)
Theorem set_operators_build_new_set (h : heap) (self other : loc) (a b : gset Z) :
  h !! self = Some a ->
  h !! other = Some b ->
  CodePointSet.__or__ self other h = (Ok (length h), h ++ [a ∪ b])
  /\ CodePointSet.__and__ self other h = (Ok (length h), h ++ [a ∩ b])
  /\ CodePointSet.__sub__ self other h = (Ok (length h), h ++ [a ∖ b]).
Proof.
  intros Hself Hother. repeat split.
  - apply (binary_returns union); assumption.
  - apply (binary_returns intersection); assumption.
  - apply (binary_returns difference); assumption.
Qed.

Lemma set_operators_build_new_set_witness :
  ([list_to_set [65; 66]; list_to_set [66; 67]] : heap) !! 0%nat
  = Some (list_to_set [65; 66] : gset Z)
  /\ ([list_to_set [65; 66]; list_to_set [66; 67]] : heap) !! 1%nat
     = Some (list_to_set [66; 67] : gset Z)
  /\ CodePointSet.__and__ 0 1 [list_to_set [65; 66]; list_to_set [66; 67]]
     = (Ok 2%nat,
        [list_to_set [65; 66]; list_to_set [66; 67]]
        ++ [(list_to_set [65; 66] : gset Z) ∩ list_to_set [66; 67]]).
Proof.
  split; [reflexivity |]. split; [reflexivity |].
  apply (set_operators_build_new_set
           [list_to_set [65; 66]; list_to_set [66; 67]] 0%nat 1%nat
           (list_to_set [65; 66]) (list_to_set [66; 67]) eq_refl eq_refl).
Defined.

(** X9: [copy] returns a new object with the same members, and the two
    are independent: adding a point to the copy leaves the original as
    it was. *)
Theorem copy_is_independent (h : heap) (self : loc) (pts : gset Z) (p : Z) :
  h !! self = Some pts ->
  0 <= p <= 0x10FFFF ->
  CodePointSet.copy self h = (Ok (length h), h ++ [pts])
  /\ CodePointSet.add (length h) p (h ++ [pts]) = (Ok tt, h ++ [pts ∪ {[p]}])
  /\ (h ++ [pts ∪ {[p]}]) !! self = Some pts.
Proof.
  intros Hself Hp. split; [| split].
  - unfold CodePointSet.copy.
    rewrite (bind_ok _ _ h (h ++ [∅]) (length h)) by apply init_empty.
    rewrite (bind_ok _ _ _ (h ++ [∅]) pts) by (apply get_points_ok, lookup_old, Hself).
    rewrite (bind_ok _ _ _ (h ++ [pts]) tt).
    2:{ rewrite (set_points_ok _ _ ∅) by apply lookup_new.
        rewrite insert_new. reflexivity. }
    reflexivity.
  - rewrite (add_returns _ _ pts p (lookup_new h pts) Hp).
    rewrite insert_new. reflexivity.
  - apply lookup_old, Hself.
Qed.

Lemma copy_is_independent_witness :
  ([ {[ 65 ]} ] : heap) !! 0%nat = Some ({[ 65 ]} : gset Z)
  /\ 0 <= 66 <= 0x10FFFF
  /\ CodePointSet.copy 0 [ {[ 65 ]} ] = (Ok 1%nat, [ {[ 65 ]} ] ++ [ {[ 65 ]} ]).
Proof.
  split; [reflexivity |]. split; [lia |].
  apply (copy_is_independent [ {[ 65 ]} ] 0%nat {[ 65 ]} 66 eq_refl). lia.
Defined.

(** X10: iterating a set yields its members in strictly ascending order,
    each one once, and [len] is the number of points yielded. *)
Theorem iteration_is_ascending (h : heap) (self : loc) (pts : gset Z) :
  h !! self = Some pts ->
  exists points,
    CodePointSet.__iter__ self h = (Ok points, h)
    /\ StronglySorted Z.lt points
    /\ (forall p, p ∈ points <-> p ∈ pts)
    /\ CodePointSet.__len__ self h = (Ok (Z.of_nat (length points)), h).
Proof.
  intros Hself. exists (sorted pts).
  split; [| split; [apply sorted_strictly_ascending |
                    split; [apply sorted_elem_of |]]].
  - unfold CodePointSet.__iter__.
    rewrite (bind_ok _ _ h h pts) by (apply get_points_ok, Hself). reflexivity.
  - unfold CodePointSet.__len__.
    rewrite (bind_ok _ _ h h pts) by (apply get_points_ok, Hself).
    unfold ret, sorted. rewrite merge_sort_Permutation. reflexivity.
Qed.

Lemma iteration_is_ascending_witness :
  ([list_to_set [70; 65; 66]] : heap) !! 0%nat = Some (list_to_set [70; 65; 66] : gset Z)
  /\ exists points,
       CodePointSet.__iter__ 0 [list_to_set [70; 65; 66]]
       = (Ok points, [list_to_set [70; 65; 66]])
       /\ StronglySorted Z.lt points.
Proof.
  split; [reflexivity |].
  destruct (iteration_is_ascending
              [list_to_set [70; 65; 66]] 0%nat (list_to_set [70; 65; 66]) eq_refl)
    as (points & Hrun & Hsorted & _).
  exists points. split; [exact Hrun | exact Hsorted].
Defined.

(** X11: [from_range] with valid bounds returns a new set holding the
    points from [start] to [end]; with any other bounds it raises
    [ValueError] and returns no set.  [from_single] is the case
    [start = end]. *)
Theorem from_range_builds_interval (h : heap) (start end_ : Z) :
  (0 <= start <= end_ /\ end_ <= 0x10FFFF ->
   CodePointSet.from_range start end_ h
   = (Ok (length h), h ++ [list_to_set (py_range start (end_ + 1))]))
  /\ (~ (0 <= start <= end_ /\ end_ <= 0x10FFFF) ->
      CodePointSet.from_range start end_ h
      = (Raise (ValueError "Invalid code point range" [start; end_]), h ++ [∅]))
  /\ (0 <= start <= 0x10FFFF ->
      CodePointSet.from_single start h = (Ok (length h), h ++ [ {[ start ]} ])).
Proof.
  assert (0 <= start <= end_ /\ end_ <= 0x10FFFF ->
          CodePointSet.from_range start end_ h
          = (Ok (length h), h ++ [list_to_set (py_range start (end_ + 1))])) as Hok.
  { intros [Hse Hmax]. unfold CodePointSet.from_range.
    rewrite (bind_ok _ _ h (h ++ [∅]) (length h)) by apply init_empty.
    rewrite (bind_ok _ _ _ (h ++ [list_to_set (py_range start (end_ + 1))]) tt).
    2:{ rewrite (add_range_returns _ _ ∅) by (try apply lookup_new; lia).
        rewrite insert_new, union_empty_l_L. reflexivity. }
    reflexivity. }
  assert (0 <= start <= 0x10FFFF ->
          CodePointSet.from_range start start h
          = (Ok (length h), h ++ [ {[ start ]} ])) as Hok_single.
  { intros Hp. unfold CodePointSet.from_range.
    rewrite (bind_ok _ _ h (h ++ [∅]) (length h)) by apply init_empty.
    rewrite (bind_ok _ _ _ (h ++ [ {[ start ]} ]) tt).
    2:{ rewrite (add_range_returns _ _ ∅) by (try apply lookup_new; lia).
        rewrite insert_new, union_empty_l_L. unfold py_range.
        replace (start + 1 - start) with 1 by lia.
        rewrite seqZ_cons by lia. change (Z.pred 1) with 0.
        change (seqZ (Z.succ start) 0) with (@nil Z).
        rewrite list_to_set_cons, list_to_set_nil, union_empty_r_L. reflexivity. }
    reflexivity. }
  split; [exact Hok |]. split.
  - intros Hbad. unfold CodePointSet.from_range.
    rewrite (bind_ok _ _ h (h ++ [∅]) (length h)) by apply init_empty.
    erewrite bind_raise; [reflexivity |].
    unfold CodePointSet.add_range.
    destruct (negb _) eqn:Hcheck; [reflexivity |].
    apply negb_false_iff in Hcheck.
    split_comparisons; simpl in Hcheck; try discriminate; lia.
  - intros Hp. unfold CodePointSet.from_single.
    rewrite Hok_single by lia. reflexivity.
Qed.

(** ** The complement *)

Lemma last_current_ge (points : list Z) (current : Z) :
  Forall (fun p => current <= p) points ->
  StronglySorted Z.lt points ->
  current <= last_current current points.
Proof.
  revert current. induction points as [| p l IH]; intros current Hge Hsorted; simpl.
  - lia.
  - apply Forall_cons in Hge as [Hp _].
    apply StronglySorted_inv in Hsorted as [Hsorted Hall].
    assert (p + 1 <= last_current (p + 1) l); [| lia].
    apply IH; [| exact Hsorted].
    eapply Forall_impl; [exact Hall |]. simpl. intros q Hq. lia.
Qed.

Lemma last_current_le (points : list Z) (current bound : Z) :
  current <= bound + 1 ->
  Forall (fun p => p <= bound) points ->
  last_current current points <= bound + 1.
Proof.
  revert current. induction points as [| p l IH]; intros current Hcur Hle; simpl.
  - exact Hcur.
  - apply Forall_cons in Hle as [Hp Hle]. apply IH; [lia | exact Hle].
Qed.

Lemma last_current_gt (points : list Z) (current q : Z) :
  q ∈ points ->
  StronglySorted Z.lt points ->
  q < last_current current points.
Proof.
  revert current. induction points as [| p l IH]; intros current Hin Hsorted;
    [inversion Hin |].
  apply StronglySorted_inv in Hsorted as [Hsorted Hall]. simpl.
  apply elem_of_cons in Hin as [-> | Hin]; [| apply IH; assumption].
  assert (p + 1 <= last_current (p + 1) l); [| lia].
  apply last_current_ge; [| exact Hsorted].
  eapply Forall_impl; [exact Hall |]. simpl. intros x Hx. lia.
Qed.

Lemma elem_of_gaps (points : list Z) (current q : Z) :
  Forall (fun p => current <= p) points ->
  StronglySorted Z.lt points ->
  q ∈ gaps current points
  <-> current <= q < last_current current points /\ q ∉ points.
Proof.
  revert current. induction points as [| p l IH]; intros current Hge Hsorted; simpl.
  - rewrite elem_of_empty. split; [tauto | lia].
  - apply Forall_cons in Hge as [Hp _].
    apply StronglySorted_inv in Hsorted as [Hsorted Hall].
    assert (Forall (fun x => p + 1 <= x) l) as Hge'.
    { eapply Forall_impl; [exact Hall |]. simpl. intros x Hx. lia. }
    pose proof (last_current_ge l (p + 1) Hge' Hsorted) as Hlast.
    rewrite elem_of_union, elem_of_list_to_set, py_range_bounds.
    rewrite (IH (p + 1) Hge' Hsorted), not_elem_of_cons.
    rewrite Forall_forall in Hall.
    split.
    + intros [Hq | (Hq & Hnot)].
      * split; [lia |]. split; [lia |].
        intros Hin. specialize (Hall q Hin). lia.
      * split; [lia |]. split; [lia | exact Hnot].
    + intros (Hq & Hne & Hnot).
      destruct (Z.lt_ge_cases q p); [left; lia | right; split; [lia | exact Hnot]].
Qed.

(** The loop of [__invert__]: the result object, at the address
    [length h], receives the gaps below and between the points. *)
Lemma invert_loop (h : heap) (points : list Z) (current : Z) (c : gset Z) :
  0 <= current ->
  Forall (fun p => current <= p <= 0x10FFFF) points ->
  StronglySorted Z.lt points ->
  for_acc points current
    (fun current point =>
       ((if point >? current
         then CodePointSet.add_range (length h) current (point - 1)
         else ret tt) ;;
        ret (point + 1))%M) (h ++ [c])
  = (Ok (last_current current points), h ++ [c ∪ gaps current points]).
Proof.
  revert current c.
  induction points as [| p l IH]; intros current c Hcur Hrange Hsorted.
  - simpl. unfold ret. rewrite union_empty_r_L. reflexivity.
  - apply Forall_cons in Hrange as [Hp Hrange].
    apply StronglySorted_inv in Hsorted as [Hsorted Hall].
    assert (Forall (fun x => p + 1 <= x <= 0x10FFFF) l) as Hrange'.
    { rewrite Forall_forall in *. intros x Hx.
      specialize (Hall x Hx). specialize (Hrange x Hx). lia. }
    cbn [for_acc gaps last_current].
    rewrite (bind_ok _ _ _ (h ++ [c ∪ list_to_set (py_range current p)]) (p + 1)).
    + rewrite (IH (p + 1) _ ltac:(lia) Hrange' Hsorted).
      rewrite union_assoc_L. reflexivity.
    + destruct (p >? current) eqn:Hgt.
      * rewrite Z.gtb_ltb in Hgt. apply Z.ltb_lt in Hgt.
        rewrite (bind_ok _ _ _ (h ++ [c ∪ list_to_set (py_range current p)]) tt);
          [reflexivity |].
        rewrite (add_range_returns _ _ c) by (try apply lookup_new; lia).
        rewrite insert_new. replace (p - 1 + 1) with p by lia. reflexivity.
      * assert (p = current) as ->
          by (rewrite Z.gtb_ltb in Hgt; apply Z.ltb_ge in Hgt; lia).
        rewrite (bind_ok _ _ _ (h ++ [c]) tt) by reflexivity.
        unfold ret. do 3 f_equal. apply set_eq. intros q.
        rewrite elem_of_union, elem_of_list_to_set, py_range_bounds.
        intuition lia.
Qed.

Lemma invert_returns (h : heap) (self : loc) (pts : gset Z) :
  h !! self = Some pts ->
  valid_points pts ->
  exists c,
    CodePointSet.__invert__ self h = (Ok (length h), h ++ [c])
    /\ forall q, q ∈ c <-> 0 <= q <= 0x10FFFF /\ q ∉ pts.
Proof.
  intros Hself Hvalid.
  pose proof (sorted_strictly_ascending pts) as Hsorted.
  assert (Forall (fun p => 0 <= p <= 0x10FFFF) (sorted pts)) as Hrange.
  { apply Forall_forall. intros p Hp. apply Hvalid, sorted_elem_of, Hp. }
  assert (Forall (fun p => 0 <= p) (sorted pts)) as Hge.
  { eapply Forall_impl; [exact Hrange |]. simpl. intros; lia. }
  assert (Forall (fun p => p <= 0x10FFFF) (sorted pts)) as Hle.
  { eapply Forall_impl; [exact Hrange |]. simpl. intros; lia. }
  pose proof (last_current_ge _ 0 Hge Hsorted) as Hlast0.
  pose proof (last_current_le _ 0 0x10FFFF ltac:(lia) Hle) as Hlast1.
  set (current := last_current 0 (sorted pts)) in *.
  set (tail := if current <=? 0x10FFFF
               then list_to_set (py_range current (0x10FFFF + 1))
               else (∅ : gset Z)).
  exists (gaps 0 (sorted pts) ∪ tail). split.
  - unfold CodePointSet.__invert__.
    rewrite (bind_ok _ _ h (h ++ [∅]) (length h)) by apply init_empty.
    rewrite (bind_ok _ _ _ (h ++ [∅]) pts) by (apply get_points_ok, lookup_old, Hself).
    rewrite (bind_ok _ _ _ (h ++ [gaps 0 (sorted pts)]) current).
    2:{ rewrite (invert_loop h (sorted pts) 0 ∅ ltac:(lia) Hrange Hsorted).
        rewrite union_empty_l_L. reflexivity. }
    rewrite (bind_ok _ _ _ (h ++ [gaps 0 (sorted pts) ∪ tail]) tt); [reflexivity |].
    subst tail. destruct (current <=? 0x10FFFF) eqn:Hcur.
    + apply Z.leb_le in Hcur.
      rewrite (add_range_returns _ _ (gaps 0 (sorted pts)))
        by (try apply lookup_new; lia).
      rewrite insert_new. reflexivity.
    + unfold ret. rewrite union_empty_r_L. reflexivity.
  - intros q. rewrite elem_of_union.
    rewrite (elem_of_gaps _ 0 q Hge Hsorted). fold current.
    rewrite sorted_elem_of.
    assert (q ∈ tail <-> current <= q <= 0x10FFFF) as ->.
    { subst tail. destruct (current <=? 0x10FFFF) eqn:Hcur.
      - rewrite elem_of_list_to_set, py_range_bounds. lia.
      - apply Z.leb_gt in Hcur. rewrite elem_of_empty. lia. }
    split.
    + intros [(Hq & Hnot) | Hq]; [split; [lia | exact Hnot] |].
      split; [lia |]. intros Hin. apply sorted_elem_of in Hin.
      pose proof (last_current_gt _ 0 q Hin Hsorted) as Hlt. fold current in Hlt. lia.
    + intros (Hq & Hnot).
      destruct (Z.lt_ge_cases q current); [left; split; [lia | exact Hnot] | right; lia].
Qed.

(** X12: the complement of a set of valid code points is a new set
    holding exactly the code points of [0, 0x10FFFF] that are not
    members; the call returns (no [add_range] inside it can fail) and
    the operand is unchanged. *)
Theorem invert_is_complement (h : heap) (self : loc) (pts : gset Z) :
  h !! self = Some pts ->
  valid_points pts ->
  exists c,
    CodePointSet.__invert__ self h = (Ok (length h), h ++ [c])
    /\ forall q, q ∈ c <-> 0 <= q <= 0x10FFFF /\ q ∉ pts.
Proof. apply invert_returns. Qed.

Lemma invert_is_complement_witness :
  ([ {[ 65 ]} ] : heap) !! 0%nat = Some ({[ 65 ]} : gset Z)
  /\ valid_points {[ 65 ]}
  /\ exists c,
       CodePointSet.__invert__ 0 [ {[ 65 ]} ] = (Ok 1%nat, [ {[ 65 ]} ] ++ [c])
       /\ forall q, q ∈ c <-> 0 <= q <= 0x10FFFF /\ q ∉ ({[ 65 ]} : gset Z).
Proof.
  assert (valid_points {[ 65 ]}) as Hvalid.
  { intros p Hp. apply elem_of_singleton in Hp. lia. }
  split; [reflexivity |]. split; [exact Hvalid |].
  apply (invert_is_complement [ {[ 65 ]} ] 0%nat {[ 65 ]} eq_refl Hvalid).
Defined.

(** X13: a set and its complement compose as expected: their union is
    the whole code space [0, 0x10FFFF] and their intersection is
    empty. *)
Theorem complement_laws (h : heap) (self : loc) (pts : gset Z) :
  h !! self = Some pts ->
  valid_points pts ->
  exists c u,
    CodePointSet.__invert__ self h = (Ok (length h), h ++ [c])
    /\ CodePointSet.__or__ self (length h) (h ++ [c])
       = (Ok (S (length h)), (h ++ [c]) ++ [u])
    /\ (forall q, q ∈ u <-> 0 <= q <= 0x10FFFF)
    /\ CodePointSet.__and__ self (length h) (h ++ [c])
       = (Ok (S (length h)), (h ++ [c]) ++ [∅]).
Proof.
  intros Hself Hvalid.
  destruct (invert_returns h self pts Hself Hvalid) as (c & Hrun & Hmem).
  assert (length (h ++ [c]) = S (length h)) as Hlen
    by (rewrite length_app; simpl; lia).
  exists c, (pts ∪ c). split; [exact Hrun |]. split; [| split].
  - rewrite <- Hlen.
    apply (binary_returns union); [apply lookup_old, Hself | apply lookup_new].
  - intros q. rewrite elem_of_union, Hmem.
    destruct (decide (q ∈ pts)) as [Hin | Hnot]; [| tauto].
    pose proof (Hvalid q Hin). tauto.
  - rewrite <- Hlen.
    transitivity (Ok (length (h ++ [c])), (h ++ [c]) ++ [pts ∩ c]).
    { apply (binary_returns intersection); [apply lookup_old, Hself | apply lookup_new]. }
    do 3 f_equal. apply set_eq. intros q.
    rewrite elem_of_intersection, Hmem, elem_of_empty. tauto.
Qed.

Lemma complement_laws_witness :
  ([ {[ 65 ]} ] : heap) !! 0%nat = Some ({[ 65 ]} : gset Z)
  /\ valid_points {[ 65 ]}
  /\ exists c u,
       CodePointSet.__invert__ 0 [ {[ 65 ]} ] = (Ok 1%nat, [ {[ 65 ]} ] ++ [c])
       /\ CodePointSet.__or__ 0 1 ([ {[ 65 ]} ] ++ [c])
          = (Ok 2%nat, ([ {[ 65 ]} ] ++ [c]) ++ [u])
       /\ forall q, q ∈ u <-> 0 <= q <= 0x10FFFF.
Proof.
  assert (valid_points {[ 65 ]}) as Hvalid.
  { intros p Hp. apply elem_of_singleton in Hp. lia. }
  split; [reflexivity |]. split; [exact Hvalid |].
  destruct (complement_laws [ {[ 65 ]} ] 0%nat {[ 65 ]} eq_refl Hvalid)
    as (c & u & Hinv & Hor & Hu & _).
  exists c, u. split; [exact Hinv |]. split; [exact Hor | exact Hu].
Defined.

(* ===================================================================== *)
(** * Range compression: the three implementations agree *)
(* ===================================================================== *)

Lemma compress_ranges_loop_eq (points : list Z) (start prev : Z)
    (ranges : list (Z * Z)) :
  Optimizer.compress_ranges_loop start prev points ranges
  = ranges ++ CodePointSet.get_ranges_loop start prev points.
Proof.
  revert start prev ranges.
  induction points as [| point points IH]; intros start prev ranges; simpl.
  - reflexivity.
  - destruct (point =? prev + 1); simpl; rewrite IH; [reflexivity |].
    rewrite <- app_assoc. reflexivity.
Qed.

Lemma _get_ranges_loop_eq (points : list Z) (start prev : Z)
    (ranges : list (Z * Z)) :
  RegexGenerator._get_ranges_loop start prev points ranges
  = ranges ++ CodePointSet.get_ranges_loop start prev points.
Proof.
  revert start prev ranges.
  induction points as [| point points IH]; intros start prev ranges; simpl.
  - reflexivity.
  - destruct (point =? prev + 1); simpl; rewrite IH; [reflexivity |].
    rewrite <- app_assoc. reflexivity.
Qed.

(** X14: on input without repetitions [compress_ranges] returns ranges
    that are non-empty, ascending, separated by at least one missing
    point, and that cover exactly the given points. *)
Theorem compress_ranges_decomposition (code_points : list Z) :
  NoDup code_points ->
  exists ranges,
    Optimizer.compress_ranges code_points = Ok ranges
    /\ Forall (fun r => fst r <= snd r) ranges
    /\ StronglySorted separated ranges
    /\ forall p, p ∈ code_points <-> exists r, r ∈ ranges /\ fst r <= p <= snd r.
Proof.
  intros Hnodup. unfold Optimizer.compress_ranges.
  case_bool_decide as Hnil.
  { exists []. subst. repeat split; try constructor.
    - intros Hin. inversion Hin.
    - intros (r & Hr & _). inversion Hr. }
  assert (StronglySorted Z.lt (merge_sort Z.le code_points)) as Hsorted.
  { apply le_sorted_nodup_lt.
    - apply StronglySorted_merge_sort; apply _.
    - rewrite merge_sort_Permutation. exact Hnodup. }
  assert (forall p, p ∈ merge_sort Z.le code_points <-> p ∈ code_points) as Helem.
  { intros p. rewrite merge_sort_Permutation. reflexivity. }
  destruct (merge_sort Z.le code_points) as [| p0 points] eqn:Hpts.
  { exfalso. destruct code_points as [| x l]; [done |].
    assert (x ∈ @nil Z) as Hin by (apply Helem; left). inversion Hin. }
  destruct (get_ranges_loop_spec points p0 p0 ltac:(lia) Hsorted)
    as (Hstart & Hsep & Hcover).
  eexists. split; [reflexivity |]. rewrite compress_ranges_loop_eq. simpl.
  split; [| split; [exact Hsep |]].
  - eapply Forall_impl; [exact Hstart |]. simpl. tauto.
  - intros p. rewrite Hcover, <- Helem, elem_of_cons. intuition lia.
Qed.

Lemma compress_ranges_decomposition_witness :
  NoDup [70; 65; 66; 72; 67; 71]
  /\ Optimizer.compress_ranges [70; 65; 66; 72; 67; 71] = Ok [(65, 67); (70, 72)]
  /\ exists ranges,
       Optimizer.compress_ranges [70; 65; 66; 72; 67; 71] = Ok ranges
       /\ StronglySorted separated ranges.
Proof.
  assert (NoDup [70; 65; 66; 72; 67; 71]) as Hnodup
    by (apply (bool_decide_unpack _); vm_compute; exact I).
  split; [exact Hnodup |]. split; [vm_compute; reflexivity |].
  destruct (compress_ranges_decomposition [70; 65; 66; 72; 67; 71] Hnodup)
    as (ranges & Hrun & _ & Hsep & _).
  exists ranges. split; [exact Hrun | exact Hsep].
Defined.

(** With a repeated point the ranges of [compress_ranges] overlap. *)
Example compress_ranges_repeated_point :
  Optimizer.compress_ranges [65; 65; 66] = Ok [(65, 65); (65, 66)].
Proof. vm_compute. reflexivity. Qed.

Lemma bool_returns (h : heap) (self : loc) (pts : gset Z) :
  h !! self = Some pts ->
  CodePointSet.__bool__ self h = (Ok (negb (bool_decide (pts = ∅))), h).
Proof.
  intros Hself. unfold CodePointSet.__bool__.
  rewrite (bind_ok _ _ h h pts) by (apply get_points_ok, Hself). reflexivity.
Qed.

Lemma iter_returns (h : heap) (self : loc) (pts : gset Z) :
  h !! self = Some pts ->
  CodePointSet.__iter__ self h = (Ok (sorted pts), h).
Proof.
  intros Hself. unfold CodePointSet.__iter__.
  rewrite (bind_ok _ _ h h pts) by (apply get_points_ok, Hself). reflexivity.
Qed.

(** What [_get_ranges] computes, for either kind of argument. *)
Lemma _get_ranges_returns (h : heap) (code_points : RegexGenerator.code_points_arg)
    (pts : gset Z) :
  RegexGenerator.truth code_points h = (Ok (negb (bool_decide (pts = ∅))), h) ->
  RegexGenerator.sorted_arg code_points h = (Ok (sorted pts), h) ->
  RegexGenerator._get_ranges code_points h
  = (Ok (match sorted pts with
         | [] => []
         | p0 :: points => CodePointSet.get_ranges_loop p0 p0 points
         end), h).
Proof.
  intros Htruth Hsorted. unfold RegexGenerator._get_ranges.
  rewrite (bind_ok _ _ h h _ Htruth). rewrite negb_involutive.
  case_bool_decide as Hempty.
  - subst pts. unfold sorted. rewrite elements_empty. reflexivity.
  - rewrite (bind_ok _ _ h h _ Hsorted).
    destruct (sorted pts) as [| p0 points] eqn:Hpts.
    { exfalso. apply Hempty, sorted_nil_empty, Hpts. }
    rewrite _get_ranges_loop_eq. reflexivity.
Qed.

(** X15: for the members of a [CodePointSet], the generator's
    [_get_ranges] (given the instance or a built-in set), the
    optimizer's [compress_ranges] and [CodePointSet.get_ranges] all
    return the same list of ranges. *)
Theorem range_compressions_agree (h : heap) (self : loc) (pts : gset Z) :
  h !! self = Some pts ->
  exists ranges,
    CodePointSet.get_ranges self h = (Ok ranges, h)
    /\ RegexGenerator._get_ranges (RegexGenerator.Instance self) h = (Ok ranges, h)
    /\ RegexGenerator._get_ranges (RegexGenerator.Builtin pts) h = (Ok ranges, h)
    /\ Optimizer.compress_ranges (elements pts) = Ok ranges.
Proof.
  intros Hself.
  exists (match sorted pts with
          | [] => []
          | p0 :: points => CodePointSet.get_ranges_loop p0 p0 points
          end).
  split; [| split; [| split]].
  - unfold CodePointSet.get_ranges.
    rewrite (bind_ok _ _ h h pts) by (apply get_points_ok, Hself).
    case_bool_decide as Hempty.
    + subst pts. unfold sorted. rewrite elements_empty. reflexivity.
    + destruct (sorted pts) as [| p0 points] eqn:Hpts; [| reflexivity].
      exfalso. apply Hempty, sorted_nil_empty, Hpts.
  - apply _get_ranges_returns; [apply bool_returns, Hself | apply iter_returns, Hself].
  - apply _get_ranges_returns; reflexivity.
  - unfold Optimizer.compress_ranges. fold (sorted pts).
    case_bool_decide as Hnil.
    + unfold sorted. rewrite Hnil. reflexivity.
    + destruct (sorted pts) as [| p0 points] eqn:Hpts.
      * exfalso. apply Hnil. apply sorted_nil_empty in Hpts. subst pts.
        apply elements_empty.
      * rewrite compress_ranges_loop_eq. reflexivity.
Qed.

Lemma range_compressions_agree_witness :
  ([list_to_set [70; 65; 66]] : heap) !! 0%nat = Some (list_to_set [70; 65; 66] : gset Z)
  /\ exists ranges,
       CodePointSet.get_ranges 0 [list_to_set [70; 65; 66]]
       = (Ok ranges, [list_to_set [70; 65; 66]])
       /\ Optimizer.compress_ranges (elements (list_to_set [70; 65; 66] : gset Z))
          = Ok ranges.
Proof.
  split; [reflexivity |].
  destruct (range_compressions_agree
              [list_to_set [70; 65; 66]] 0%nat (list_to_set [70; 65; 66]) eq_refl)
    as (ranges & Hget & _ & _ & Hcompress).
  exists ranges. split; [exact Hget | exact Hcompress].
Defined.

(* ===================================================================== *)
(** * [Optimizer]: the readability pass and the entry points *)
(* ===================================================================== *)

Lemma without_spaces_app (a b : str) :
  without_spaces (a ++ b) = without_spaces a ++ without_spaces b.
Proof. apply List.filter_app. Qed.

Lemma readability_loop_without_spaces (pattern rest : str) (i : Z)
    (in_class : bool) (result : str) :
  without_spaces (Optimizer.readability_loop pattern i rest in_class result)
  = without_spaces result ++ without_spaces rest.
Proof.
  revert i in_class result.
  induction rest as [| c rest IH]; intros i in_class result;
    cbn [Optimizer.readability_loop].
  - rewrite app_nil_r. reflexivity.
  - assert (without_spaces (c :: rest) = without_spaces [c] ++ without_spaces rest)
      as Hcons by (apply (without_spaces_app [c] rest)).
    assert (without_spaces [ord " "] = []) as Hsp by reflexivity.
    repeat match goal with
           | |- context [if ?b then _ else _] => destruct b
           end;
      rewrite IH, Hcons, ?without_spaces_app, ?Hsp, ?app_nil_r, <- ?app_assoc;
      reflexivity.
Qed.

Lemma readability_loop_no_bar (pattern rest : str) (i : Z)
    (in_class : bool) (result : str) :
  ord "|" ∉ rest ->
  Optimizer.readability_loop pattern i rest in_class result = result ++ rest.
Proof.
  revert i in_class result.
  induction rest as [| c rest IH]; intros i in_class result Hbar;
    cbn [Optimizer.readability_loop].
  - rewrite app_nil_r. reflexivity.
  - apply not_elem_of_cons in Hbar as [Hc Hbar].
    destruct (c =? ord "[") eqn:E1;
      [rewrite IH by exact Hbar; rewrite <- app_assoc; reflexivity |].
    destruct (c =? ord "]") eqn:E2;
      [rewrite IH by exact Hbar; rewrite <- app_assoc; reflexivity |].
    destruct (c =? ord "|") eqn:E3; [apply Z.eqb_eq in E3; congruence |].
    simpl. rewrite IH by exact Hbar. rewrite <- app_assoc. reflexivity.
Qed.

(** X17: [optimize] is [optimize_pattern] under the ['readability']
    priority, for every pattern, the empty one included. *)
Theorem optimize_is_readability_priority (pattern : str) :
  Optimizer.optimize_pattern pattern (pystr "readability")
  = Ok (Optimizer.optimize pattern).
Proof.
  unfold Optimizer.optimize_pattern, Optimizer.optimize.
  rewrite (bool_decide_eq_true_2 (pystr "readability"
                                    ∈ [pystr "size"; pystr "readability"]))
    by (right; left).
  rewrite (bool_decide_eq_true_2 (pystr "readability" = pystr "readability"))
    by reflexivity.
  simpl negb. cbv iota zeta.
  case_bool_decide as Hnil; [subst pattern |]; reflexivity.
Qed.



(* ===================================================================== *)
(** * [RegexGenerator.generate_pattern]: results and the cache *)
(* ===================================================================== *)

Lemma list_to_set_sorted (pts : gset Z) : list_to_set (sorted pts) = pts.
Proof.
  apply set_eq. intros p. rewrite elem_of_list_to_set. apply sorted_elem_of.
Qed.

Lemma frozenset_instance (h : heap) (self : loc) (pts : gset Z) :
  h !! self = Some pts ->
  RegexGenerator.frozenset (RegexGenerator.Instance self) h = (Ok pts, h).
Proof.
  intros Hself. unfold RegexGenerator.frozenset.
  rewrite (bind_ok _ _ h h (sorted pts)) by (apply iter_returns, Hself).
  unfold ret. rewrite list_to_set_sorted. reflexivity.
Qed.

(** The ranges of a set start and end at members. *)
Lemma ranges_endpoints (pts : gset Z) (r : Z * Z) :
  r ∈ match sorted pts with
      | [] => []
      | p0 :: points => CodePointSet.get_ranges_loop p0 p0 points
      end ->
  fst r ∈ pts /\ snd r ∈ pts.
Proof.
  pose proof (sorted_strictly_ascending pts) as Hsorted.
  pose proof (sorted_elem_of pts) as Helem.
  destruct (sorted pts) as [| p0 points]; [intros Hr; inversion Hr |].
  destruct (get_ranges_loop_spec points p0 p0 ltac:(lia) Hsorted)
    as (Hstart & _ & Hcover).
  intros Hr. rewrite Forall_forall in Hstart. specialize (Hstart r Hr).
  assert (forall q, fst r <= q <= snd r -> q ∈ pts) as Hin.
  { intros q Hq. apply Helem. rewrite elem_of_cons.
    assert (p0 <= q <= p0 \/ q ∈ points) as [? | ?]
      by (apply Hcover; eauto); [left; lia | right; assumption]. }
  split; apply Hin; lia.
Qed.

Lemma chr_valid (i : Z) : 0 <= i <= 0x10FFFF -> chr i = Ok [i].
Proof.
  intros Hi. unfold chr.
  destruct (_ && _) eqn:Hcheck; [reflexivity |].
  split_comparisons; simpl in Hcheck; try discriminate; lia.
Qed.

Lemma range_patterns_returns (ranges : list (Z * Z)) (prioritize : str)
    (patterns : list str) :
  Forall (fun r => 0 <= fst r <= 0x10FFFF /\ 0 <= snd r <= 0x10FFFF) ranges ->
  exists result, RegexGenerator.range_patterns ranges prioritize patterns = Ok result.
Proof.
  revert patterns. induction ranges as [| [start end_] ranges IH];
    intros patterns Hvalid; cbn [RegexGenerator.range_patterns].
  - eauto.
  - apply Forall_cons in Hvalid as [[Hs He] Hvalid]. simpl in Hs, He.
    rewrite (chr_valid start Hs), (chr_valid end_ He).
    destruct (start =? end_); simpl; [apply IH, Hvalid |].
    case_bool_decide; apply IH, Hvalid.
Qed.

Lemma _ranges_to_pattern_returns (ranges : list (Z * Z)) (prioritize : str) :
  Forall (fun r => 0 <= fst r <= 0x10FFFF /\ 0 <= snd r <= 0x10FFFF) ranges ->
  exists pattern, RegexGenerator._ranges_to_pattern ranges prioritize = Ok pattern.
Proof.
  intros Hvalid. unfold RegexGenerator._ranges_to_pattern.
  destruct ranges as [| r0 ranges]; [eauto |].
  destruct (_ && _).
  - pose proof (Forall_inv Hvalid) as [Hs _]. rewrite (chr_valid _ Hs). simpl. eauto.
  - destruct (range_patterns_returns (r0 :: ranges) prioritize [] Hvalid)
      as (patterns & ->). simpl.
    destruct patterns as [| p [| q patterns]]; try case_bool_decide; eauto.
Qed.

(** X19: given a [CodePointSet] of valid code points, [generate_pattern]
    returns a pattern, whatever the priority string and the state of the
    cache, and it does not modify the store. *)
Theorem generate_pattern_returns (self : RegexGenerator.t) (h : heap)
    (code_points : loc) (pts : gset Z) (prioritize : str) :
  h !! code_points = Some pts ->
  valid_points pts ->
  exists pattern self',
    RegexGenerator.generate_pattern self (RegexGenerator.Instance code_points)
      prioritize h
    = (Ok (pattern, self'), h).
Proof.
  intros Hcp Hvalid. unfold RegexGenerator.generate_pattern.
  rewrite (bind_ok _ _ h h (negb (bool_decide (pts = ∅))))
    by (apply bool_returns, Hcp).
  rewrite negb_involutive. case_bool_decide as Hempty; [unfold ret; eauto |].
  rewrite (bind_ok _ _ h h pts) by (apply frozenset_instance, Hcp).
  destruct (RegexGenerator._pattern_cache self !! (pts, prioritize));
    [unfold ret; eauto |].
  destruct (RegexGenerator.find_common _ _); [unfold ret; eauto |].
  erewrite bind_ok.
  2:{ apply (_get_ranges_returns h _ pts);
        [apply bool_returns, Hcp | apply iter_returns, Hcp]. }
  destruct (_ranges_to_pattern_returns
              (match sorted pts with
               | [] => []
               | p0 :: points => CodePointSet.get_ranges_loop p0 p0 points
               end) prioritize) as (pattern & Hpattern).
  { apply Forall_forall. intros r Hr.
    destruct (ranges_endpoints pts r Hr) as [Hfst Hsnd].
    split; apply Hvalid; assumption. }
  rewrite (bind_ok _ _ h h pattern) by (unfold lift; rewrite Hpattern; reflexivity).
  unfold ret. eauto.
Qed.

Lemma generate_pattern_returns_witness :
  ([list_to_set [65; 66; 67]] : heap) !! 0%nat = Some (list_to_set [65; 66; 67] : gset Z)
  /\ valid_points (list_to_set [65; 66; 67])
  /\ exists pattern self',
       RegexGenerator.generate_pattern (RegexGenerator.__init__ [])
         (RegexGenerator.Instance 0) (pystr "size") [list_to_set [65; 66; 67]]
       = (Ok (pattern, self'), [list_to_set [65; 66; 67]]).
Proof.
  assert (valid_points (list_to_set [65; 66; 67])) as Hvalid.
  { intros p Hp. apply elem_of_list_to_set in Hp.
    repeat (apply elem_of_cons in Hp as [-> | Hp]; [lia |]). inversion Hp. }
  split; [reflexivity |]. split; [exact Hvalid |].
  apply (generate_pattern_returns (RegexGenerator.__init__ [])
           [list_to_set [65; 66; 67]] 0%nat (list_to_set [65; 66; 67])
           (pystr "size") eq_refl Hvalid).
Defined.

(** ** The store is only read, and results are memoised *)

Lemma truth_reads (code_points : RegexGenerator.code_points_arg) (h : heap) :
  snd (RegexGenerator.truth code_points h) = h.
Proof.
  destruct code_points as [s | self]; [reflexivity |].
  simpl. unfold CodePointSet.__bool__, bind, CodePointSet.get_points.
  destruct (h !! self); reflexivity.
Qed.

Lemma frozenset_reads (code_points : RegexGenerator.code_points_arg) (h : heap) :
  snd (RegexGenerator.frozenset code_points h) = h.
Proof.
  destruct code_points as [s | self]; [reflexivity |].
  simpl. unfold CodePointSet.__iter__, bind, CodePointSet.get_points.
  destruct (h !! self); reflexivity.
Qed.

Lemma sorted_arg_reads (code_points : RegexGenerator.code_points_arg) (h : heap) :
  snd (RegexGenerator.sorted_arg code_points h) = h.
Proof.
  destruct code_points as [s | self]; [reflexivity |].
  simpl. unfold CodePointSet.__iter__, bind, CodePointSet.get_points.
  destruct (h !! self); reflexivity.
Qed.

Lemma _get_ranges_reads (code_points : RegexGenerator.code_points_arg) (h : heap) :
  snd (RegexGenerator._get_ranges code_points h) = h.
Proof.
  unfold RegexGenerator._get_ranges, bind.
  pose proof (truth_reads code_points h) as Ht.
  destruct (RegexGenerator.truth code_points h) as [[b | e] h1]; simpl in Ht; subst h1;
    [| reflexivity].
  destruct b; simpl; [| reflexivity].
  pose proof (sorted_arg_reads code_points h) as Hs.
  destruct (RegexGenerator.sorted_arg code_points h) as [[l | e] h1]; simpl in Hs;
    subst h1; [| reflexivity].
  destruct l; reflexivity.
Qed.

(** A call that finds its key in the cache. *)
Lemma generate_pattern_hit (self : RegexGenerator.t)
    (code_points : RegexGenerator.code_points_arg) (prioritize : str)
    (h : heap) (key pattern : _) :
  RegexGenerator.truth code_points h = (Ok true, h) ->
  RegexGenerator.frozenset code_points h = (Ok key, h) ->
  RegexGenerator._pattern_cache self !! (key, prioritize) = Some pattern ->
  RegexGenerator.generate_pattern self code_points prioritize h
  = (Ok (pattern, self), h).
Proof.
  intros Htruth Hkey Hhit. unfold RegexGenerator.generate_pattern.
  rewrite (bind_ok _ _ h h true Htruth). cbn [negb].
  rewrite (bind_ok _ _ h h key Hkey). rewrite Hhit. reflexivity.
Qed.

(** X20: [generate_pattern] never modifies the store, whether it returns
    or raises; and when it returns a pattern, the same call on the
    generator it leaves behind returns the same pattern and leaves the
    generator as it is. *)
Theorem generate_pattern_is_memoised (self : RegexGenerator.t)
    (code_points : RegexGenerator.code_points_arg) (prioritize : str) (h : heap) :
  snd (RegexGenerator.generate_pattern self code_points prioritize h) = h
  /\ forall pattern self',
       fst (RegexGenerator.generate_pattern self code_points prioritize h)
       = Ok (pattern, self') ->
       RegexGenerator.generate_pattern self' code_points prioritize h
       = (Ok (pattern, self'), h).
Proof.
  assert (forall (r : result (str * RegexGenerator.t)),
             (forall pattern self', r = Ok (pattern, self') ->
                RegexGenerator.generate_pattern self' code_points prioritize h
                = (Ok (pattern, self'), h)) ->
             RegexGenerator.generate_pattern self code_points prioritize h = (r, h) ->
             snd (RegexGenerator.generate_pattern self code_points prioritize h) = h
             /\ forall pattern self',
                  fst (RegexGenerator.generate_pattern self code_points prioritize h)
                  = Ok (pattern, self') ->
                  RegexGenerator.generate_pattern self' code_points prioritize h
                  = (Ok (pattern, self'), h)) as Hpack.
  { intros r Hr ->. split; [reflexivity | exact Hr]. }
  pose proof (truth_reads code_points h) as Ht.
  destruct (RegexGenerator.truth code_points h) as [[nonempty | e] h1] eqn:Htruth;
    simpl in Ht; subst h1.
  2:{ apply (Hpack (Raise e)); [discriminate |].
      unfold RegexGenerator.generate_pattern. apply bind_raise, Htruth. }
  destruct nonempty.
  2:{ apply (Hpack (Ok (pystr "[]", self))).
      - intros pattern self' [= <- <-].
        unfold RegexGenerator.generate_pattern.
        rewrite (bind_ok _ _ h h false Htruth). reflexivity.
      - unfold RegexGenerator.generate_pattern.
        rewrite (bind_ok _ _ h h false Htruth). reflexivity. }
  pose proof (frozenset_reads code_points h) as Hf.
  destruct (RegexGenerator.frozenset code_points h) as [[key | e] h1] eqn:Hkey;
    simpl in Hf; subst h1.
  2:{ apply (Hpack (Raise e)); [discriminate |].
      unfold RegexGenerator.generate_pattern.
      rewrite (bind_ok _ _ h h true Htruth). cbn [negb].
      apply bind_raise, Hkey. }
  destruct (RegexGenerator._pattern_cache self !! (key, prioritize)) as [cached |]
    eqn:Hcache.
  { apply (Hpack (Ok (cached, self))).
    - intros pattern self' [= <- <-].
      apply (generate_pattern_hit self code_points prioritize h key cached);
        assumption.
    - apply (generate_pattern_hit self code_points prioritize h key cached);
        assumption. }
  assert (forall computed,
             RegexGenerator.generate_pattern
               (RegexGenerator.cache_store self (key, prioritize) computed)
               code_points prioritize h
             = (Ok (computed,
                    RegexGenerator.cache_store self (key, prioritize) computed), h))
    as Hagain.
  { intros computed.
    apply (generate_pattern_hit _ code_points prioritize h key computed);
      try assumption.
    simpl. apply lookup_insert_eq. }
  assert (RegexGenerator.generate_pattern self code_points prioritize h
          = match RegexGenerator.find_common (RegexGenerator.COMMON_RANGES self)
                    code_points with
            | Some pattern =>
                ret (pattern,
                     RegexGenerator.cache_store self (key, prioritize) pattern) h
            | None =>
                (ranges <- RegexGenerator._get_ranges code_points ;;
                 pattern <- lift (RegexGenerator._ranges_to_pattern ranges prioritize) ;;
                 ret (pattern,
                      RegexGenerator.cache_store self (key, prioritize) pattern))%M h
            end) as Hunfold.
  { unfold RegexGenerator.generate_pattern.
    rewrite (bind_ok _ _ h h true Htruth). cbn [negb].
    rewrite (bind_ok _ _ h h key Hkey). rewrite Hcache.
    destruct (RegexGenerator.find_common _ _); reflexivity. }
  destruct (RegexGenerator.find_common _ _) as [common |].
  { apply (Hpack (Ok (common, RegexGenerator.cache_store self (key, prioritize) common))).
    - intros pattern self' [= <- <-]. apply Hagain.
    - exact Hunfold. }
  pose proof (_get_ranges_reads code_points h) as Hr.
  destruct (RegexGenerator._get_ranges code_points h) as [[ranges | e] h1] eqn:Hranges;
    simpl in Hr; subst h1.
  2:{ apply (Hpack (Raise e)); [discriminate |].
      rewrite Hunfold. apply bind_raise, Hranges. }
  destruct (RegexGenerator._ranges_to_pattern ranges prioritize) as [computed | e]
    eqn:Hpattern.
  - apply (Hpack (Ok (computed,
                      RegexGenerator.cache_store self (key, prioritize) computed))).
    + intros pattern self' [= <- <-]. apply Hagain.
    + rewrite Hunfold. rewrite (bind_ok _ _ h h ranges Hranges).
      rewrite (bind_ok _ _ h h computed) by (unfold lift; rewrite Hpattern; reflexivity).
      reflexivity.
  - apply (Hpack (Raise e)); [discriminate |].
    rewrite Hunfold. rewrite (bind_ok _ _ h h ranges Hranges).
    apply bind_raise. unfold lift. rewrite Hpattern. reflexivity.
Qed.

(* ===================================================================== *)
(** * [RegexGenerator]: escapes, alternations and priorities *)
(* ===================================================================== *)

Lemma hex_value_snoc (digits : str) (d : Z) :
  hex_value (digits ++ [d]) = hex_value digits * 16 + hex_digit_value d.
Proof.
  unfold hex_value. rewrite fold_left_app. reflexivity.
Qed.

Lemma hex_digit_value_hex_digit (d : Z) :
  0 <= d < 16 -> hex_digit_value (hex_digit d) = d.
Proof.
  intros Hd. unfold hex_digit_value, hex_digit.
  change (ord "0") with 48. change (ord "9") with 57. change (ord "a") with 97.
  split_comparisons; simpl; lia.
Qed.

(** With enough fuel, [hex_digits] puts in front of [acc] the digits of
    [n], most significant first, as few as [n] needs. *)
Lemma hex_digits_spec (fuel : nat) (n : Z) (acc : str) :
  0 <= n < 16 ^ Z.of_nat fuel ->
  (1 <= fuel)%nat ->
  exists digits,
    hex_digits fuel n acc = digits ++ acc
    /\ hex_value digits = n
    /\ forall k, (1 <= k)%nat -> n < 16 ^ Z.of_nat k -> (length digits <= k)%nat.
Proof.
  revert n acc. induction fuel as [| fuel IH]; intros n acc Hn Hfuel; [lia |].
  cbn [hex_digits].
  assert (0 <= n mod 16 < 16) as Hmod by (apply Z.mod_pos_bound; lia).
  pose proof (Z.div_mod n 16 ltac:(lia)) as Hdiv.
  destruct (n / 16 =? 0) eqn:Hq.
  - apply Z.eqb_eq in Hq. exists [hex_digit (n mod 16)].
    split; [reflexivity |]. split.
    + unfold hex_value. simpl. rewrite hex_digit_value_hex_digit by exact Hmod. lia.
    + intros k Hk _. simpl. lia.
  - apply Z.eqb_neq in Hq.
    assert (0 <= n / 16) as Hq0 by (apply Z.div_pos; lia).
    assert (forall k, n < 16 ^ Z.of_nat (S k) -> n / 16 < 16 ^ Z.of_nat k) as Hstep.
    { intros k Hk. rewrite Nat2Z.inj_succ, Z.pow_succ_r in Hk by lia.
      apply Z.div_lt_upper_bound; lia. }
    assert (1 <= fuel)%nat as Hfuel'.
    { destruct fuel; [| lia]. specialize (Hstep O ltac:(lia)). simpl in Hstep. lia. }
    destruct (IH (n / 16) (hex_digit (n mod 16) :: acc)
                ltac:(split; [lia | apply Hstep; lia]) Hfuel')
      as (digits & Hrun & Hvalue & Hlen).
    exists (digits ++ [hex_digit (n mod 16)]).
    split; [rewrite Hrun, <- app_assoc; reflexivity |]. split.
    + rewrite hex_value_snoc, Hvalue, hex_digit_value_hex_digit by exact Hmod. lia.
    + intros k Hk Hnk. rewrite length_app. simpl.
      destruct k as [| k]; [lia |].
      assert (1 <= k)%nat as Hk'.
      { destruct k; [| lia]. simpl in Hnk. lia. }
      specialize (Hlen k Hk' (Hstep k Hnk)). lia.
Qed.

Lemma hex_fuel_enough (n : Z) :
  0 <= n -> n < 16 ^ Z.of_nat (S (Z.to_nat (Z.log2 n))).
Proof.
  intros Hn. pose proof (Z.log2_nonneg n) as Hlog.
  rewrite Nat2Z.inj_succ, Z2Nat.id by exact Hlog.
  destruct (Z.eq_dec n 0) as [-> | Hne]; [reflexivity |].
  pose proof (Z.log2_spec n ltac:(lia)) as [_ Hup].
  eapply Z.lt_le_trans; [exact Hup |].
  apply Z.pow_le_mono_l. lia.
Qed.

Lemma hex_value_zero_pad (width : nat) (digits : str) :
  hex_value (zero_pad width digits) = hex_value digits.
Proof.
  unfold zero_pad, hex_value. rewrite fold_left_app.
  replace (fold_left (fun acc c => acc * 16 + hex_digit_value c)
             (replicate (width - length digits) (ord "0")) 0) with 0; [reflexivity |].
  induction (width - length digits)%nat as [| k IH]; simpl; [reflexivity | exact IH].
Qed.

Lemma format_hex_spec (width k : nat) (n : Z) :
  0 <= n < 16 ^ Z.of_nat k ->
  (1 <= k <= width)%nat ->
  length (format_hex width n) = width /\ hex_value (format_hex width n) = n.
Proof.
  intros Hn Hk. unfold format_hex.
  destruct (n <? 0) eqn:Hneg; [apply Z.ltb_lt in Hneg; lia |].
  destruct (hex_digits_spec (S (Z.to_nat (Z.log2 n))) n []
              ltac:(split; [lia | apply hex_fuel_enough; lia]) ltac:(lia))
    as (digits & Hrun & Hvalue & Hlen).
  rewrite Hrun, app_nil_r. split.
  - unfold zero_pad. rewrite length_app, length_replicate.
    specialize (Hlen k ltac:(lia) ltac:(lia)). lia.
  - rewrite hex_value_zero_pad. exact Hvalue.
Qed.

Lemma is_hex_digit_hex_digit (d : Z) :
  0 <= d < 16 -> is_hex_digit (hex_digit d) = true.
Proof.
  intros Hd. unfold is_hex_digit, hex_digit.
  change (ord "0") with 48. change (ord "9") with 57.
  change (ord "a") with 97. change (ord "f") with 102.
  destruct (d <? 10) eqn:Hsmall.
  - apply Z.ltb_lt in Hsmall. apply orb_true_iff. left.
    apply andb_true_iff. split; [apply Z.leb_le | apply Z.leb_le]; lia.
  - apply Z.ltb_ge in Hsmall. apply orb_true_iff. right.
    apply andb_true_iff. split; [apply Z.leb_le | apply Z.leb_le]; lia.
Qed.

Lemma hex_digits_are_hex (fuel : nat) :
  forall (n : Z) (acc : str),
    forallb is_hex_digit acc = true ->
    forallb is_hex_digit (hex_digits fuel n acc) = true.
Proof.
  induction fuel as [| fuel IH]; intros n acc Hacc; cbn [hex_digits]; [exact Hacc |].
  assert (forallb is_hex_digit (hex_digit (n mod 16) :: acc) = true) as Hnext.
  { cbn [forallb]. rewrite is_hex_digit_hex_digit by (apply Z.mod_pos_bound; lia).
    exact Hacc. }
  destruct (n / 16 =? 0); [exact Hnext | apply IH, Hnext].
Qed.

Lemma format_hex_is_hex (width : nat) (n : Z) :
  0 <= n -> forallb is_hex_digit (format_hex width n) = true.
Proof.
  intros Hn. unfold format_hex.
  destruct (n <? 0) eqn:Hneg; [apply Z.ltb_lt in Hneg; lia |].
  unfold zero_pad. rewrite forallb_app. apply andb_true_iff. split.
  - induction (width - length _)%nat as [| k IH]; [reflexivity | exact IH].
  - apply hex_digits_are_hex. reflexivity.
Qed.

(** X21: for a code point that is not formatted as a character (128 and
    above, or any when [use_hex] is set), [_format_code_point] returns
    the escape letter followed by exactly four characters up to U+FFFF
    and exactly eight above; each of them is a lower-case hexadecimal
    digit, and read as a hexadecimal number they are the code point. *)
Theorem format_code_point_escape_roundtrip (cp : Z) (use_hex : bool) :
  0 <= cp <= 0x10FFFF ->
  128 <= cp \/ use_hex = true ->
  exists digits,
    RegexGenerator._format_code_point cp use_hex
    = Ok ((if cp <=? 0xFFFF then pystr "\u" else pystr "\U") ++ digits)
    /\ length digits = (if cp <=? 0xFFFF then 4%nat else 8%nat)
    /\ forallb is_hex_digit digits = true
    /\ hex_value digits = cp.
Proof.
  intros Hcp Hhex. unfold RegexGenerator._format_code_point.
  assert ((cp <? 128) && negb use_hex = false) as ->.
  { destruct Hhex as [Hge | ->]; [| apply andb_false_r].
    apply andb_false_iff. left. apply Z.ltb_ge. lia. }
  destruct (cp <=? 0xFFFF) eqn:Hsmall.
  - apply Z.leb_le in Hsmall.
    destruct (format_hex_spec 4 4 cp ltac:(simpl; lia) ltac:(lia)) as [Hlen Hvalue].
    pose proof (format_hex_is_hex 4 cp ltac:(lia)) as Hdigits.
    eauto.
  - destruct (format_hex_spec 8 8 cp ltac:(simpl; lia) ltac:(lia)) as [Hlen Hvalue].
    pose proof (format_hex_is_hex 8 cp ltac:(lia)) as Hdigits.
    eauto.
Qed.

Lemma format_code_point_escape_roundtrip_witness :
  0 <= 0x10400 <= 0x10FFFF
  /\ (128 <= 0x10400 \/ false = true)
  /\ exists digits,
       RegexGenerator._format_code_point 0x10400 false = Ok (pystr "\U" ++ digits)
       /\ length digits = 8%nat
       /\ forallb is_hex_digit digits = true
       /\ hex_value digits = 0x10400.
Proof.
  split; [lia |]. split; [left; lia |].
  apply (format_code_point_escape_roundtrip 0x10400 false); [lia | left; lia].
Defined.

(** ** Alternations *)

Lemma join_length (sep : str) (parts : list str) :
  length (join sep parts)
  = (total_length parts + length sep * (length parts - 1))%nat.
Proof.
  induction parts as [| p [| q parts] IH].
  - simpl. lia.
  - simpl. lia.
  - change (join sep (p :: q :: parts)) with (p ++ sep ++ join sep (q :: parts)).
    rewrite !length_app, IH.
    change (total_length (p :: q :: parts))
      with (length p + total_length (q :: parts))%nat.
    cbn [length]. lia.
Qed.

(** X22: [generate_alternation_pattern] returns ['[]'] for no pattern and
    the pattern itself for a single one; for two or more, the result
    under ['readability'] is the result under any other priority with the
    group markers and the spaces added: [4 + 2 * (n - 1)] characters
    more. *)
Theorem alternation_pattern_lengths (patterns : list str) (prioritize : str) :
  prioritize <> pystr "readability" ->
  match patterns with
  | [] =>
      RegexGenerator.generate_alternation_pattern patterns prioritize = pystr "[]"
      /\ RegexGenerator.generate_alternation_pattern patterns (pystr "readability")
         = pystr "[]"
  | [p] =>
      RegexGenerator.generate_alternation_pattern patterns prioritize = p
      /\ RegexGenerator.generate_alternation_pattern patterns (pystr "readability") = p
  | _ =>
      length (RegexGenerator.generate_alternation_pattern patterns
                (pystr "readability"))
      = (length (RegexGenerator.generate_alternation_pattern patterns prioritize)
         + 4 + 2 * (length patterns - 1))%nat
  end.
Proof.
  intros Hprio. destruct patterns as [| p [| q patterns]]; [split; reflexivity .. |].
  unfold RegexGenerator.generate_alternation_pattern.
  rewrite (bool_decide_eq_false_2 (prioritize = pystr "readability")) by exact Hprio.
  rewrite (bool_decide_eq_true_2 (pystr "readability" = pystr "readability"))
    by reflexivity.
  rewrite !length_app, !join_length.
  change (length (pystr "(?:")) with 3%nat. change (length (pystr ")")) with 1%nat.
  change (length (pystr " | ")) with 3%nat. change (length (pystr "|")) with 1%nat.
  lia.
Qed.

Lemma alternation_pattern_lengths_witness :
  pystr "size" <> pystr "readability"
  /\ length (RegexGenerator.generate_alternation_pattern
               [pystr "foo"; pystr "bar"; pystr "baz"] (pystr "readability"))
     = (length (RegexGenerator.generate_alternation_pattern
                  [pystr "foo"; pystr "bar"; pystr "baz"] (pystr "size"))
        + 4 + 2 * (3 - 1))%nat.
Proof.
  assert (pystr "size" <> pystr "readability") as Hne by (vm_compute; discriminate).
  split; [exact Hne |].
  apply (alternation_pattern_lengths [pystr "foo"; pystr "bar"; pystr "baz"]
           (pystr "size") Hne).
Defined.

(** ** The two priorities of [_ranges_to_pattern] *)

Lemma total_length_le (short long : list str) :
  Forall2 (fun a b => (length a <= length b)%nat) short long ->
  (total_length short <= total_length long)%nat.
Proof.
  induction 1 as [| a b short long Hab _ IH]; simpl; [lia |].
  unfold total_length in *. lia.
Qed.

Lemma range_patterns_priorities (ranges : list (Z * Z)) (short long : list str) :
  Forall2 (fun a b => (length a <= length b)%nat) short long ->
  match RegexGenerator.range_patterns ranges (pystr "size") short,
        RegexGenerator.range_patterns ranges (pystr "readability") long with
  | Ok ps, Ok pl => Forall2 (fun a b => (length a <= length b)%nat) ps pl
  | Raise e1, Raise e2 => e1 = e2
  | _, _ => False
  end.
Proof.
  revert short long. induction ranges as [| [start end_] ranges IH];
    intros short long Hacc; cbn [RegexGenerator.range_patterns].
  - exact Hacc.
  - destruct (start =? end_).
    + destruct (chr start) as [char | e]; cbn [rbind]; [| reflexivity].
      apply IH. apply Forall2_app; [exact Hacc |]. constructor; [lia | constructor].
    + destruct (chr start) as [start_char | e]; cbn [rbind]; [| reflexivity].
      destruct (chr end_) as [end_char | e]; cbn [rbind]; [| reflexivity].
      rewrite (bool_decide_eq_false_2 (pystr "size" = pystr "readability"))
        by (vm_compute; discriminate).
      rewrite (bool_decide_eq_true_2 (pystr "readability" = pystr "readability"))
        by reflexivity.
      apply IH. apply Forall2_app; [exact Hacc |].
      constructor; [| constructor].
      rewrite !length_app. simpl. lia.
Qed.

(** X23: [_ranges_to_pattern] raises under ['size'] exactly when it
    raises under ['readability'], with the same exception; when it
    returns, the pattern under ['size'] is never longer than the one
    under ['readability']. *)
Theorem ranges_to_pattern_size_le_readability (ranges : list (Z * Z)) :
  match RegexGenerator._ranges_to_pattern ranges (pystr "size"),
        RegexGenerator._ranges_to_pattern ranges (pystr "readability") with
  | Ok small, Ok readable => (length small <= length readable)%nat
  | Raise e1, Raise e2 => e1 = e2
  | _, _ => False
  end.
Proof.
  unfold RegexGenerator._ranges_to_pattern.
  destruct ranges as [| r0 ranges]; [simpl; lia |].
  destruct (_ && _).
  - destruct (chr (fst r0)); simpl; [lia | reflexivity].
  - pose proof (range_patterns_priorities (r0 :: ranges) [] [] ltac:(constructor)) as H.
    destruct (RegexGenerator.range_patterns (r0 :: ranges) (pystr "size") [])
      as [ps | e1];
      destruct (RegexGenerator.range_patterns (r0 :: ranges) (pystr "readability") [])
        as [pl | e2]; cbn [rbind]; try contradiction; try exact H.
    rewrite (bool_decide_eq_false_2 (pystr "size" = pystr "readability"))
      by (vm_compute; discriminate).
    rewrite (bool_decide_eq_true_2 (pystr "readability" = pystr "readability"))
      by reflexivity.
    pose proof (total_length_le ps pl H) as Htotal.
    pose proof (Forall2_length _ _ _ H) as Hlen.
    destruct ps as [| a [| a' ps]]; destruct pl as [| b [| b' pl]];
      simpl in Hlen; try discriminate;
      rewrite ?length_app, ?join_length, ?join_nil_length;
      simpl in *; lia.
Qed.

(* ===================================================================== *)
(** * [Regen]: the common prefix and the fallback to alternation *)
(* ===================================================================== *)

Lemma startswith_iff (s prefix : str) :
  startswith s prefix = true <-> exists t, s = prefix ++ t.
Proof.
  revert s. induction prefix as [| p prefix IH]; intros s.
  - rewrite startswith_nil. split; [intros _; exists s; reflexivity | reflexivity].
  - destruct s as [| c s]; simpl.
    + split; [discriminate | intros (t & Ht); discriminate].
    + rewrite andb_true_iff, Z.eqb_eq, IH. split.
      * intros (-> & t & ->). exists t. reflexivity.
      * intros (t & [= -> ->]). split; [reflexivity | exists t; reflexivity].
Qed.

Lemma is_prefix_refl (s : str) : is_prefix s s.
Proof. apply startswith_iff. exists []. rewrite app_nil_r. reflexivity. Qed.

Lemma is_prefix_trans (a b c : str) : is_prefix a b -> is_prefix b c -> is_prefix a c.
Proof.
  unfold is_prefix. rewrite !startswith_iff. intros (t & ->) (u & ->).
  exists (t ++ u). rewrite app_assoc. reflexivity.
Qed.

Lemma is_prefix_length (a b : str) : is_prefix a b -> (length a <= length b)%nat.
Proof. apply startswith_length. Qed.

(** [prefix[:-1]] *)
Lemma slice_init (s : str) :
  slice s None (Some (-1)) = take (length s - 1) s.
Proof.
  unfold slice, slice_index. cbv zeta. change (-1 <? 0) with true. cbv iota.
  simpl drop. f_equal. lia.
Qed.

Lemma is_prefix_init (s : str) : is_prefix (slice s None (Some (-1))) s.
Proof.
  rewrite slice_init. apply startswith_iff.
  exists (drop (length s - 1) s). rewrite take_drop. reflexivity.
Qed.

Lemma is_prefix_init_proper (q s : str) :
  is_prefix q s -> startswith q s = false -> is_prefix q (slice s None (Some (-1))).
Proof.
  unfold is_prefix. rewrite slice_init. intros Hq Hne.
  apply startswith_iff in Hq as (t & ->).
  destruct t as [| c t].
  { rewrite app_nil_r in Hne. pose proof (is_prefix_refl q) as Hrefl.
    unfold is_prefix in Hrefl. congruence. }
  apply startswith_iff. exists (take (length t) (c :: t)).
  rewrite length_app. cbn [length].
  replace (length q + S (length t) - 1)%nat with (length q + length t)%nat by lia.
  rewrite take_app_add'; reflexivity.
Qed.

Lemma shrink_prefix_is_prefix (fuel : nat) (s prefix : str) :
  is_prefix (Regen.shrink_prefix fuel s prefix) prefix.
Proof.
  revert prefix. induction fuel as [| fuel IH]; intros prefix; simpl.
  - apply is_prefix_refl.
  - destruct (startswith s prefix); simpl; [apply is_prefix_refl |].
    case_bool_decide.
    + apply is_prefix_init.
    + eapply is_prefix_trans; [apply IH | apply is_prefix_init].
Qed.

Lemma shrink_prefix_longest (fuel : nat) (s prefix q : str) :
  is_prefix q s -> is_prefix q prefix ->
  is_prefix q (Regen.shrink_prefix fuel s prefix).
Proof.
  revert prefix. induction fuel as [| fuel IH]; intros prefix Hqs Hqp; simpl.
  - exact Hqp.
  - destruct (startswith s prefix) eqn:Hsp; simpl; [exact Hqp |].
    assert (is_prefix q (slice prefix None (Some (-1)))) as Hinit.
    { apply is_prefix_init_proper; [exact Hqp |].
      destruct (startswith q prefix) eqn:Hpq; [| reflexivity].
      assert (is_prefix prefix s) as Hcontra
        by (eapply is_prefix_trans; [exact Hpq | exact Hqs]).
      unfold is_prefix in Hcontra. congruence. }
    case_bool_decide; [exact Hinit | apply IH; assumption].
Qed.

Lemma common_prefix_fold (rest : list str) (acc : str) :
  is_prefix (Regen.common_prefix acc rest) acc
  /\ (forall s, s ∈ rest -> is_prefix (Regen.common_prefix acc rest) s)
  /\ (forall q, is_prefix q acc -> (forall s, s ∈ rest -> is_prefix q s) ->
                is_prefix q (Regen.common_prefix acc rest)).
Proof.
  unfold Regen.common_prefix.
  revert acc. induction rest as [| s rest IH]; intros acc; simpl.
  - split; [apply is_prefix_refl |]. split; [intros s Hs; inversion Hs | auto].
  - destruct (IH (Regen.shrink_prefix (length acc) s acc)) as (Hacc & Hrest & Hmax).
    pose proof (shrink_prefix_is_prefix (length acc) s acc) as Hshrink.
    pose proof (shrink_prefix_startswith s acc) as Hstarts.
    split; [eapply is_prefix_trans; eassumption |]. split.
    + intros s' Hs'. apply elem_of_cons in Hs' as [-> | Hs']; [| apply Hrest, Hs'].
      eapply is_prefix_trans; [exact Hacc | exact Hstarts].
    + intros q Hqacc Hq. apply Hmax.
      * apply shrink_prefix_longest; [apply Hq; left | exact Hqacc].
      * intros s' Hs'. apply Hq. right. exact Hs'.
Qed.

(** X24: the prefix computed by [create_optimized_pattern] is the longest
    common prefix of the strings: every string starts with it, and every
    string that all of them start with is an initial segment of it. *)
Theorem common_prefix_is_longest (first : str) (rest : list str) :
  (forall s, s ∈ first :: rest -> is_prefix (Regen.common_prefix first rest) s)
  /\ (forall q, (forall s, s ∈ first :: rest -> is_prefix q s) ->
                is_prefix q (Regen.common_prefix first rest)).
Proof.
  destruct (common_prefix_fold rest first) as (Hfirst & Hrest & Hmax). split.
  - intros s Hs. apply elem_of_cons in Hs as [-> | Hs]; [exact Hfirst | apply Hrest, Hs].
  - intros q Hq. apply Hmax; [apply Hq; left |].
    intros s Hs. apply Hq. right. exact Hs.
Qed.

Example common_prefix_launch :
  Regen.common_prefix (pystr "2024_Launch") [pystr "2025_Launch"; pystr "2026_Start"]
  = pystr "202".
Proof. reflexivity. Qed.

Lemma numeric_positions_loop_returns (unicode_isdigit : Z -> bool)
    (suffixes : list str) (indices : list nat)
    (numeric_positions : list (nat * list Z)) :
  (forall i s, i ∈ indices -> s ∈ suffixes -> (i < length s)%nat) ->
  exists result,
    Regen.numeric_positions_loop unicode_isdigit suffixes indices numeric_positions
    = Ok result.
Proof.
  revert numeric_positions.
  induction indices as [| i indices IH]; intros numeric_positions Hbound;
    cbn [Regen.numeric_positions_loop].
  - eauto.
  - assert (is_Some (mapM (fun s : str => s !! i) suffixes)) as [column Hcolumn].
    { apply mapM_is_Some, Forall_forall. intros s Hs.
      apply lookup_lt_is_Some. apply Hbound; [left | exact Hs]. }
    rewrite Hcolumn.
    assert (forall j s, j ∈ indices -> s ∈ suffixes -> (j < length s)%nat) as Hbound'
      by (intros j s Hj Hs; apply Hbound; [right; exact Hj | exact Hs]).
    destruct (forallb _ _); apply IH, Hbound'.
Qed.

(** X25: [create_optimized_pattern] returns a pattern for every list of
    strings: the indexing [s[i]] inside it is always in range. *)
Theorem create_optimized_pattern_returns (unicode_isdigit : Z -> bool)
    (strings : list str) :
  exists pattern, Regen.create_optimized_pattern unicode_isdigit strings = Ok pattern.
Proof.
  unfold Regen.create_optimized_pattern.
  destruct strings as [| first [| second rest]]; [eauto | eauto |].
  set (strings := first :: second :: rest).
  set (prefix := Regen.common_prefix first (second :: rest)).
  destruct (negb (bool_decide (prefix = []))); [| eauto].
  set (suffixes := map _ strings).
  destruct suffixes as [| suffix0 suffixes'] eqn:Hsuffixes; [discriminate |].
  destruct (forallb _ _) eqn:Hall; [| eauto].
  destruct (numeric_positions_loop_returns unicode_isdigit (suffix0 :: suffixes')
              (seq 0 (length suffix0)) []) as (positions & ->).
  { intros i s Hi Hs. apply elem_of_seq in Hi.
    rewrite forallb_forall in Hall.
    specialize (Hall s ltac:(apply list_elem_of_In, Hs)).
    apply Nat.eqb_eq in Hall. lia. }
  cbn [rbind]. destruct positions; [eauto |].
  destruct (Regen.assemble _ _ _ _). eauto.
Qed.

Lemma common_prefix_all (first : str) (rest : list str) (s : str) :
  s ∈ first :: rest -> is_prefix (Regen.common_prefix first rest) s.
Proof.
  destruct (common_prefix_fold rest first) as (Hfirst & Hrest & _).
  intros Hs. apply elem_of_cons in Hs as [-> | Hs]; [exact Hfirst | apply Hrest, Hs].
Qed.

(** The suffix [s[len(prefix):]] of a string that starts with [prefix]. *)
Lemma suffix_length (s prefix : str) :
  is_prefix prefix s ->
  length (slice s (Some (Z.of_nat (length prefix))) None)
  = (length s - length prefix)%nat.
Proof.
  intros Hp. apply is_prefix_length in Hp.
  unfold slice, slice_index. cbv zeta.
  destruct (Z.of_nat (length prefix) <? 0) eqn:Hneg; [apply Z.ltb_lt in Hneg; lia |].
  rewrite length_take, length_drop. lia.
Qed.

(** X26: when the strings do not all have the same length,
    [create_optimized_pattern] returns the plain alternation of the
    escaped strings. *)
Theorem unequal_lengths_fall_back (unicode_isdigit : Z -> bool)
    (first second : str) (rest : list str) (s : str) :
  s ∈ second :: rest ->
  length s <> length first ->
  Regen.create_optimized_pattern unicode_isdigit (first :: second :: rest)
  = Ok (Regen.create_alternation (first :: second :: rest)).
Proof.
  intros Hs Hlen. unfold Regen.create_optimized_pattern.
  pose proof (common_prefix_all first (second :: rest)) as Hcommon.
  set (prefix := Regen.common_prefix first (second :: rest)) in *.
  destruct (negb (bool_decide (prefix = []))); [| reflexivity].
  cbn [map].
  destruct (forallb _ _) eqn:Hall; [| reflexivity].
  exfalso. rewrite forallb_forall in Hall.
  assert (In (slice s (Some (Z.of_nat (length prefix))) None)
            (slice first (Some (Z.of_nat (length prefix))) None
             :: slice second (Some (Z.of_nat (length prefix))) None
             :: map (fun s => slice s (Some (Z.of_nat (length prefix))) None) rest))
    as Hin.
  { right. pose proof Hs as Hs'.
    apply elem_of_cons in Hs' as [-> | Hs']; [left; reflexivity | right].
    apply (in_map (fun s => slice s (Some (Z.of_nat (length prefix))) None) rest s).
    apply list_elem_of_In, Hs'. }
  specialize (Hall _ Hin). apply Nat.eqb_eq in Hall.
  assert (is_prefix prefix s) as Hps by (apply Hcommon; right; exact Hs).
  assert (is_prefix prefix first) as Hpf by (apply Hcommon; left).
  rewrite (suffix_length s prefix Hps), (suffix_length first prefix Hpf) in Hall.
  apply is_prefix_length in Hps, Hpf. lia.
Qed.

Lemma unequal_lengths_fall_back_witness :
  pystr "v10" ∈ [pystr "v10"; pystr "v3"]
  /\ length (pystr "v10") <> length (pystr "v2")
  /\ Regen.create_optimized_pattern (fun _ => false)
       [pystr "v2"; pystr "v10"; pystr "v3"]
     = Ok (pystr "(?:v2|v10|v3)").
Proof.
  assert (pystr "v10" ∈ [pystr "v10"; pystr "v3"]) as Hin by left.
  assert (length (pystr "v10") <> length (pystr "v2")) as Hlen
    by (simpl; lia).
  split; [exact Hin |]. split; [exact Hlen |].
  apply (unequal_lengths_fall_back (fun _ => false)
           (pystr "v2") (pystr "v10") [pystr "v3"] (pystr "v10") Hin Hlen).
Defined.

(* ===================================================================== *)
(** * Intervals: [from_range], [get_ranges] and [generate_range_pattern] *)
(* ===================================================================== *)

Lemma seqZ_strictly_ascending (m n : Z) : StronglySorted Z.lt (seqZ m n).
Proof.
  destruct (Z.le_gt_cases n 0) as [Hn | Hn].
  - unfold seqZ. replace (Z.to_nat n) with 0%nat by lia. constructor.
  - rewrite <- (Z2Nat.id n) by lia. generalize (Z.to_nat n) as k. clear Hn.
    intros k. revert m. induction k as [| k IH]; intros m.
    + constructor.
    + rewrite seqZ_cons by lia.
      replace (Z.pred (Z.of_nat (S k))) with (Z.of_nat k) by lia.
      constructor; [apply IH |].
      apply Forall_forall. intros p Hp. apply elem_of_seqZ in Hp. lia.
Qed.

Lemma sorted_interval (start end_ : Z) :
  sorted (list_to_set (py_range start (end_ + 1))) = seqZ start (end_ + 1 - start).
Proof.
  apply (StronglySorted_unique_strong Z.lt).
  - intros; lia.
  - apply sorted_strictly_ascending.
  - apply seqZ_strictly_ascending.
  - apply NoDup_Permutation.
    + unfold sorted. rewrite merge_sort_Permutation. apply NoDup_elements.
    + apply NoDup_seqZ.
    + intros p. rewrite sorted_elem_of, elem_of_list_to_set. reflexivity.
Qed.

Lemma get_ranges_loop_interval (n : nat) (start prev : Z) :
  CodePointSet.get_ranges_loop start prev (seqZ (prev + 1) (Z.of_nat n))
  = [(start, prev + Z.of_nat n)].
Proof.
  revert prev. induction n as [| n IH]; intros prev.
  - simpl. rewrite Z.add_0_r. reflexivity.
  - rewrite seqZ_cons by lia. cbn [CodePointSet.get_ranges_loop].
    rewrite Z.eqb_refl.
    replace (Z.pred (Z.of_nat (S n))) with (Z.of_nat n) by lia.
    replace (Z.succ (prev + 1)) with (prev + 1 + 1) by lia.
    rewrite IH. f_equal. f_equal. lia.
Qed.

Lemma interval_ranges (start end_ : Z) :
  start <= end_ ->
  match sorted (list_to_set (py_range start (end_ + 1))) with
  | [] => []
  | p0 :: points => CodePointSet.get_ranges_loop p0 p0 points
  end = [(start, end_)].
Proof.
  intros Hle. rewrite sorted_interval, seqZ_cons by lia.
  replace (Z.succ start) with (start + 1) by lia.
  rewrite <- (Z2Nat.id (Z.pred (end_ + 1 - start))) by lia.
  rewrite get_ranges_loop_interval. f_equal. f_equal. lia.
Qed.

Lemma interval_nonempty (start end_ : Z) :
  start <= end_ -> (list_to_set (py_range start (end_ + 1)) : gset Z) <> ∅.
Proof.
  intros Hle Hempty.
  assert (start ∈ (list_to_set (py_range start (end_ + 1)) : gset Z)) as Hin
    by (apply elem_of_list_to_set, py_range_bounds; lia).
  rewrite Hempty in Hin. set_solver.
Qed.

Lemma from_range_returns (h : heap) (start end_ : Z) :
  0 <= start <= end_ -> end_ <= 0x10FFFF ->
  CodePointSet.from_range start end_ h
  = (Ok (length h), h ++ [list_to_set (py_range start (end_ + 1))]).
Proof.
  intros Hle Hmax. unfold CodePointSet.from_range.
  rewrite (bind_ok _ _ h (h ++ [∅]) (length h)) by apply init_empty.
  erewrite bind_ok
    by (apply (add_range_returns _ _ ∅); [apply lookup_new | lia | lia]).
  rewrite insert_new, union_empty_l_L. reflexivity.
Qed.

(** X27: a set built by [from_range] decomposes into the one range it was
    built from: [list(CodePointSet.from_range(start, end).get_ranges())]
    is [[(start, end)]]. *)
Theorem from_range_get_ranges_round_trip (h : heap) (start end_ : Z) :
  0 <= start <= end_ -> end_ <= 0x10FFFF ->
  fst ((s <- CodePointSet.from_range start end_ ;;
        CodePointSet.get_ranges s)%M h)
  = Ok [(start, end_)].
Proof.
  intros Hle Hmax.
  erewrite bind_ok by (apply from_range_returns; assumption).
  unfold CodePointSet.get_ranges.
  erewrite bind_ok by (apply get_points_ok, lookup_new).
  rewrite bool_decide_eq_false_2 by (apply interval_nonempty; lia).
  pose proof (interval_ranges start end_ ltac:(lia)) as Hranges.
  destruct (sorted _) as [| p0 points]; [discriminate |].
  rewrite Hranges. reflexivity.
Qed.

Lemma from_range_get_ranges_round_trip_witness :
  fst ((s <- CodePointSet.from_range 0x41 0x5A ;;
        CodePointSet.get_ranges s)%M [])
  = Ok [(0x41, 0x5A)].
Proof.
  apply (from_range_get_ranges_round_trip [] 0x41 0x5A); lia.
Defined.

(** X28: [generate_range_pattern] returns a pattern exactly for the ranges
    with [0 <= start <= end <= 0x10FFFF].  With [start > end] it raises
    its own [ValueError].  Otherwise the first bound that is no code
    point makes [chr] raise, and the call raises that exception:
    [ValueError] when the bound fits a C [int], [OverflowError] when it
    does not. *)
Theorem generate_range_pattern_outcome (start end_ : Z) :
  ((exists pattern, RegexGenerator.generate_range_pattern start end_ = Ok pattern)
   <-> 0 <= start <= end_ /\ end_ <= 0x10FFFF)
  /\ (end_ < start ->
      RegexGenerator.generate_range_pattern start end_
      = Raise (ValueError "Invalid range" [start; end_]))
  /\ (start <= end_ -> ~ (0 <= start /\ end_ <= 0x10FFFF) ->
      let bound := if (0 <=? start) && (start <=? 0x10FFFF) then end_ else start in
      RegexGenerator.generate_range_pattern start end_
      = Raise (if (- 2 ^ 31 <=? bound) && (bound <? 2 ^ 31)
               then ValueError "chr() arg not in range(0x110000)" []
               else OverflowError)).
Proof.
  assert (forall i, 0 <= i <= 0x10FFFF -> chr i = Ok [i]) as Hvalid
    by exact chr_valid.
  assert (forall i, ~ (0 <= i <= 0x10FFFF) ->
            chr i = Raise (if (- 2 ^ 31 <=? i) && (i <? 2 ^ 31)
                           then ValueError "chr() arg not in range(0x110000)" []
                           else OverflowError)) as Hinvalid.
  { intros i Hi. unfold chr.
    replace ((0 <=? i) && (i <? 0x110000)) with false.
    - destruct ((- 2 ^ 31 <=? i) && (i <? 2 ^ 31)); reflexivity.
    - symmetry. apply andb_false_iff.
      destruct (Z.le_gt_cases 0 i); [right; apply Z.ltb_ge | left; apply Z.leb_gt]; lia. }
  unfold RegexGenerator.generate_range_pattern, RegexGenerator._ranges_to_pattern.
  cbn [length Nat.eqb fst snd andb RegexGenerator.range_patterns].
  destruct (Z.lt_ge_cases end_ start) as [Hgt | Hle].
  { replace (start >? end_) with true
      by (symmetry; rewrite Z.gtb_ltb; apply Z.ltb_lt; lia).
    split; [split; [intros [pattern Hp]; discriminate | lia] |].
    split; [reflexivity | lia]. }
  replace (start >? end_) with false
    by (symmetry; rewrite Z.gtb_ltb; apply Z.ltb_ge; lia).
  destruct (decide (0 <= start <= 0x10FFFF)) as [Hs | Hs].
  - replace ((0 <=? start) && (start <=? 0x10FFFF)) with true
      by (symmetry; apply andb_true_iff; split; apply Z.leb_le; lia).
    destruct (decide (0 <= end_ <= 0x10FFFF)) as [He | He].
    + rewrite (Hvalid start Hs), (Hvalid end_ He). cbn [rbind].
      rewrite bool_decide_eq_false_2 by discriminate. cbn [app].
      split; [split; [intros _; lia | intros _; destruct (start =? end_); eauto] |].
      split; [lia | intros _ Hbad; exfalso; lia].
    + assert (start <> end_) as Hne by lia.
      apply Z.eqb_neq in Hne. rewrite Hne.
      rewrite (Hvalid start Hs), (Hinvalid end_ He). cbn [rbind].
      split; [split; [intros [pattern Hp]; discriminate | lia] |].
      split; [lia | intros _ _; reflexivity].
  - replace ((0 <=? start) && (start <=? 0x10FFFF)) with false.
    2:{ symmetry. apply andb_false_iff.
        destruct (Z.le_gt_cases 0 start); [right | left]; apply Z.leb_gt; lia. }
    rewrite (Hinvalid start Hs). cbn [rbind].
    destruct (start =? end_);
      (split; [split; [intros [pattern Hp]; discriminate | lia] |]);
      (split; [lia | intros _ _; reflexivity]).
Qed.

Example generate_range_pattern_large_bound :
  RegexGenerator.generate_range_pattern (2 ^ 31) (2 ^ 31) = Raise OverflowError
  /\ RegexGenerator.generate_range_pattern 0x110000 0x110000
     = Raise (ValueError "chr() arg not in range(0x110000)" [])
  /\ RegexGenerator.generate_range_pattern 0x41 0x5A = Ok (pystr "[A-Z]").
Proof. repeat split; reflexivity. Qed.

Lemma find_common_new_object (items : list (str * loc)) (self : loc) :
  Forall (fun item => snd item <> self) items ->
  RegexGenerator.find_common items (RegexGenerator.Instance self) = None.
Proof.
  induction 1 as [| [pattern common_set] items Hne _ IH]; [reflexivity |].
  cbn [RegexGenerator.find_common RegexGenerator.eq_common].
  unfold CodePointSet.__eq__.
  rewrite bool_decide_eq_false_2 by (intros ->; apply Hne; reflexivity).
  exact IH.
Qed.

(** X29: the two ways to a pattern for an interval agree.  For a generator
    that holds no cached pattern for these points, and whose common sets
    were created before, [generate_pattern(CodePointSet.from_range(start,
    end))] returns the pattern of [generate_range_pattern(start, end)]. *)
Theorem generate_pattern_of_from_range (self : RegexGenerator.t) (h : heap)
    (start end_ : Z) :
  0 <= start <= end_ -> end_ <= 0x10FFFF ->
  Forall (fun item => (snd item < length h)%nat) (RegexGenerator.COMMON_RANGES self) ->
  RegexGenerator._pattern_cache self
    !! (list_to_set (py_range start (end_ + 1)) : gset Z, pystr "size") = None ->
  exists pattern,
    RegexGenerator.generate_range_pattern start end_ = Ok pattern
    /\ fst ((s <- CodePointSet.from_range start end_ ;;
             r <- RegexGenerator.generate_pattern self (RegexGenerator.Instance s)
                    (pystr "size") ;;
             ret (fst r))%M h)
       = Ok pattern.
Proof.
  intros Hle Hmax Hcommon Hcache.
  destruct (_ranges_to_pattern_returns [(start, end_)] (pystr "size"))
    as [pattern Hpattern].
  { constructor; [simpl; lia | constructor]. }
  exists pattern. unfold RegexGenerator.generate_range_pattern.
  replace (start >? end_) with false
    by (symmetry; rewrite Z.gtb_ltb; apply Z.ltb_ge; lia).
  split; [exact Hpattern |].
  set (pts := list_to_set (py_range start (end_ + 1)) : gset Z) in *.
  set (h' := h ++ [pts]).
  assert (h' !! length h = Some pts) as Hlook by apply lookup_new.
  erewrite bind_ok by (apply from_range_returns; assumption).
  fold pts h'.
  assert (RegexGenerator.generate_pattern self
            (RegexGenerator.Instance (length h)) (pystr "size") h'
          = (Ok (pattern,
                 RegexGenerator.cache_store self (pts, pystr "size") pattern), h'))
    as Hgen; [| rewrite (bind_ok _ _ _ _ _ Hgen); reflexivity].
  unfold RegexGenerator.generate_pattern.
  rewrite (bind_ok _ _ h' h' (negb (bool_decide (pts = ∅))))
    by (apply bool_returns, Hlook).
  rewrite negb_involutive.
  rewrite bool_decide_eq_false_2 by (apply interval_nonempty; lia).
  rewrite (bind_ok _ _ h' h' pts) by (apply frozenset_instance, Hlook).
  rewrite Hcache.
  rewrite find_common_new_object
    by (eapply Forall_impl; [exact Hcommon | intros item Hitem; simpl in *; lia]).
  erewrite bind_ok.
  2:{ apply (_get_ranges_returns h' _ pts);
        [apply bool_returns, Hlook | apply iter_returns, Hlook]. }
  unfold pts at 1. rewrite interval_ranges by lia.
  unfold lift. rewrite Hpattern. reflexivity.
Qed.

Lemma generate_pattern_of_from_range_witness :
  let self :=
    RegexGenerator.cache_store (RegexGenerator.__init__ class_common_ranges)
      ({[ 65 ]}, pystr "size") (pystr "A") in
  RegexGenerator.COMMON_RANGES self
  = [(pystr "\d", 0%nat); (pystr "\w", 1%nat); (pystr "\s", 2%nat)]
  /\ length class_store = 3%nat
  /\ exists pattern,
       RegexGenerator.generate_range_pattern 0x30 0x39 = Ok pattern
       /\ fst ((s <- CodePointSet.from_range 0x30 0x39 ;;
                r <- RegexGenerator.generate_pattern self
                       (RegexGenerator.Instance s) (pystr "size") ;;
                ret (fst r))%M class_store)
          = Ok pattern.
Proof.
  intros self.
  split; [reflexivity |]. split; [reflexivity |].
  apply (generate_pattern_of_from_range self class_store 0x30 0x39).
  - lia.
  - lia.
  - change (RegexGenerator.COMMON_RANGES self)
      with [(pystr "\d", 0%nat); (pystr "\w", 1%nat); (pystr "\s", 2%nat)].
    change (length class_store) with 3%nat.
    repeat constructor.
  - vm_compute. reflexivity.
Defined.

(* ===================================================================== *)
(** * [optimize_readability] is idempotent *)
(* ===================================================================== *)

Lemma readability_loop_spaced (pattern rest front : str) (in_class : bool)
    (result : str) :
  pattern = front ++ rest ->
  Optimizer.readability_loop pattern (Z.of_nat (length front)) rest in_class result
  = result ++ spaced (last front) rest in_class.
Proof.
  revert front in_class result.
  induction rest as [| c rest IH]; intros front in_class result Hpattern;
    cbn [Optimizer.readability_loop spaced].
  - rewrite app_nil_r. reflexivity.
  - assert (pattern = (front ++ [c]) ++ rest) as Hnext
      by (rewrite <- app_assoc; exact Hpattern).
    assert (Z.of_nat (length front) + 1 = Z.of_nat (length (front ++ [c]))) as Hlen
      by (rewrite length_app; simpl; lia).
    assert (last (front ++ [c]) = Some c) as Hlast by apply last_snoc.
    assert ((Z.of_nat (length front) >? 0)
            && negb (bool_decide
                       (pattern !! Z.to_nat (Z.of_nat (length front) - 1)
                        = Some (ord " ")))
            = negb (quiet (last front))) as Hbefore.
    { destruct front as [| x front _] using rev_ind; [reflexivity |].
      rewrite last_snoc, length_app. cbn [length quiet].
      replace (Z.of_nat (length front + 1) >? 0) with true
        by (symmetry; rewrite Z.gtb_ltb; apply Z.ltb_lt; lia).
      replace (Z.to_nat (Z.of_nat (length front + 1) - 1)) with (length front) by lia.
      rewrite Hpattern, <- !app_assoc. cbn [app].
      rewrite list_lookup_middle by reflexivity.
      cbn [andb]. f_equal.
      destruct (x =? ord " ") eqn:Hx.
      - apply Z.eqb_eq in Hx. subst x. apply bool_decide_eq_true_2. reflexivity.
      - apply Z.eqb_neq in Hx. apply bool_decide_eq_false_2. congruence. }
    assert ((Z.of_nat (length front) <? Z.of_nat (length pattern) - 1)
            && negb (bool_decide
                       (pattern !! Z.to_nat (Z.of_nat (length front) + 1)
                        = Some (ord " ")))
            = negb (quiet (head rest))) as Hafter.
    { rewrite Hpattern, length_app. cbn [length].
      destruct rest as [| n rest'].
      - cbn [length head quiet negb].
        replace (Z.of_nat (length front) <? Z.of_nat (length front + 1) - 1)
          with false by (symmetry; apply Z.ltb_ge; lia).
        reflexivity.
      - cbn [length head quiet].
        replace (Z.of_nat (length front)
                 <? Z.of_nat (length front + S (S (length rest'))) - 1)
          with true by (symmetry; apply Z.ltb_lt; lia).
        replace (Z.to_nat (Z.of_nat (length front) + 1))
          with (length (front ++ [c])) by (rewrite length_app; simpl; lia).
        replace (front ++ c :: n :: rest') with ((front ++ [c]) ++ n :: rest')
          by (rewrite <- app_assoc; reflexivity).
        rewrite list_lookup_middle by reflexivity.
        cbn [andb]. f_equal.
        destruct (n =? ord " ") eqn:Hn.
        + apply Z.eqb_eq in Hn. subst n. apply bool_decide_eq_true_2. reflexivity.
        + apply Z.eqb_neq in Hn. apply bool_decide_eq_false_2. congruence. }
    destruct (c =? ord "[");
      [rewrite Hlen, (IH _ _ _ Hnext), Hlast, <- app_assoc; reflexivity |].
    destruct (c =? ord "]");
      [rewrite Hlen, (IH _ _ _ Hnext), Hlast, <- app_assoc; reflexivity |].
    destruct ((c =? ord "|") && negb in_class);
      [| rewrite Hlen, (IH _ _ _ Hnext), Hlast, <- app_assoc; reflexivity].
    cbv zeta. rewrite Hbefore, Hafter, Hlen, (IH _ _ _ Hnext), Hlast.
    destruct (quiet (last front)), (quiet (head rest)); cbn [negb];
      rewrite <- ?app_assoc; reflexivity.
Qed.

Lemma optimize_readability_spaced (pattern : str) :
  Optimizer.optimize_readability pattern = spaced None pattern false.
Proof.
  unfold Optimizer.optimize_readability. case_bool_decide as Hempty.
  - subst pattern. reflexivity.
  - apply (readability_loop_spaced pattern pattern [] false []). reflexivity.
Qed.

Lemma spaced_adds_spaces (rest : str) :
  forall (prev : option Z) (in_class : bool),
    spaces_added rest (spaced prev rest in_class).
Proof.
  induction rest as [| c rest IH]; intros prev in_class; cbn [spaced].
  - constructor.
  - destruct (c =? ord "["); [constructor; apply IH |].
    destruct (c =? ord "]"); [constructor; apply IH |].
    destruct ((c =? ord "|") && negb in_class); [| constructor; apply IH].
    destruct (quiet prev), (quiet (head rest)); cbn [app];
      repeat first [apply spaces_added_keep; apply IH
                   | apply spaces_added_space; apply IH
                   | apply spaces_added_space
                   | apply spaces_added_keep].
Qed.

(** X16: [optimize_readability] only inserts space characters: its result
    is its argument with spaces inserted and nothing else changed (so
    with the spaces taken out the two are the same string); and a
    pattern without an alternation bar is returned as it is. *)
Theorem optimize_readability_only_adds_spaces (pattern : str) :
  spaces_added pattern (Optimizer.optimize_readability pattern)
  /\ without_spaces (Optimizer.optimize_readability pattern) = without_spaces pattern
  /\ (ord "|" ∉ pattern -> Optimizer.optimize_readability pattern = pattern).
Proof.
  split; [rewrite optimize_readability_spaced; apply spaced_adds_spaces |].
  unfold Optimizer.optimize_readability. case_bool_decide; [split; reflexivity |].
  split.
  - rewrite readability_loop_without_spaces. reflexivity.
  - intros Hbar. rewrite readability_loop_no_bar by exact Hbar. reflexivity.
Qed.

Lemma spaced_space (prev : option Z) (rest : str) (in_class : bool) :
  spaced prev (ord " " :: rest) in_class
  = ord " " :: spaced (Some (ord " ")) rest in_class.
Proof. reflexivity. Qed.

Lemma spaced_bar (prev : option Z) (rest : str) :
  spaced prev (ord "|" :: rest) false
  = (if quiet prev then [] else [ord " "])
    ++ [ord "|"]
    ++ (if quiet (head rest) then [] else [ord " "])
    ++ spaced (Some (ord "|")) rest false.
Proof. reflexivity. Qed.

(** A space that follows in the pattern still follows in the result. *)
Lemma spaced_head_quiet (prev : option Z) (rest : str) (in_class : bool) :
  quiet (head rest) = true -> quiet (head (spaced prev rest in_class)) = true.
Proof.
  destruct rest as [| n rest]; [reflexivity |].
  cbn [head quiet]. intros Hn. apply Z.eqb_eq in Hn. subst n.
  rewrite spaced_space. reflexivity.
Qed.

Lemma spaced_idempotent (rest : str) :
  forall (prev prev' : option Z) (in_class : bool),
    (quiet prev = true -> quiet prev' = true) ->
    spaced prev' (spaced prev rest in_class) in_class = spaced prev rest in_class.
Proof.
  induction rest as [| c rest IH]; intros prev prev' in_class Hquiet;
    [reflexivity |].
  cbn [spaced].
  destruct (c =? ord "[") eqn:Hopen.
  { cbn [spaced]. rewrite Hopen. f_equal. apply IH. auto. }
  destruct (c =? ord "]") eqn:Hclose.
  { cbn [spaced]. rewrite Hopen, Hclose. f_equal. apply IH. auto. }
  destruct ((c =? ord "|") && negb in_class) eqn:Hbar.
  2:{ cbn [spaced]. rewrite Hopen, Hclose, Hbar. f_equal. apply IH. auto. }
  apply andb_true_iff in Hbar as [Hc Hclass].
  apply Z.eqb_eq in Hc. subst c.
  apply negb_true_iff in Hclass. subst in_class.
  set (tail := spaced (Some (ord "|")) rest false).
  assert (forall p, quiet p = true ->
            spaced p ([ord "|"]
                      ++ (if quiet (head rest) then [] else [ord " "]) ++ tail)
              false
            = [ord "|"] ++ (if quiet (head rest) then [] else [ord " "]) ++ tail)
    as Hcore.
  { intros p Hp. cbn [app]. rewrite spaced_bar, Hp. cbn [app]. f_equal.
    destruct (quiet (head rest)) eqn:Hnext; cbn [app].
    - unfold tail at 1. rewrite spaced_head_quiet by exact Hnext.
      cbn [app]. apply IH. auto.
    - cbn [head quiet]. rewrite Z.eqb_refl. cbn [app].
      rewrite spaced_space. f_equal. apply IH. discriminate. }
  destruct (quiet prev) eqn:Hprev; cbn [app].
  - apply (Hcore prev'). auto.
  - rewrite spaced_space. f_equal. apply (Hcore (Some (ord " "))). reflexivity.
Qed.

(** X30: [optimize_readability] is idempotent: a pattern that went through
    it once is returned unchanged by a second pass. *)
Theorem optimize_readability_idempotent (pattern : str) :
  Optimizer.optimize_readability (Optimizer.optimize_readability pattern)
  = Optimizer.optimize_readability pattern.
Proof.
  rewrite !optimize_readability_spaced.
  apply spaced_idempotent. auto.
Qed.
